(** * rpc_ts: a shallow embedding of the gRPC-Web protocol engine, the
    unary client adapter, the JSON codec and the retrying stream, with the
    properties of the specification checked against it. *)

From Stdlib Require Import String ZArith List Bool Lia.
Import ListNotations.
Open Scope Z_scope.

(* ------------------------------------------------------------------ *)
(** ** Error taxonomy ([common/rpc_common.ts], enum [RpcErrorType]) *)

Inductive RpcErrorType :=
| unknown
| canceled
| invalidArgument
| notFound
| alreadyExists
| resourceExhausted
| permissionDenied
| failedPrecondition
| unimplemented
| internal
| unavailable
| unauthenticated.

Definition RpcErrorType_eqb (a b : RpcErrorType) : bool :=
  match a, b with
  | unknown, unknown | canceled, canceled
  | invalidArgument, invalidArgument | notFound, notFound
  | alreadyExists, alreadyExists | resourceExhausted, resourceExhausted
  | permissionDenied, permissionDenied
  | failedPrecondition, failedPrecondition
  | unimplemented, unimplemented | internal, internal
  | unavailable, unavailable | unauthenticated, unauthenticated => true
  | _, _ => false
  end.

(** The string value of each enum member ([unknown = 'unknown'], ...). *)
Definition RpcErrorType_value (k : RpcErrorType) : string :=
  match k with
  | unknown => "unknown"
  | canceled => "canceled"
  | invalidArgument => "invalidArgument"
  | notFound => "notFound"
  | alreadyExists => "alreadyExists"
  | resourceExhausted => "resourceExhausted"
  | permissionDenied => "permissionDenied"
  | failedPrecondition => "failedPrecondition"
  | unimplemented => "unimplemented"
  | internal => "internal"
  | unavailable => "unavailable"
  | unauthenticated => "unauthenticated"
  end.

(* ------------------------------------------------------------------ *)
(** ** HTTP status tables ([grpc_web/private/http_status.ts]) *)

Module HttpStatusTables.

(** [const enum HttpStatus] *)
Definition internalServerError := 500.
Definition badRequest := 400.
Definition notFound_ := 404.
Definition conflict := 409.
Definition tooManyRequests := 429.
Definition forbidden := 403.
Definition notImplemented := 501.
Definition serviceUnavailable := 503.
Definition unauthorized := 401.

(** [errorTypesToHttpStatuses], as the object literal lists its entries
    (the iteration order of an object with string keys is the insertion
    order). *)
Definition errorTypesToHttpStatuses : list (RpcErrorType * Z) :=
  [ (unknown, internalServerError);
    (canceled, internalServerError);
    (invalidArgument, badRequest);
    (notFound, notFound_);
    (alreadyExists, conflict);
    (resourceExhausted, tooManyRequests);
    (permissionDenied, forbidden);
    (failedPrecondition, badRequest);
    (unimplemented, notImplemented);
    (internal, internalServerError);
    (unavailable, serviceUnavailable);
    (unauthenticated, unauthorized) ].

(** Property read [errorTypesToHttpStatuses[k]] ([None] is [undefined]). *)
Fixpoint lookup_kind (t : list (RpcErrorType * Z)) (k : RpcErrorType)
  : option Z :=
  match t with
  | [] => None
  | (k', s) :: t' => if RpcErrorType_eqb k k' then Some s else lookup_kind t' k
  end.

(** A JS object with numeric keys: an association list; assigning an
    existing key replaces its value in place, a new key is appended. *)
Definition StatusObject := list (Z * RpcErrorType).

Fixpoint obj_set (o : StatusObject) (key : Z) (v : RpcErrorType)
  : StatusObject :=
  match o with
  | [] => [(key, v)]
  | (k', v') :: o' =>
      if Z.eqb key k' then (k', v) :: o' else (k', v') :: obj_set o' key v
  end.

Fixpoint obj_get (o : StatusObject) (key : Z) : option RpcErrorType :=
  match o with
  | [] => None
  | (k', v') :: o' => if Z.eqb key k' then Some v' else obj_get o' key
  end.

(** [_.fromPairs]: assigns the pairs in order, so a later pair wins. *)
Definition fromPairs (ps : list (Z * RpcErrorType)) : StatusObject :=
  fold_left (fun o '(k, v) => obj_set o k v) ps [].

(** [_.map(errorTypesToHttpStatuses, (status, errorType) => [status, errorType])] *)
Definition swapped_pairs : list (Z * RpcErrorType) :=
  map (fun '(k, s) => (s, k)) errorTypesToHttpStatuses.

(** [httpStatusesToErrorTypes]: the spread of the pairs, then the three
    extra inbound entries 413, 502 and 504. *)
Definition httpStatusesToErrorTypes : StatusObject :=
  obj_set (obj_set (obj_set (fromPairs swapped_pairs)
    413 invalidArgument) 502 unavailable) 504 unavailable.

(** [guessErrorTypeFromHttpStatus] (client side):
    [httpStatusesToErrorTypes[httpStatus] || RpcErrorType.unknown]. *)
Definition guessErrorTypeFromHttpStatus (httpStatus : Z) : RpcErrorType :=
  match obj_get httpStatusesToErrorTypes httpStatus with
  | Some k => k
  | None => unknown
  end.

(** The server side: [errorTypesToHttpStatuses[err.errorType] ||
    HttpStatus.internalServerError]. *)
Definition serverHttpStatus (k : RpcErrorType) : Z :=
  match lookup_kind errorTypesToHttpStatuses k with
  | Some s => s
  | None => internalServerError
  end.

(** The status table of the specification (section 6), read from its words. *)
Definition documented_http_status (k : RpcErrorType) : Z :=
  match k with
  | unknown | canceled | internal => 500
  | invalidArgument | failedPrecondition => 400
  | notFound => 404
  | alreadyExists => 409
  | resourceExhausted => 429
  | permissionDenied => 403
  | unimplemented => 501
  | unavailable => 503
  | unauthenticated => 401
  end.

End HttpStatusTables.

(* ------------------------------------------------------------------ *)
(** ** Exponential backoff ([client/backoff.ts]) *)

Module Backoff.

Record BackoffOptions := {
  exponentialBackoffBase : Z;
  constantBackoffMs : Z;
  maxBackoffMs : Z;
  maxRetries : Z;
  statusCodesToIgnore : list Z
}.

Definition DEFAULT_BACKOFF_OPTIONS : BackoffOptions := {|
  exponentialBackoffBase := 2;
  constantBackoffMs := 500;
  maxBackoffMs := 3000;
  maxRetries := -1;
  statusCodesToIgnore := []
|}.

(** [getBackoffMs]; numbers are taken as integers (the retry count is a
    natural number). *)
Definition getBackoffMs (options : BackoffOptions) (retries : nat) : Z :=
  let backoffMs :=
    Z.pow (exponentialBackoffBase options) (Z.of_nat retries)
    * constantBackoffMs options in
  if (0 <? maxBackoffMs options) && (maxBackoffMs options <? backoffMs)
  then maxBackoffMs options
  else backoffMs.

End Backoff.

(* ------------------------------------------------------------------ *)
(** ** Frame encoding ([grpc_web/server.ts], [encodeFrame]) *)

Module Frame.

Definition HEADER_SIZE : nat := 5.
Definition TRAILER_FLAG : Z := 128.

(** A Node [Buffer] is a list of byte values. *)
Fixpoint list_set (l : list Z) (i : nat) (v : Z) : list Z :=
  match l, i with
  | [], _ => []
  | _ :: l', O => v :: l'
  | x :: l', S i' => x :: list_set l' i' v
  end.

(** [buf.writeUInt8(value, offset)]: throws ([None]) when the value is not
    a byte or the offset is outside the buffer. *)
Definition writeUInt8 (buf : list Z) (value : Z) (offset : nat)
  : option (list Z) :=
  if (0 <=? value) && (value <=? 255) && Nat.ltb offset (length buf)
  then Some (list_set buf offset value)
  else None.

(** [buf.writeUInt32BE(value, offset)]: throws when the value does not fit
    in 32 unsigned bits or the four bytes do not fit in the buffer. *)
Definition writeUInt32BE (buf : list Z) (value : Z) (offset : nat)
  : option (list Z) :=
  if (0 <=? value) && (value <=? 4294967295)
     && Nat.leb (offset + 4) (length buf)
  then
    let b0 := Z.land (Z.shiftr value 24) 255 in
    let b1 := Z.land (Z.shiftr value 16) 255 in
    let b2 := Z.land (Z.shiftr value 8) 255 in
    let b3 := Z.land value 255 in
    Some (list_set (list_set (list_set (list_set buf offset b0)
            (offset + 1) b1) (offset + 2) b2) (offset + 3) b3)
  else None.

(** The copy loop [for (i = 0; i < byteLength; ++i)
    buf.writeUInt8(encodedPayload[i], HEADER_SIZE + i)], with the offset
    of the next byte as argument. *)
Fixpoint write_payload (buf : list Z) (payload : list Z) (offset : nat)
  : option (list Z) :=
  match payload with
  | [] => Some buf
  | p :: payload' =>
      match writeUInt8 buf p offset with
      | Some buf' => write_payload buf' payload' (S offset)
      | None => None
      end
  end.

Definition encodeFrame (firstByte : Z) (encodedPayload : list Z)
  : option (list Z) :=
  let buf := repeat 0 (HEADER_SIZE + length encodedPayload) in
  match writeUInt8 buf firstByte 0 with
  | None => None
  | Some buf =>
      match writeUInt32BE buf (Z.of_nat (length encodedPayload)) 1 with
      | None => None
      | Some buf => write_payload buf encodedPayload HEADER_SIZE
      end
  end.

Definition is_byte (b : Z) : Prop := 0 <= b <= 255.

End Frame.

(* ------------------------------------------------------------------ *)
(** ** Client errors ([client/errors.ts]) *)

(** The JS values that the error constructors store in their fields. *)
Inductive js_value :=
| JsUndefined
| JsNumber (z : Z)
| JsString (s : string).

(** The value of an [RpcErrorType] member (a string enum). *)
Definition kind_value (k : RpcErrorType) : js_value :=
  JsString (RpcErrorType_value k).

(** The errors a client stream can emit.  [ClientRpcError(errorType, msg?,
    context?)] stores its first two arguments as given; its context is not
    modelled. *)
Inductive ClientErr :=
| ClientRpcError (errorType : js_value) (msg : js_value)
| ClientProtocolError (url : string) (message : string)
| ClientTransportError (cause : string)
| RequestContextError (cause : string)
| PlainError (message : string).

(** [err.status]: no error class of the client declares a [status] field,
    so the property reads [undefined]. *)
Definition err_status (e : ClientErr) : js_value := JsUndefined.

(** [array.includes(value)] on a [number[]]. *)
Definition includes_number (l : list Z) (v : js_value) : bool :=
  match v with
  | JsNumber z => existsb (Z.eqb z) l
  | _ => false
  end.

(* ------------------------------------------------------------------ *)
(** ** Retrying stream ([client/stream_retrier.ts], [RetryingStreamImpl]) *)

Module Retrier.
Import Backoff.

Section Retrier.
Variable Message : Type.

(** [RetryingStreamState] *)
Inductive RetryingStreamState :=
| initial | started | ready | canceled_ | abandoned | complete.

(** The events of an upstream stream, in the order it emits them. *)
Inductive UpstreamEvent :=
| UReady
| UMessage (m : Message)
| UComplete
| UError (e : ClientErr)
| UCanceled.

(** The events the retrying stream emits. *)
Inductive RetryEvent :=
| EReady
| EMessage (m : Message)
| EComplete
| ECanceled
| EError (e : ClientErr)
| ERetryingError (e : ClientErr) (retriesSinceLastReady : Z) (abandoned : bool).

Record RS := mkRS {
  state : RetryingStreamState;
  retriesSinceLastReady : nat;
  emitted : list RetryEvent;
  (** the durations passed to [sleep], in order *)
  sleeps : list Z;
  (** the number of calls of [getStream] *)
  factoryCalls : nat
}.

Definition set_state (rs : RS) (s : RetryingStreamState) : RS :=
  mkRS s (retriesSinceLastReady rs) (emitted rs) (sleeps rs) (factoryCalls rs).
Definition emit (rs : RS) (ev : RetryEvent) : RS :=
  mkRS (state rs) (retriesSinceLastReady rs) (emitted rs ++ [ev])
    (sleeps rs) (factoryCalls rs).
Definition set_retries (rs : RS) (n : nat) : RS :=
  mkRS (state rs) n (emitted rs) (sleeps rs) (factoryCalls rs).
Definition add_sleep (rs : RS) (ms : Z) : RS :=
  mkRS (state rs) (retriesSinceLastReady rs) (emitted rs)
    (sleeps rs ++ [ms]) (factoryCalls rs).

Definition state_eqb (a b : RetryingStreamState) : bool :=
  match a, b with
  | initial, initial | started, started | ready, ready
  | canceled_, canceled_ | abandoned, abandoned | complete, complete => true
  | _, _ => false
  end.

(** The listeners that [attempt] registers on the upstream stream.  The
    boolean tells whether the listener called [cb()], which resolves the
    promise awaited by the loop of [asyncStart]. *)
Definition on_upstream (options : BackoffOptions) (rs : RS)
  (ev : UpstreamEvent) : RS * bool :=
  match ev with
  | UReady =>
      (set_retries (emit (set_state rs ready) EReady) 0, false)
  | UMessage m =>
      (if state_eqb (state rs) ready then emit rs (EMessage m) else rs, false)
  | UComplete =>
      (emit (set_state rs complete) EComplete, true)
  | UError err =>
      let n := retriesSinceLastReady rs in
      if ((0 <=? maxRetries options) && (maxRetries options <=? Z.of_nat n))
         || (match err with
             | ClientRpcError _ _ =>
                 includes_number (statusCodesToIgnore options) (err_status err)
             | _ => false
             end)
      then
        (emit (emit (set_state rs abandoned)
           (ERetryingError err (Z.of_nat n) true)) (EError err), true)
      else
        (* [await sleep(getBackoffMs(this.options, this.retriesSinceLastReady++))] *)
        let rs1 := emit (set_state rs started)
                     (ERetryingError err (Z.of_nat n) false) in
        (set_retries (add_sleep rs1 (getBackoffMs options n)) (S n), true)
  | UCanceled =>
      (emit (set_state rs canceled_) ECanceled, true)
  end.

(** [attempt(stream, cb)]: the upstream's events are delivered until one of
    them calls [cb()]; a stream that never does leaves the loop waiting. *)
Fixpoint attempt (options : BackoffOptions) (rs : RS)
  (script : list UpstreamEvent) : RS * bool :=
  match script with
  | [] => (rs, false)
  | ev :: script' =>
      let '(rs', resolved) := on_upstream options rs ev in
      if resolved then (rs', true) else attempt options rs' script'
  end.

Definition is_final (s : RetryingStreamState) : bool :=
  match s with
  | complete | canceled_ | abandoned => true
  | _ => false
  end.

(** The [while] loop of [asyncStart]: [getStream] is the stream provider,
    its [k]-th call yields the event script of the [k]-th upstream stream;
    [fuel] bounds the number of iterations. *)
Fixpoint loop (options : BackoffOptions)
  (getStream : nat -> list UpstreamEvent) (fuel : nat) (rs : RS) : RS :=
  match fuel with
  | O => rs
  | S fuel' =>
      if is_final (state rs) then rs
      else
        let script := getStream (factoryCalls rs) in
        let rs1 := mkRS (state rs) (retriesSinceLastReady rs) (emitted rs)
                     (sleeps rs) (S (factoryCalls rs)) in
        let '(rs2, resolved) := attempt options rs1 script in
        if resolved then loop options getStream fuel' rs2 else rs2
  end.

Definition initialRS : RS := mkRS initial 0 [] [] 0.

(** [start()] on a fresh retrying stream: [ensureState(initial)], then the
    state becomes [started] and the loop runs. *)
Definition start (options : BackoffOptions)
  (getStream : nat -> list UpstreamEvent) (fuel : nat) : RS :=
  loop options getStream fuel (set_state initialRS started).

End Retrier.

Arguments UReady {Message}.
Arguments UMessage {Message} m.
Arguments UComplete {Message}.
Arguments UError {Message} e.
Arguments UCanceled {Message}.
Arguments EReady {Message}.
Arguments EMessage {Message} m.
Arguments EComplete {Message}.
Arguments ECanceled {Message}.
Arguments EError {Message} e.
Arguments ERetryingError {Message} e retriesSinceLastReady abandoned.
Arguments state {Message} r.
Arguments retriesSinceLastReady {Message} r.
Arguments emitted {Message} r.
Arguments sleeps {Message} r.
Arguments factoryCalls {Message} r.
Arguments start {Message} options getStream fuel.
Arguments loop {Message} options getStream fuel rs.
Arguments attempt {Message} options rs script.
Arguments on_upstream {Message} options rs ev.

End Retrier.

(* ------------------------------------------------------------------ *)
(** ** Unary adapter ([client/service.ts], [Service.call]) and
       [streamAsPromise] ([client/stream.ts]) *)

Module UnaryCall.

Section UnaryCall.
Variable Msg : Type.

(** The events of the stream returned by [this.stream(method, request)]. *)
Inductive StreamEvent :=
| SMessage (m : Msg)
| SError (e : ClientErr)
| SComplete
| SCanceled.

(** A promise settles once; later [accept]/[reject] calls are ignored. *)
Inductive PromiseState (A : Type) :=
| Pending
| Fulfilled (v : A)
| Rejected (e : ClientErr).
Arguments Pending {A}.
Arguments Fulfilled {A} v.
Arguments Rejected {A} e.

Definition settle {A} (p q : PromiseState A) : PromiseState A :=
  match p with Pending => q | _ => p end.

(** The closure state of [call]: the [let message] variable and the promise. *)
Record CallState := mkCall {
  message : option Msg;
  promise : PromiseState Msg
}.

(** The listeners registered by [Service.call] (a message object
    [{response, responseContext}] is always truthy). *)
Definition call_on (method : string) (cs : CallState) (ev : StreamEvent)
  : CallState :=
  match ev with
  | SMessage msg =>
      match message cs with
      | Some _ =>
          mkCall (message cs) (settle (promise cs) (Rejected (ClientProtocolError method
            "expected unary method, but got more than one message from server")))
      | None => mkCall (Some msg) (promise cs)
      end
  | SError err => mkCall (message cs) (settle (promise cs) (Rejected err))
  | SComplete =>
      match message cs with
      | None =>
          mkCall None (settle (promise cs) (Rejected (ClientProtocolError method
            "expected unary method, but got no message from server")))
      | Some m => mkCall (Some m) (settle (promise cs) (Fulfilled m))
      end
  | SCanceled =>
      (* [reject(new ClientRpcError(0, ModuleRpcCommon.RpcErrorType.canceled))] *)
      mkCall (message cs) (settle (promise cs)
        (Rejected (ClientRpcError (JsNumber 0) (kind_value canceled))))
  end.

Definition call (method : string) (events : list StreamEvent) : PromiseState Msg :=
  promise (fold_left (call_on method) events (mkCall None Pending)).

(** [streamAsPromise]: collects the messages; [canceled] rejects with
    [new ClientRpcError(ModuleRpcCommon.RpcErrorType.canceled)]. *)
Definition streamAsPromise_on (st : list Msg * PromiseState (list Msg))
  (ev : StreamEvent) : list Msg * PromiseState (list Msg) :=
  let '(messages, p) := st in
  match ev with
  | SMessage m => (messages ++ [m], p)
  | SError err => (messages, settle p (Rejected err))
  | SCanceled =>
      (messages, settle p (Rejected (ClientRpcError (kind_value canceled) JsUndefined)))
  | SComplete => (messages, settle p (Fulfilled messages))
  end.

Definition streamAsPromise (events : list StreamEvent) : PromiseState (list Msg) :=
  snd (fold_left streamAsPromise_on events ([], Pending)).

End UnaryCall.

Arguments SMessage {Msg} m.
Arguments SError {Msg} e.
Arguments SComplete {Msg}.
Arguments SCanceled {Msg}.
Arguments Pending {A}.
Arguments Fulfilled {A} v.
Arguments Rejected {A} e.
Arguments call {Msg} method events.
Arguments streamAsPromise {Msg} events.

(** The [errorType] field of a rejection, when it is a [ClientRpcError]. *)
Definition rejection_errorType {A} (p : PromiseState A) : option js_value :=
  match p with
  | Rejected (ClientRpcError t _) => Some t
  | _ => None
  end.

End UnaryCall.

(* ------------------------------------------------------------------ *)
(** ** Server-stream dispatch ([grpc_web/server.ts], [processServerStream]) *)

Module ServerStream.

(** Server-side errors ([server/errors.ts]). *)
Inductive ServerErr :=
| ServerRpcError (errorType : RpcErrorType) (unsafeTransmittedMessage : option string)
| HandlerProtocolError (url : string) (message : string)
| ServerTransportError (cause : string)
| OtherServerError (message : string).

(** [getFullMethodUrl({ method })] *)
Definition getFullMethodUrl (method : string) : string := "/" ++ method.

(** What is written to the HTTP response body, frame by frame. *)
Inductive WrittenFrame :=
| FMessage (encoded : list Z)
| FTrailerOk
| FTrailerError (errorType : RpcErrorType) (message : option string).

Record Response := mkResp {
  httpStatus : option Z;
  body : list WrittenFrame;
  finished : bool;
  closeRegistered : bool
}.

Inductive StreamStatus := notReady | ready | end_.

Inductive Outer := OPending | OResolved | ORejected (e : ServerErr).

Record Call := mkCallSt {
  status : StreamStatus;
  outer : Outer;
  resp : Response;
  captured : list ServerErr
}.

(** What the handler does, in order: its calls of the two callbacks, then
    the settlement of its promise. *)
Inductive HandlerAction (Message : Type) :=
| HOnReady
| HOnMessage (m : Message)
| HFulfill
| HReject (e : ServerErr).
Arguments HOnReady {Message}.
Arguments HOnMessage {Message} m.
Arguments HFulfill {Message}.
Arguments HReject {Message} e.

Section Dispatch.
Variable Message : Type.
(** [codec.encodeMessage(method, message)]; [None] when it throws. *)
Variable encodeMessage : string -> Message -> option (list Z).
Variable method : string.

Definition reject (c : Call) (e : ServerErr) : Call :=
  match outer c with
  | OPending => mkCallSt (status c) (ORejected e) (resp c) (captured c)
  | _ => c
  end.

Definition resolve (c : Call) : Call :=
  match outer c with
  | OPending => mkCallSt (status c) OResolved (resp c) (captured c)
  | _ => c
  end.

Definition write (c : Call) (f : WrittenFrame) : Call :=
  let r := resp c in
  mkCallSt (status c) (outer c)
    (mkResp (httpStatus r) (body r ++ [f]) (finished r) (closeRegistered r))
    (captured c).

(** [onReady: c => { ... }] *)
Definition onReady (c : Call) : Call :=
  match status c with
  | ready =>
      (* [new ModuleRpcServer.HandlerProtocolError(..., 'onReady called more
         than once')]: the error object is built and dropped *)
      let r := resp c in
      mkCallSt ready (outer c)
        (mkResp (Some 200) (body r) (finished r) true) (captured c)
  | end_ =>
      reject c (HandlerProtocolError (getFullMethodUrl method)
                  "onReady called after end of streaming")
  | notReady =>
      let r := resp c in
      mkCallSt ready (outer c)
        (mkResp (Some 200) (body r) (finished r) true) (captured c)
  end.

(** [onMessage: message => { ... }] *)
Definition onMessage (c : Call) (m : Message) : Call :=
  match status c with
  | notReady =>
      reject c (HandlerProtocolError (getFullMethodUrl method)
                  "onMessage called before onReady")
  | end_ =>
      reject c (HandlerProtocolError (getFullMethodUrl method)
                  "onMessage called after end of streaming")
  | ready =>
      match encodeMessage method m with
      | None =>
          reject c (HandlerProtocolError (getFullMethodUrl method)
                      "cannot encode message")
      | Some encoded =>
          if finished (resp c)
          then reject c (ServerTransportError "onMessage after end")
          else write c (FMessage encoded)
      end
  end.

Definition on_action (c : Call) (a : HandlerAction Message) : Call :=
  match a with
  | HOnReady => onReady c
  | HOnMessage m => onMessage c m
  | HFulfill => resolve (write c FTrailerOk)
  | HReject e => reject c e
  end.

(** The error kind and transmitted message of the error trailer. *)
Definition grpcWebError (e : ServerErr) : RpcErrorType * option string :=
  match e with
  | ServerRpcError k msg => (k, msg)
  | _ => (internal, None)
  end.

Definition end_response (c : Call) : Call :=
  let r := resp c in
  mkCallSt (status c) (outer c)
    (mkResp (httpStatus r) (body r) true (closeRegistered r)) (captured c).

(** [processServerStream], from the response context (already added) on:
    the handler runs its actions, then the awaited promise decides between
    the [catch] branch (error trailer) and [resp.end()]. *)
Definition processServerStream (actions : list (HandlerAction Message)) : Call :=
  let c0 := mkCallSt notReady OPending (mkResp None [] false false) [] in
  let c := fold_left on_action actions c0 in
  match outer c with
  | OPending => c
  | OResolved => end_response c
  | ORejected err =>
      let '(k, msg) := grpcWebError err in
      let c1 := mkCallSt end_ (outer c) (resp c) (captured c ++ [err]) in
      end_response (write c1 (FTrailerError k msg))
  end.

End Dispatch.

Arguments processServerStream {Message} encodeMessage method actions.

(** The call ended with an error trailer. *)
Definition has_error_trailer (c : Call) : bool :=
  existsb (fun f => match f with FTrailerError _ _ => true | _ => false end)
    (body (resp c)).

End ServerStream.

(* ------------------------------------------------------------------ *)
(** ** gRPC-Web client stream (class [GrpcWebStream], the client part of
       [grpc_web/private/method_url.ts]) *)

Module GrpcWebClient.

(** [GrpcWebStreamState] *)
Inductive GrpcWebStreamState :=
| initial | waitingForRequest | started | ready | canceled_ | error
| trailersReceived | complete | endedBeforeReady.

Section Stream.
(** Encoded message payloads, decoded responses and response contexts. *)
Variables Payload Response Ctx : Type.
Variable decodeMessage : Payload -> Response.

(** A frame as yielded by [chunkParser.parse]; a trailer carries the
    result of [getGrpcWebErrorFromMetadata] on its metadata. *)
Inductive Chunk :=
| CMessage (data : option Payload)
| CTrailers (grpcError : option (RpcErrorType * string)).

(** Transport failures passed to [onEnd]. *)
Inductive TransportErr :=
| ECONNREFUSED (stack : string)
| OtherTransportErr (e : ClientErr).

(** The callbacks and calls that drive a stream, in the order they happen. *)
Inductive Input :=
| IStart (transportCreated : bool)
  (** [start()]; [getTransport] returns a transport or an [Error] *)
| IRequestContext (provided : bool)
  (** [provideRequestContext()] resolves or rejects *)
| IHeaders (decodedContext : option Ctx)
           (grpcError : option (RpcErrorType * string)) (httpStatus : Z)
  (** the promise [this.onHeaders(headers, status)] settles *)
| IChunk (chunks : list Chunk)
  (** [onChunk] with bytes that parse into these frames *)
| IEnd (err : option TransportErr)
  (** [onEnd] *)
| ICancel.
  (** [cancel()] *)

Inductive StreamEvent :=
| EReady
| EMessage (r : Response) (ctx : option Ctx)
| EComplete
| ECanceled
| EError (e : ClientErr)
| EThrown (what : string).
  (** an exception thrown out of a method or a transport callback *)

Record GS := mkGS {
  state : GrpcWebStreamState;
  hasTransport : bool;
  pendingChunks : list (list Chunk);
  responseContext : option Ctx;
  events : list StreamEvent;
  transportCancels : nat
}.

Definition set_state (g : GS) (s : GrpcWebStreamState) : GS :=
  mkGS s (hasTransport g) (pendingChunks g) (responseContext g) (events g)
    (transportCancels g).
Definition emit (g : GS) (e : StreamEvent) : GS :=
  mkGS (state g) (hasTransport g) (pendingChunks g) (responseContext g)
    (events g ++ [e]) (transportCancels g).
Definition cancel_transport (g : GS) : GS :=
  mkGS (state g) (hasTransport g) (pendingChunks g) (responseContext g)
    (events g) (S (transportCancels g)).

Definition state_eqb (a b : GrpcWebStreamState) : bool :=
  match a, b with
  | initial, initial | waitingForRequest, waitingForRequest
  | started, started | ready, ready | canceled_, canceled_ | error, error
  | trailersReceived, trailersReceived | complete, complete
  | endedBeforeReady, endedBeforeReady => true
  | _, _ => false
  end.

(** [private onChunk(chunkBytes)]: each frame in turn; an error trailer
    only breaks out of the [switch], the loop goes on. *)
Fixpoint process_chunks (g : GS) (cs : list Chunk) : GS :=
  match cs with
  | [] => g
  | CMessage None :: cs' => process_chunks g cs'
  | CMessage (Some data) :: cs' =>
      process_chunks (emit g (EMessage (decodeMessage data) (responseContext g))) cs'
  | CTrailers (Some (k, msg)) :: cs' =>
      process_chunks
        (emit (set_state g error)
           (EError (ClientRpcError (kind_value k) (JsString msg)))) cs'
  | CTrailers None :: cs' => process_chunks (set_state g trailersReceived) cs'
  end.

(** [private end()] *)
Definition end_ (g : GS) : GS :=
  if state_eqb (state g) trailersReceived
  then emit (set_state g complete) EComplete
  else if state_eqb (state g) error then g
  else emit g (EError (ClientRpcError (kind_value unavailable) JsUndefined)).

(** [private ready()] *)
Definition ready_ (g : GS) : GS :=
  let wasEndedBeforeReady := state_eqb (state g) endedBeforeReady in
  let g1 := emit (set_state g ready) EReady in
  let g2 := fold_left process_chunks (pendingChunks g1) g1 in
  if wasEndedBeforeReady then end_ g2 else g2.

(** [cancel()] *)
Definition cancel (g : GS) : GS :=
  let g1 := if hasTransport g && state_eqb (state g) started
            then cancel_transport g else g in
  emit (set_state g1 canceled_) ECanceled.

Definition step (g : GS) (i : Input) : GS :=
  match i with
  | IStart created =>
      if negb (state_eqb (state g) initial)
      then emit g (EThrown "invalid retrier state")
      else
        let g1 := set_state g waitingForRequest in
        if created
        then mkGS (state g1) true (pendingChunks g1) (responseContext g1)
               (events g1) (transportCancels g1)
        else emit (set_state g1 error)
               (EError (ClientTransportError "transport"))
  | IRequestContext provided =>
      if provided
      then set_state g started
      else emit (set_state g error)
             (EError (RequestContextError "provideRequestContext"))
  | IHeaders None _ _ =>
      emit g (EError (PlainError "decodeResponseContext"))
  | IHeaders (Some ctx) (Some (k, msg)) _ =>
      emit (cancel_transport g)
        (EError (ClientRpcError (kind_value k) (JsString msg)))
  | IHeaders (Some ctx) None httpStatus =>
      if negb (Z.eqb httpStatus 200)
      then emit g (EError (ClientRpcError
             (kind_value (HttpStatusTables.guessErrorTypeFromHttpStatus httpStatus))
             (JsString "non-200 HTTP status code")))
      else
        let g1 := mkGS (state g) (hasTransport g) (pendingChunks g) (Some ctx)
                    (events g) (transportCancels g) in
        match state g1 with
        | started | endedBeforeReady => ready_ g1
        | canceled_ | error => g1
        | _ => emit g1 (EError (PlainError "unexpected state"))
        end
  | IChunk cs =>
      match state g with
      | started =>
          mkGS (state g) (hasTransport g) (pendingChunks g ++ [cs])
            (responseContext g) (events g) (transportCancels g)
      | ready => process_chunks g cs
      | canceled_ | error => g
      | _ => emit g (EThrown "unexpected state")
      end
  | IEnd err =>
      if state_eqb (state g) error then g
      else
        match err with
        | Some (ECONNREFUSED stack) =>
            emit (set_state g error)
              (EError (ClientRpcError (kind_value unavailable) (JsString stack)))
        | Some (OtherTransportErr e) => emit (set_state g error) (EError e)
        | None =>
            if state_eqb (state g) started
            then set_state g endedBeforeReady
            else end_ g
        end
  | ICancel => cancel g
  end.

Definition initialGS : GS := mkGS initial false [] None [] 0.

Definition run (inputs : list Input) : GS := fold_left step inputs initialGS.

(** The terminal events of the stream contract. *)
Definition is_terminal (e : StreamEvent) : bool :=
  match e with EComplete | ECanceled | EError _ => true | _ => false end.

End Stream.

Arguments IStart {Payload Ctx} transportCreated.
Arguments IRequestContext {Payload Ctx} provided.
Arguments IHeaders {Payload Ctx} decodedContext grpcError httpStatus.
Arguments IChunk {Payload Ctx} chunks.
Arguments IEnd {Payload Ctx} err.
Arguments ICancel {Payload Ctx}.
Arguments CMessage {Payload} data.
Arguments CTrailers {Payload} grpcError.
Arguments EReady {Response Ctx}.
Arguments EMessage {Response Ctx} r ctx.
Arguments EThrown {Response Ctx} what.
Arguments EComplete {Response Ctx}.
Arguments ECanceled {Response Ctx}.
Arguments EError {Response Ctx} e.
Arguments run {Payload Response Ctx} decodeMessage inputs.
Arguments step {Payload Response Ctx} decodeMessage g i.
Arguments events {Payload Response Ctx} g.
Arguments state {Payload Response Ctx} g.
Arguments hasTransport {Payload Response Ctx} g.
Arguments transportCancels {Payload Response Ctx} g.
Arguments is_terminal {Response Ctx} e.

End GrpcWebClient.

(* ------------------------------------------------------------------ *)
(** ** The JSON codec ([grpc_web/common/codec.ts]) *)

(** Both JSON codecs of [codec.ts], [GrpcWebJsonCodec] and
    [TextJsonGrpcWebCodec], decode requests and messages with
    [JSON.parse(decodeUtf8(bytes))].  [decodeUtf8] is
    [TextDecoder('utf-8').decode] ([grpc_web/private/utf8.ts]), in its
    default replacement mode; strings are lists of UTF-16 code units and a
    [Uint8Array] is a list of bytes (values 0 to 255). *)
Module JsonCodec.

(** *** [decodeUtf8]: the UTF-8 decoder of the Encoding standard *)

(** bytes needed, bytes seen, code point, lower and upper boundary *)
Inductive DecState := DS (needed seen cp lower upper : Z).

Definition ds0 : DecState := DS 0 0 0 128 191.

(** A byte read with no sequence in progress. *)
Definition start_byte (b : Z) : list Z * DecState :=
  if b <=? 127 then ([b], ds0)
  else if (194 <=? b) && (b <=? 223) then ([], DS 1 0 (Z.land b 31) 128 191)
  else if (224 <=? b) && (b <=? 239) then
    ([], DS 2 0 (Z.land b 15) (if b =? 224 then 160 else 128)
                                (if b =? 237 then 159 else 191))
  else if (240 <=? b) && (b <=? 244) then
    ([], DS 3 0 (Z.land b 7) (if b =? 240 then 144 else 128)
                               (if b =? 244 then 143 else 191))
  else ([65533], ds0).

(** One byte: the code points it completes and the next state.  A byte
    outside the boundaries ends the sequence with U+FFFD and is read again
    from the initial state. *)
Definition utf8_byte (st : DecState) (b : Z) : list Z * DecState :=
  match st with
  | DS needed seen cp lower upper =>
      if needed =? 0 then start_byte b
      else if negb ((lower <=? b) && (b <=? upper)) then
        let (out, st') := start_byte b in (65533 :: out, st')
      else
        let cp' := Z.lor (Z.shiftl cp 6) (Z.land b 63) in
        if seen + 1 =? needed then ([cp'], ds0)
        else ([], DS needed (seen + 1) cp' 128 191)
  end.

(** The code points of a byte sequence; a truncated sequence at the end
    gives U+FFFD. *)
Fixpoint utf8_code_points (st : DecState) (bs : list Z) : list Z :=
  match bs with
  | [] => match st with DS needed _ _ _ _ => if needed =? 0 then [] else [65533] end
  | b :: bs' => let (out, st') := utf8_byte st b in out ++ utf8_code_points st' bs'
  end.

(** A code point as UTF-16 code units. *)
Definition to_utf16 (cp : Z) : list Z :=
  if cp <? 65536 then [cp]
  else let c := cp - 65536 in [55296 + Z.shiftr c 10; 56320 + Z.land c 1023].

(** [decodeUtf8(bytes)]: a leading byte order mark is dropped
    ([ignoreBOM] is false). *)
Definition decodeUtf8 (bs : list Z) : list Z :=
  let cps := utf8_code_points ds0 bs in
  let cps' := match cps with
              | c :: r => if c =? 65279 then r else cps
              | [] => []
              end in
  flat_map to_utf16 cps'.

(** *** [JSON.parse] (without reviver) *)

(** The value [JSON.parse] returns.  A number is kept as its lexeme
    ([JSON.parse] turns it into the nearest double); an object lists its
    properties in creation order. *)
#[warnings="-register-all"]
Inductive json :=
| JNull
| JBool (b : bool)
| JNum (lexeme : list Z)
| JStr (units : list Z)
| JArr (elems : list json)
| JObj (props : list (list Z * json)).

Fixpoint list_Z_eqb (a b : list Z) : bool :=
  match a, b with
  | [], [] => true
  | x :: a', y :: b' => (x =? y) && list_Z_eqb a' b'
  | _, _ => false
  end.

(** [CreateDataProperty] on the object being built: a repeated key keeps
    its place and takes the later value. *)
Fixpoint prop_set (ps : list (list Z * json)) (k : list Z) (v : json)
  : list (list Z * json) :=
  match ps with
  | [] => [(k, v)]
  | (k', v') :: ps' =>
      if list_Z_eqb k' k then (k, v) :: ps' else (k', v') :: prop_set ps' k v
  end.

(** tab, line feed, carriage return, space *)
Definition is_ws (c : Z) : bool :=
  (c =? 9) || (c =? 10) || (c =? 13) || (c =? 32).

Fixpoint skip_ws (s : list Z) : list Z :=
  match s with
  | c :: s' => if is_ws c then skip_ws s' else s
  | [] => []
  end.

Definition is_digit (c : Z) : bool := (48 <=? c) && (c <=? 57).

Fixpoint span_digits (s : list Z) : list Z * list Z :=
  match s with
  | c :: s' =>
      if is_digit c then let (d, r) := span_digits s' in (c :: d, r) else ([], s)
  | [] => ([], [])
  end.

(** [-]? ([0] | [1-9][0-9]* ) ([.][0-9]+)? ([eE][+-]?[0-9]+)? *)
Definition parse_number (s : list Z) : option (list Z * list Z) :=
  let '(sign, s1) := match s with
                     | c :: r => if c =? 45 then ([45], r) else ([], s)
                     | [] => ([], s)
                     end in
  let int := match s1 with
             | c :: r =>
                 if c =? 48 then Some ([48], r)
                 else if (49 <=? c) && (c <=? 57)
                 then let (d, r') := span_digits r in Some (c :: d, r')
                 else None
             | [] => None
             end in
  match int with
  | None => None
  | Some (ip, s2) =>
      let frac := match s2 with
                  | c :: r =>
                      if c =? 46 then
                        match span_digits r with
                        | ([], _) => None
                        | (d, r') => Some (46 :: d, r')
                        end
                      else Some ([], s2)
                  | [] => Some ([], s2)
                  end in
      match frac with
      | None => None
      | Some (fp, s3) =>
          let exp := match s3 with
                     | e :: r =>
                         if (e =? 101) || (e =? 69) then
                           let '(sg, r1) := match r with
                                            | c :: r' =>
                                                if (c =? 43) || (c =? 45)
                                                then ([c], r') else ([], r)
                                            | [] => ([], r)
                                            end in
                           match span_digits r1 with
                           | ([], _) => None
                           | (d, r2) => Some (e :: sg ++ d, r2)
                           end
                         else Some ([], s3)
                     | [] => Some ([], s3)
                     end in
          match exp with
          | None => None
          | Some (ep, s4) => Some (sign ++ ip ++ fp ++ ep, s4)
          end
      end
  end.

Definition hex_value (c : Z) : option Z :=
  if (48 <=? c) && (c <=? 57) then Some (c - 48)
  else if (65 <=? c) && (c <=? 70) then Some (c - 55)
  else if (97 <=? c) && (c <=? 102) then Some (c - 87)
  else None.

Definition simple_escape (c : Z) : option Z :=
  if c =? 34 then Some 34 else if c =? 92 then Some 92
  else if c =? 47 then Some 47 else if c =? 98 then Some 8
  else if c =? 102 then Some 12 else if c =? 110 then Some 10
  else if c =? 114 then Some 13 else if c =? 116 then Some 9
  else None.

(** The code units of a string literal after its opening quote, and the
    text after its closing quote. *)
Fixpoint parse_string (s : list Z) : option (list Z * list Z) :=
  match s with
  | [] => None
  | c :: r =>
      if c =? 34 then Some ([], r)
      else if c =? 92 then
        match r with
        | e :: r1 =>
            if e =? 117 then
              match r1 with
              | h1 :: h2 :: h3 :: h4 :: r2 =>
                  match hex_value h1, hex_value h2, hex_value h3, hex_value h4 with
                  | Some v1, Some v2, Some v3, Some v4 =>
                      match parse_string r2 with
                      | Some (u, rest) =>
                          Some ((((v1 * 16 + v2) * 16 + v3) * 16 + v4) :: u, rest)
                      | None => None
                      end
                  | _, _, _, _ => None
                  end
              | _ => None
              end
            else
              match simple_escape e, parse_string r1 with
              | Some x, Some (u, rest) => Some (x :: u, rest)
              | _, _ => None
              end
        | [] => None
        end
      else if c <? 32 then None
      else
        match parse_string r with
        | Some (u, rest) => Some (c :: u, rest)
        | None => None
        end
  end.

Fixpoint strip_prefix (p s : list Z) : option (list Z) :=
  match p, s with
  | [], _ => Some s
  | x :: p', y :: s' => if x =? y then strip_prefix p' s' else None
  | _ :: _, [] => None
  end.

(** Recursive descent over the JSON grammar.  [fuel] bounds the depth of
    calls: along any chain of calls, two consecutive calls consume at least
    one code unit. *)
Fixpoint parse_value (fuel : nat) (s : list Z) {struct fuel}
  : option (json * list Z) :=
  match fuel with
  | O => None
  | S f =>
      match skip_ws s with
      | [] => None
      | c :: r =>
          if c =? 123 then
            match skip_ws r with
            | d :: r' =>
                if d =? 125 then Some (JObj [], r')
                else match parse_members f [] r with
                     | Some (ps, r'') => Some (JObj ps, r'')
                     | None => None
                     end
            | [] => None
            end
          else if c =? 91 then
            match skip_ws r with
            | d :: r' =>
                if d =? 93 then Some (JArr [], r')
                else match parse_elements f [] r with
                     | Some (vs, r'') => Some (JArr vs, r'')
                     | None => None
                     end
            | [] => None
            end
          else if c =? 34 then
            match parse_string r with
            | Some (u, r') => Some (JStr u, r')
            | None => None
            end
          else
            match strip_prefix [116; 114; 117; 101] (c :: r) with
            | Some r' => Some (JBool true, r')
            | None =>
            match strip_prefix [102; 97; 108; 115; 101] (c :: r) with
            | Some r' => Some (JBool false, r')
            | None =>
            match strip_prefix [110; 117; 108; 108] (c :: r) with
            | Some r' => Some (JNull, r')
            | None =>
                match parse_number (c :: r) with
                | Some (lx, r') => Some (JNum lx, r')
                | None => None
                end
            end end end
      end
  end
with parse_elements (fuel : nat) (acc : list json) (s : list Z) {struct fuel}
  : option (list json * list Z) :=
  match fuel with
  | O => None
  | S f =>
      match parse_value f s with
      | None => None
      | Some (v, r) =>
          match skip_ws r with
          | d :: r' =>
              if d =? 44 then parse_elements f (acc ++ [v]) r'
              else if d =? 93 then Some (acc ++ [v], r')
              else None
          | [] => None
          end
      end
  end
with parse_members (fuel : nat) (acc : list (list Z * json)) (s : list Z)
  {struct fuel} : option (list (list Z * json) * list Z) :=
  match fuel with
  | O => None
  | S f =>
      match skip_ws s with
      | d :: r =>
          if d =? 34 then
            match parse_string r with
            | None => None
            | Some (k, r1) =>
                match skip_ws r1 with
                | e :: r2 =>
                    if e =? 58 then
                      match parse_value f r2 with
                      | None => None
                      | Some (v, r3) =>
                          match skip_ws r3 with
                          | g :: r4 =>
                              if g =? 44 then parse_members f (prop_set acc k v) r4
                              else if g =? 125 then Some (prop_set acc k v, r4)
                              else None
                          | [] => None
                          end
                      end
                    else None
                | [] => None
                end
            end
          else None
      | [] => None
      end
  end.

(** [JSON.parse(text)]: [None] is the [SyntaxError] it throws.  The whole
    text must be one value between optional white space. *)
Definition JSON_parse (text : list Z) : option json :=
  match parse_value (2 * length text + 2) text with
  | Some (v, rest) => match skip_ws rest with [] => Some v | _ => None end
  | None => None
  end.

(** [GrpcWebJsonCodec.decodeRequest]; [None] means that it throws. *)
Definition decodeRequest (_method : string) (message : list Z) : option json :=
  JSON_parse (decodeUtf8 message).

(** [GrpcWebJsonCodec.decodeMessage] *)
Definition decodeMessage (_method : string) (encodedMessage : list Z) : option json :=
  JSON_parse (decodeUtf8 encodedMessage).

(** a decimal digit *)
Definition digit (c : Z) : Prop := 48 <= c <= 57.

Definition is_object (v : json) : bool :=
  match v with JObj _ => true | _ => false end.

End JsonCodec.

(* ------------------------------------------------------------------ *)
(** ** JSON texts (ECMA-404, RFC 8259) and the value [JSON.parse] gives them *)

(** The grammar of a JSON text over code units, written from the standard,
    and the value [JSON.parse] makes of it: a number is kept as its lexeme
    (as in [JsonCodec.json]), a string as its code units after escapes, an
    object as its members added in text order with [CreateDataProperty]
    ([JsonCodec.prop_set]). *)
Module JsonGrammar.
Import JsonCodec.

(** white space: tab, line feed, carriage return, space *)
Definition ws (w : list Z) : Prop :=
  Forall (fun c => c = 9 \/ c = 10 \/ c = 13 \/ c = 32) w.

(** one or more decimal digits *)
Definition digits (ds : list Z) : Prop := ds <> [] /\ Forall digit ds.

(** [0] or a non-zero digit followed by digits *)
Inductive int_part : list Z -> Prop :=
| int_zero : int_part [48]
| int_nonzero d ds : 49 <= d <= 57 -> Forall digit ds -> int_part (d :: ds).

(** an optional [.] followed by digits *)
Inductive frac_part : list Z -> Prop :=
| frac_none : frac_part []
| frac_some ds : digits ds -> frac_part (46 :: ds).

(** an optional [e] or [E], an optional sign, digits *)
Inductive exp_part : list Z -> Prop :=
| exp_none : exp_part []
| exp_some e sg ds :
    (e = 101 \/ e = 69) -> (sg = [] \/ sg = [43] \/ sg = [45]) -> digits ds ->
    exp_part (e :: sg ++ ds).

(** an optional minus sign, the integer part, the fraction, the exponent *)
Inductive number : list Z -> Prop :=
| number_intro sg i fr ex :
    (sg = [] \/ sg = [45]) -> int_part i -> frac_part fr -> exp_part ex ->
    number (sg ++ i ++ fr ++ ex).

(** the two-character escapes (a backslash, then a quotation mark, a
    backslash, a slash, [b], [f], [n], [r] or [t]) and the unit each
    stands for *)
Definition escapes : list (Z * Z) :=
  [(34, 34); (92, 92); (47, 47); (98, 8); (102, 12); (110, 10); (114, 13); (116, 9)].

(** a hexadecimal digit and its value *)
Definition hex_digit (h n : Z) : Prop :=
  (48 <= h <= 57 /\ n = h - 48) \/ (65 <= h <= 70 /\ n = h - 55) \/
  (97 <= h <= 102 /\ n = h - 87).

(** The characters between the quotes of a string and the code units they
    stand for: any unit but the quotation mark, the backslash and the
    control characters U+0000..U+001F, a two-character escape, or a
    backslash, [u] and four hexadecimal digits. *)
Inductive chars : list Z -> list Z -> Prop :=
| chars_nil : chars [] []
| chars_unit c t u :
    32 <= c -> c <> 34 -> c <> 92 -> chars t u -> chars (c :: t) (c :: u)
| chars_escape e x t u :
    In (e, x) escapes -> chars t u -> chars (92 :: e :: t) (x :: u)
| chars_hex h1 h2 h3 h4 n1 n2 n3 n4 t u :
    hex_digit h1 n1 -> hex_digit h2 n2 -> hex_digit h3 n3 -> hex_digit h4 n4 ->
    chars t u ->
    chars (92 :: 117 :: h1 :: h2 :: h3 :: h4 :: t) ((((n1 * 16 + n2) * 16 + n3) * 16 + n4) :: u).

(** the members [kvs] added in text order to the properties [acc] *)
Definition add_members (kvs : list (list Z * json)) (acc : list (list Z * json))
  : list (list Z * json) :=
  fold_left (fun ps kv => prop_set ps (fst kv) (snd kv)) kvs acc.

(** the properties of an object whose members are [kvs] *)
Definition object_value (kvs : list (list Z * json)) : list (list Z * json) :=
  add_members kvs [].

(** element: a value between white space; value; the elements of an array
    and the members of an object, separated by commas *)
Inductive element : list Z -> json -> Prop :=
| element_intro w1 t v w2 : ws w1 -> value t v -> ws w2 -> element (w1 ++ t ++ w2) v
with value : list Z -> json -> Prop :=
| value_null : value [110; 117; 108; 108] JNull
| value_true : value [116; 114; 117; 101] (JBool true)
| value_false : value [102; 97; 108; 115; 101] (JBool false)
| value_number t : number t -> value t (JNum t)
| value_string t u : chars t u -> value (34 :: t ++ [34]) (JStr u)
| value_array_empty w : ws w -> value (91 :: w ++ [93]) (JArr [])
| value_array t vs : elements t vs -> value (91 :: t ++ [93]) (JArr vs)
| value_object_empty w : ws w -> value (123 :: w ++ [125]) (JObj [])
| value_object t kvs : members t kvs -> value (123 :: t ++ [125]) (JObj (object_value kvs))
with elements : list Z -> list json -> Prop :=
| elements_one t v : element t v -> elements t [v]
| elements_cons t v t' vs : element t v -> elements t' vs -> elements (t ++ 44 :: t') (v :: vs)
with members : list Z -> list (list Z * json) -> Prop :=
| members_one w1 s k w2 t v :
    ws w1 -> chars s k -> ws w2 -> element t v ->
    members (w1 ++ 34 :: s ++ 34 :: w2 ++ 58 :: t) [(k, v)]
| members_cons w1 s k w2 t v t' kvs :
    ws w1 -> chars s k -> ws w2 -> element t v -> members t' kvs ->
    members (w1 ++ 34 :: s ++ 34 :: w2 ++ 58 :: t ++ 44 :: t') ((k, v) :: kvs).

(** A JSON text is one element; [json_text t v]: [t] is a JSON text and
    [JSON.parse] gives [v] for it. *)
Definition json_text (t : list Z) (v : json) : Prop := element t v.

(** The text after a value: nothing, white space or a structural character
    that may follow a value ([,], [\]], [}]). *)
Definition after_value (r : list Z) : bool :=
  match r with
  | [] => true
  | c :: _ => is_ws c || (c =? 44) || (c =? 93) || (c =? 125)
  end.

(** The text after an element: nothing or [,], [\]], [}]. *)
Definition after_element (r : list Z) : bool :=
  match r with
  | [] => true
  | c :: _ => (c =? 44) || (c =? 93) || (c =? 125)
  end.

End JsonGrammar.

(** [JsonCodec.parse_number] cut into its four stages: sign, integer part,
    fraction and exponent ([parse_number_stages] shows that their
    composition is [parse_number]). *)
Module JsonNumberStages.
Import JsonCodec.

Definition number_sign (s : list Z) : list Z * list Z :=
  match s with
  | c :: r => if c =? 45 then ([45], r) else ([], s)
  | [] => ([], s)
  end.

Definition number_int (s1 : list Z) : option (list Z * list Z) :=
  match s1 with
  | c :: r =>
      if c =? 48 then Some ([48], r)
      else if (49 <=? c) && (c <=? 57)
      then let (d, r') := span_digits r in Some (c :: d, r')
      else None
  | [] => None
  end.

Definition number_frac (s2 : list Z) : option (list Z * list Z) :=
  match s2 with
  | c :: r =>
      if c =? 46 then
        match span_digits r with
        | ([], _) => None
        | (d, r') => Some (46 :: d, r')
        end
      else Some ([], s2)
  | [] => Some ([], s2)
  end.

Definition number_exp (s3 : list Z) : option (list Z * list Z) :=
  match s3 with
  | e :: r =>
      if (e =? 101) || (e =? 69) then
        let '(sg, r1) := match r with
                         | c :: r' =>
                             if (c =? 43) || (c =? 45)
                             then ([c], r') else ([], r)
                         | [] => ([], r)
                         end in
        match span_digits r1 with
        | ([], _) => None
        | (d, r2) => Some (e :: sg ++ d, r2)
        end
      else Some ([], s3)
  | [] => Some ([], s3)
  end.

End JsonNumberStages.

(* ------------------------------------------------------------------ *)
(** ** gRPC status metadata ([grpc_web/private/grpc.ts], the second part
       of [grpc_web/private/method_url.ts], and [private/headers.ts]) *)

(** Strings are lists of UTF-16 code units, as in [JsonCodec]. *)
Module GrpcWebErrors.
Import HttpStatusTables.

(** The code units of an ASCII literal. *)
Fixpoint units (s : string) : list Z :=
  match s with
  | EmptyString => []
  | String a s' => Z.of_nat (Ascii.nat_of_ascii a) :: units s'
  end.

(** *** [encodeHeaderValue] and [decodeHeaderValue]: [encodeURIComponent]
        and [decodeURIComponent] *)

Definition is_high_surrogate (c : Z) : bool := (55296 <=? c) && (c <=? 56319).
Definition is_low_surrogate (c : Z) : bool := (56320 <=? c) && (c <=? 57343).

(** The code units [encodeURIComponent] leaves as they are: ASCII letters
    and digits and [-_.!~*'()]. *)
Definition uri_unreserved (c : Z) : bool :=
  ((65 <=? c) && (c <=? 90)) || ((97 <=? c) && (c <=? 122))
  || ((48 <=? c) && (c <=? 57))
  || (c =? 45) || (c =? 95) || (c =? 46) || (c =? 33) || (c =? 126)
  || (c =? 42) || (c =? 39) || (c =? 40) || (c =? 41).

(** The UTF-8 bytes of a code point. *)
Definition utf8_encode_cp (cp : Z) : list Z :=
  if cp <? 128 then [cp]
  else if cp <? 2048 then
    [Z.lor 192 (Z.shiftr cp 6); Z.lor 128 (Z.land cp 63)]
  else if cp <? 65536 then
    [Z.lor 224 (Z.shiftr cp 12); Z.lor 128 (Z.land (Z.shiftr cp 6) 63);
     Z.lor 128 (Z.land cp 63)]
  else
    [Z.lor 240 (Z.shiftr cp 18); Z.lor 128 (Z.land (Z.shiftr cp 12) 63);
     Z.lor 128 (Z.land (Z.shiftr cp 6) 63); Z.lor 128 (Z.land cp 63)].

(** An upper-case hexadecimal digit. *)
Definition hex_upper (d : Z) : Z := if d <? 10 then 48 + d else 55 + d.

(** ["%" + the two hexadecimal digits of a byte] *)
Definition percent_byte (b : Z) : list Z :=
  [37; hex_upper (Z.shiftr b 4); hex_upper (Z.land b 15)].

(** [encodeURIComponent(s)]; [None] is the [URIError] thrown on a lone
    surrogate. *)
Fixpoint encodeURIComponent (s : list Z) : option (list Z) :=
  match s with
  | [] => Some []
  | c :: r =>
      if uri_unreserved c then
        match encodeURIComponent r with Some e => Some (c :: e) | None => None end
      else if is_high_surrogate c then
        match r with
        | d :: r' =>
            if is_low_surrogate d then
              let cp := (c - 55296) * 1024 + (d - 56320) + 65536 in
              match encodeURIComponent r' with
              | Some e => Some (flat_map percent_byte (utf8_encode_cp cp) ++ e)
              | None => None
              end
            else None
        | [] => None
        end
      else if is_low_surrogate c then None
      else
        match encodeURIComponent r with
        | Some e => Some (flat_map percent_byte (utf8_encode_cp c) ++ e)
        | None => None
        end
  end.

(** The number of leading one bits of a byte (5 stands for 5 or more). *)
Definition leading_ones (b : Z) : nat :=
  if b <? 128 then 0 else if b <? 192 then 1 else if b <? 224 then 2
  else if b <? 240 then 3 else if b <? 248 then 4 else 5.

(** The [k] escapes [%XX] of continuation bytes ([10xxxxxx]) that follow a
    leading byte, and the text after them. *)
Fixpoint take_escapes (k : nat) (s : list Z) : option (list Z * list Z) :=
  match k with
  | O => Some ([], s)
  | S k' =>
      match s with
      | p :: h1 :: h2 :: r =>
          if p =? 37 then
            match JsonCodec.hex_value h1, JsonCodec.hex_value h2 with
            | Some a, Some b =>
                let B := a * 16 + b in
                if Z.shiftr B 6 =? 2 then
                  match take_escapes k' r with
                  | Some (bs, rest) => Some (B :: bs, rest)
                  | None => None
                  end
                else None
            | _, _ => None
            end
          else None
      | _ => None
      end
  end.

(** The code point of a multi-byte sequence, when the octets are the
    UTF-8 encoding of one (no overlong form, no surrogate, at most
    U+10FFFF). *)
Definition utf8_decode_octets (os : list Z) : option Z :=
  match os with
  | [b0; b1] =>
      let cp := Z.lor (Z.shiftl (Z.land b0 31) 6) (Z.land b1 63) in
      if 128 <=? cp then Some cp else None
  | [b0; b1; b2] =>
      let cp := Z.lor (Z.lor (Z.shiftl (Z.land b0 15) 12) (Z.shiftl (Z.land b1 63) 6))
                  (Z.land b2 63) in
      if (2048 <=? cp) && negb ((55296 <=? cp) && (cp <=? 57343)) then Some cp else None
  | [b0; b1; b2; b3] =>
      let cp := Z.lor (Z.lor (Z.lor (Z.shiftl (Z.land b0 7) 18)
                                    (Z.shiftl (Z.land b1 63) 12))
                             (Z.shiftl (Z.land b2 63) 6))
                  (Z.land b3 63) in
      if (65536 <=? cp) && (cp <=? 1114111) then Some cp else None
  | _ => None
  end.

(** One step of [decodeURIComponent]: the code units produced and the
    rest of the text; [None] is a [URIError]. *)
Definition decode_one (s : list Z) : option (list Z * list Z) :=
  match s with
  | [] => None
  | c :: r =>
      if negb (c =? 37) then Some ([c], r)
      else
        match r with
        | h1 :: h2 :: r' =>
            match JsonCodec.hex_value h1, JsonCodec.hex_value h2 with
            | Some a, Some b =>
                let B := a * 16 + b in
                match leading_ones B with
                | O => Some ([B], r')
                | n =>
                    if (Nat.eqb n 1 || Nat.ltb 4 n)%bool then None
                    else
                      match take_escapes (n - 1) r' with
                      | Some (cont, r'') =>
                          match utf8_decode_octets (B :: cont) with
                          | Some cp => Some (JsonCodec.to_utf16 cp, r'')
                          | None => None
                          end
                      | None => None
                      end
                end
            | _, _ => None
            end
        | _ => None
        end
  end.

(** Each step consumes at least one code unit, so [length s] steps are
    enough. *)
Fixpoint decode_aux (fuel : nat) (s : list Z) : option (list Z) :=
  match s with
  | [] => Some []
  | _ =>
      match fuel with
      | O => None
      | S f =>
          match decode_one s with
          | Some (u, r) =>
              match decode_aux f r with Some d => Some (u ++ d) | None => None end
          | None => None
          end
      end
  end.

(** [decodeURIComponent(s)] *)
Definition decodeURIComponent (s : list Z) : option (list Z) :=
  decode_aux (length s) s.

(** [encodeHeaderValue] *)
Definition encodeHeaderValue := encodeURIComponent.
(** [decodeHeaderValue] *)
Definition decodeHeaderValue := decodeURIComponent.

(** *** Numbers *)

(** A JS number as [parseInt] can return it. *)
Inductive js_number := JsNaN | JsInt (z : Z).

(** [WhiteSpace] and [LineTerminator] code units, trimmed by [parseInt]. *)
Definition is_js_space (c : Z) : bool :=
  existsb (Z.eqb c) [9; 10; 11; 12; 13; 32; 160; 5760; 8232; 8233; 8239; 8287;
                     12288; 65279]
  || ((8192 <=? c) && (c <=? 8202)).

Fixpoint trim_start (s : list Z) : list Z :=
  match s with
  | c :: r => if is_js_space c then trim_start r else s
  | [] => []
  end.

Definition digits_value (ds : list Z) : Z :=
  fold_left (fun acc d => acc * 10 + (d - 48)) ds 0.

(** [parseInt(s, 10)]: leading white space, an optional sign, then the
    longest run of decimal digits; [NaN] when there is none.  The value is
    kept exact (a double rounds beyond 2^53). *)
Definition parseInt (s : list Z) : js_number :=
  let s1 := trim_start s in
  let '(sign, s2) := match s1 with
                     | c :: r => if c =? 45 then (-1, r)
                                 else if c =? 43 then (1, r) else (1, s1)
                     | [] => (1, s1)
                     end in
  match fst (JsonCodec.span_digits s2) with
  | [] => JsNaN
  | ds => JsInt (sign * digits_value ds)
  end.

Fixpoint decimal_aux (fuel : nat) (n : Z) (acc : list Z) : list Z :=
  match fuel with
  | O => acc
  | S f =>
      let acc' := (48 + n mod 10) :: acc in
      if n <? 10 then acc' else decimal_aux f (n / 10) acc'
  end.

(** [n.toString()] for an integer [n]. *)
Definition number_toString (n : Z) : list Z :=
  if n <? 0 then 45 :: decimal_aux (S (Z.to_nat (Z.log2 (- n)))) (- n) []
  else decimal_aux (S (Z.to_nat (Z.log2 n))) n [].

(** *** Tables *)

(** [errorTypesToGrpcStatuses], in the order of the object literal, with
    the [GrpcErrorCode] values (Canceled = 1, Unknown = 2, ...). *)
Definition errorTypesToGrpcStatuses : list (RpcErrorType * Z) :=
  [ (canceled, 1); (unknown, 2); (invalidArgument, 3); (notFound, 5);
    (alreadyExists, 6); (permissionDenied, 7); (resourceExhausted, 8);
    (failedPrecondition, 9); (unimplemented, 12); (internal, 13);
    (unavailable, 14); (unauthenticated, 16) ].

(** [GrpcErrorCode.Unknown] *)
Definition GrpcErrorCode_Unknown : Z := 2.

(** [_.fromPairs(_.map(errorTypesToGrpcStatuses, (status, errorType) =>
    [status, errorType]))] *)
Definition grpcStatusesToErrorTypes : StatusObject :=
  fromPairs (map (fun p => (snd p, fst p)) errorTypesToGrpcStatuses).

(** [grpcStatusesToErrorTypes[n]]: the key of [NaN] is ["NaN"], never in
    the table. *)
Definition grpcStatus_lookup (n : js_number) : option RpcErrorType :=
  match n with
  | JsNaN => None
  | JsInt z => obj_get grpcStatusesToErrorTypes z
  end.

(** *** Metadata *)

(** [grpc.Metadata]: its entries (lower-case names) in order, a name may
    repeat; [get(name)] returns the values of that name. *)
Definition Metadata := list (list Z * list Z).

Definition md_get (md : Metadata) (name : list Z) : list (list Z) :=
  map snd (filter (fun e => JsonCodec.list_Z_eqb (fst e) name) md).

(** [grpcHeaders] *)
Definition grpcHeaders_status : list Z := units "grpc-status".
Definition grpcHeaders_message : list Z := units "grpc-message".

(** [GrpcWebError]: [message] is [undefined] when [None]. *)
Record GrpcWebError := mkGrpcWebError {
  errorType : RpcErrorType;
  message : option (list Z)
}.

(** [Array.prototype.join(',')] *)
Definition join_comma (xs : list (list Z)) : list Z :=
  match xs with
  | [] => []
  | x :: r => x ++ flat_map (fun y => 44 :: y) r
  end.

(** [xs.map(f)] with an [f] that may throw ([None]). *)
Fixpoint map_throwing {A B : Type} (f : A -> option B) (xs : list A)
  : option (list B) :=
  match xs with
  | [] => Some []
  | x :: r =>
      match f x with
      | Some y => match map_throwing f r with Some ys => Some (y :: ys) | None => None end
      | None => None
      end
  end.

(** [getStatusFromMetadata]: [None] is [null]; [parseInt] never throws,
    so the [catch] branch is dead. *)
Definition getStatusFromMetadata (headers : Metadata) : option js_number :=
  match md_get headers grpcHeaders_status with
  | v :: _ => Some (parseInt v)
  | [] => None
  end.

(** [getGrpcWebErrorFromMetadata]: the inner [None] is [null] (success);
    the outer [None] is the [URIError] that [decodeHeaderValue] can throw.
    [metadata.get] returns an array, which is truthy even when empty. *)
Definition getGrpcWebErrorFromMetadata (metadata : Metadata)
  : option (option GrpcWebError) :=
  match getStatusFromMetadata metadata with
  | None => Some None
  | Some grpcStatus =>
      if match grpcStatus with JsInt z => z =? 0 | JsNaN => false end
      then Some None
      else
        let errorType_ := match grpcStatus_lookup grpcStatus with
                          | Some k => k
                          | None => unknown
                          end in
        match map_throwing decodeHeaderValue (md_get metadata grpcHeaders_message) with
        | Some ms => Some (Some (mkGrpcWebError errorType_ (Some (join_comma ms))))
        | None => None
        end
  end.

(** [getMetadataFromGrpcWebError]: a [Map] with the status, then the
    message when it is a non-empty string; [None] when
    [encodeHeaderValue] throws. *)
Definition getMetadataFromGrpcWebError (error : GrpcWebError) : option Metadata :=
  let code := match lookup_kind errorTypesToGrpcStatuses (errorType error) with
              | Some c => c
              | None => GrpcErrorCode_Unknown
              end in
  let status := (grpcHeaders_status, number_toString code) in
  match message error with
  | Some ((_ :: _) as m) =>
      match encodeHeaderValue m with
      | Some em => Some [status; (grpcHeaders_message, em)]
      | None => None
      end
  | _ => Some [status]
  end.

(** [getGrpcWebErrorFromError]: the HTTP status and the error sent to the
    client.  Only [unsafeTransmittedMessage] is transmitted, and only when
    it is a non-empty string. *)
Definition getGrpcWebErrorFromError (err : ServerStream.ServerErr)
  : Z * GrpcWebError :=
  match err with
  | ServerStream.ServerRpcError k unsafe =>
      (serverHttpStatus k,
       mkGrpcWebError k
         (match unsafe with
          | Some s => if String.eqb s "" then None else Some (units s)
          | None => None
          end))
  | _ => (internalServerError, mkGrpcWebError internal None)
  end.

End GrpcWebErrors.

(* ------------------------------------------------------------------ *)
(** ** Counting the events of a retrying stream *)

Module RetrierCounts.
Import Retrier.

(** The retry counter a run of events implies: the number of
    [retryingError] events since the last [ready]. *)
Definition retries_since_ready {M : Type} (l : list (RetryEvent M)) : nat :=
  fold_left (fun n ev => match ev with
                         | EReady => 0%nat
                         | ERetryingError _ _ _ => S n
                         | _ => n
                         end) l 0%nat.


End RetrierCounts.

(* ------------------------------------------------------------------ *)
(** ** Sample inputs *)

(** Backoff options with no cap ([maxBackoffMs = 0]). *)
Definition backoff_no_cap : Backoff.BackoffOptions := {|
  Backoff.exponentialBackoffBase := 2;
  Backoff.constantBackoffMs := 500;
  Backoff.maxBackoffMs := 0;
  Backoff.maxRetries := -1;
  Backoff.statusCodesToIgnore := []
|}.


(** A message encoder for numbers. *)
Definition json_like_encode (_ : string) (n : Z) : option (list Z) := Some [n].

(** A gRPC-Web call that completes: ready, one message, success trailers. *)
Definition c1_trace : list (GrpcWebClient.Input Z unit) :=
  [GrpcWebClient.IStart true; GrpcWebClient.IRequestContext true;
   GrpcWebClient.IHeaders (Some tt) None 200;
   GrpcWebClient.IChunk [GrpcWebClient.CMessage (Some 7); GrpcWebClient.CTrailers None];
   GrpcWebClient.IEnd None].

(* ================================================================== *)
(** * Properties *)

Example encodeFrame_small :
  Frame.encodeFrame 128 [7; 8] = Some [128; 0; 0; 0; 2; 7; 8].
Proof. reflexivity. Qed.

Example getBackoffMs_default :
  map (Backoff.getBackoffMs Backoff.DEFAULT_BACKOFF_OPTIONS) [0; 1; 2; 3]%nat
  = [500; 1000; 2000; 3000].
Proof. reflexivity. Qed.

Example inbound_400_500 :
  HttpStatusTables.guessErrorTypeFromHttpStatus 400 = failedPrecondition /\
  HttpStatusTables.guessErrorTypeFromHttpStatus 500 = internal.
Proof. split; reflexivity. Qed.

(* ------------------------------------------------------------------ *)
(** ** Status tables *)

(** C6: the server's kind-to-HTTP-status table is the documented table of
    section 6 (unknown, canceled, internal to 500; invalidArgument and
    failedPrecondition to 400; notFound 404; alreadyExists 409;
    resourceExhausted 429; permissionDenied 403; unimplemented 501;
    unavailable 503; unauthenticated 401), and every HTTP status absent from
    the inbound table decodes to the unknown kind. *)
Theorem server_status_table_documented :
  (forall k, HttpStatusTables.serverHttpStatus k
             = HttpStatusTables.documented_http_status k) /\
  (forall s, HttpStatusTables.obj_get
               HttpStatusTables.httpStatusesToErrorTypes s = None ->
             HttpStatusTables.guessErrorTypeFromHttpStatus s = unknown).
Proof.
  split.
  - intros []; reflexivity.
  - intros s Hnone. unfold HttpStatusTables.guessErrorTypeFromHttpStatus.
    rewrite Hnone. reflexivity.
Qed.

(** C10: the inbound table is built from the forward table with later
    entries overwriting earlier ones with the same status: in the built map
    400 is failedPrecondition and 500 is internal, and on the client HTTP
    400 decodes to failedPrecondition and HTTP 500 to internal. *)
Theorem inbound_table_later_entries_win :
  HttpStatusTables.obj_get
    (HttpStatusTables.fromPairs HttpStatusTables.swapped_pairs) 400
    = Some failedPrecondition /\
  HttpStatusTables.obj_get
    (HttpStatusTables.fromPairs HttpStatusTables.swapped_pairs) 500
    = Some internal /\
  HttpStatusTables.guessErrorTypeFromHttpStatus 400 = failedPrecondition /\
  HttpStatusTables.guessErrorTypeFromHttpStatus 500 = internal.
Proof. repeat split; vm_compute; reflexivity. Qed.

(* ------------------------------------------------------------------ *)
(** ** Backoff *)

(** C8 (counterexample): with [maxBackoffMs = 0] the backoff after zero
    retries is 500 ms, not [min(0, 500 * 2^0) = 0]. *)
Lemma getBackoffMs_max_zero_not_min :
  Backoff.getBackoffMs backoff_no_cap 0 = 500 /\
  Backoff.getBackoffMs backoff_no_cap 0
    <> Z.min (Backoff.maxBackoffMs backoff_no_cap)
         (Backoff.constantBackoffMs backoff_no_cap
          * Backoff.exponentialBackoffBase backoff_no_cap ^ 0).
Proof. split; [reflexivity | vm_compute; discriminate]. Qed.

(** C8 (amended): when [maxBackoffMs > 0] the backoff is
    [min(maxBackoffMs, constantBackoffMs * base^n)]; when
    [maxBackoffMs <= 0] there is no cap and it is
    [constantBackoffMs * base^n]. *)
Theorem getBackoffMs_capped_when_positive :
  forall (o : Backoff.BackoffOptions) (n : nat),
    Backoff.getBackoffMs o n =
    if 0 <? Backoff.maxBackoffMs o
    then Z.min (Backoff.maxBackoffMs o)
           (Backoff.constantBackoffMs o
            * Backoff.exponentialBackoffBase o ^ Z.of_nat n)
    else Backoff.constantBackoffMs o
         * Backoff.exponentialBackoffBase o ^ Z.of_nat n.
Proof.
  intros o n. unfold Backoff.getBackoffMs.
  set (b := Backoff.exponentialBackoffBase o ^ Z.of_nat n).
  set (c := Backoff.constantBackoffMs o).
  set (m := Backoff.maxBackoffMs o).
  rewrite (Z.mul_comm b c).
  destruct (0 <? m) eqn:Hpos; simpl.
  - destruct (m <? c * b) eqn:Hlt.
    + apply Z.ltb_lt in Hlt. rewrite Z.min_l by lia. reflexivity.
    + apply Z.ltb_ge in Hlt. rewrite Z.min_r by lia. reflexivity.
  - reflexivity.
Qed.

(* ------------------------------------------------------------------ *)
(** ** Frames *)

Module FrameFacts.
Import Frame.

Lemma list_set_middle (pre rest : list Z) (x v : Z) :
  list_set (pre ++ x :: rest) (length pre) v = pre ++ v :: rest.
Proof.
  induction pre as [|y pre IH]; simpl; [reflexivity | now rewrite IH].
Qed.

Lemma writeUInt8_middle (pre rest : list Z) (x v : Z) :
  is_byte v ->
  writeUInt8 (pre ++ x :: rest) v (length pre) = Some (pre ++ v :: rest).
Proof.
  intros [H0 H1]. unfold writeUInt8.
  assert (Hl : Nat.ltb (length pre) (length (pre ++ x :: rest)) = true).
  { apply Nat.ltb_lt. rewrite length_app. simpl. lia. }
  rewrite Hl. apply Z.leb_le in H0. apply Z.leb_le in H1.
  rewrite H0, H1. simpl. now rewrite list_set_middle.
Qed.

Lemma write_payload_copies (ps : list Z) :
  Forall is_byte ps ->
  forall pre zs, length zs = length ps ->
  write_payload (pre ++ zs) ps (length pre) = Some (pre ++ ps).
Proof.
  induction 1 as [|p ps Hp Hps IH]; intros pre zs Hlen.
  - destruct zs; [now rewrite app_nil_r | discriminate].
  - destruct zs as [|z zs]; [discriminate|]. simpl in Hlen.
    simpl. rewrite writeUInt8_middle by exact Hp.
    replace (pre ++ p :: zs) with ((pre ++ [p]) ++ zs)
      by now rewrite <- app_assoc.
    replace (S (length pre)) with (length (pre ++ [p]))
      by (rewrite length_app; simpl; lia).
    rewrite IH by lia. now rewrite <- app_assoc.
Qed.

End FrameFacts.

(** C9: for a flag byte [f] and a payload [p] of bytes shorter than 2^32,
    [encodeFrame f p] returns [f], then the four bytes of [|p|] big-endian,
    then [p]: 5 + |p| bytes in all. *)
Theorem encodeFrame_layout :
  forall (f : Z) (p : list Z),
    Frame.is_byte f -> Forall Frame.is_byte p ->
    Z.of_nat (length p) < 2 ^ 32 ->
    exists b0 b1 b2 b3,
      Frame.encodeFrame f p = Some (f :: b0 :: b1 :: b2 :: b3 :: p) /\
      Forall Frame.is_byte [b0; b1; b2; b3] /\
      b0 * 2 ^ 24 + b1 * 2 ^ 16 + b2 * 2 ^ 8 + b3 = Z.of_nat (length p).
Proof.
  intros f p Hf Hp Hlen.
  set (n := Z.of_nat (length p)).
  exists (Z.land (Z.shiftr n 24) 255), (Z.land (Z.shiftr n 16) 255),
         (Z.land (Z.shiftr n 8) 255), (Z.land n 255).
  assert (Hn : 0 <= n) by lia.
  change 255 with (Z.ones 8).
  rewrite !Z.land_ones, !Z.shiftr_div_pow2 by lia.
  change (2 ^ 32) with 4294967296 in Hlen.
  change (2 ^ 24) with 16777216 in *. change (2 ^ 16) with 65536 in *.
  change (2 ^ 8) with 256 in *.
  split; [|split].
  - unfold Frame.encodeFrame, Frame.HEADER_SIZE. cbn [Nat.add repeat].
    change (0 :: 0 :: 0 :: 0 :: 0 :: repeat 0 (length p))
      with ([] ++ 0 :: (0 :: 0 :: 0 :: 0 :: repeat 0 (length p))).
    change 0%nat with (length (@nil Z)) at 2.
    rewrite (FrameFacts.writeUInt8_middle [] _ 0 f Hf). simpl app.
    unfold Frame.writeUInt32BE.
    assert (Hb : (0 <=? n) && (n <=? 4294967295)
                 && Nat.leb (1 + 4) (length (f :: 0 :: 0 :: 0 :: 0 :: repeat 0 (length p)))
                 = true).
    { apply andb_true_intro; split; [apply andb_true_intro; split|].
      - now apply Z.leb_le. - apply Z.leb_le; lia.
      - apply Nat.leb_le. simpl. lia. }
    fold n. change (S (length (@nil Z))) with 1%nat. rewrite Hb. cbn [Frame.list_set Nat.add].
    change 255 with (Z.ones 8).
    rewrite !Z.land_ones, !Z.shiftr_div_pow2 by lia.
    change (2 ^ 24) with 16777216. change (2 ^ 16) with 65536.
    change (2 ^ 8) with 256. change (Z.ones 8) with 256.
    pose proof (FrameFacts.write_payload_copies p Hp
      [f; n / 16777216 mod 256; n / 65536 mod 256; n / 256 mod 256; n mod 256]
      (repeat 0 (length p)) (repeat_length _ _)) as Hw.
    exact Hw.
  - change (Z.ones 8) with 256.
    apply Forall_forall. intros x Hx. unfold Frame.is_byte.
    simpl in Hx. intuition subst;
      match goal with |- context [?a mod 256] =>
        pose proof (Z.mod_pos_bound a 256 ltac:(lia)); lia end.
  - change (Z.ones 8) with 256.
    pose proof (Z.div_mod n 256 ltac:(lia)) as E0.
    pose proof (Z.div_mod (n / 256) 256 ltac:(lia)) as E1.
    pose proof (Z.div_mod (n / 65536) 256 ltac:(lia)) as E2.
    rewrite Z.div_div in E1 by lia. rewrite Z.div_div in E2 by lia.
    change (256 * 256) with 65536 in E1.
    change (65536 * 256) with 16777216 in E2.
    assert (Hs : n / 16777216 < 256)
      by (apply Z.div_lt_upper_bound; lia).
    rewrite (Z.mod_small (n / 16777216)) by (split; [apply Z.div_pos|]; lia).
    lia.
Qed.

Lemma encodeFrame_layout_witness :
  Frame.is_byte 128 /\ Forall Frame.is_byte [1; 2; 3] /\
  Z.of_nat (length [1; 2; 3]) < 2 ^ 32 /\
  exists b0 b1 b2 b3,
    Frame.encodeFrame 128 [1; 2; 3]
      = Some (128 :: b0 :: b1 :: b2 :: b3 :: [1; 2; 3]) /\
    Forall Frame.is_byte [b0; b1; b2; b3] /\
    b0 * 2 ^ 24 + b1 * 2 ^ 16 + b2 * 2 ^ 8 + b3 = Z.of_nat (length [1; 2; 3]).
Proof.
  assert (Hf : Frame.is_byte 128) by (unfold Frame.is_byte; lia).
  assert (Hp : Forall Frame.is_byte [1; 2; 3]).
  { apply Forall_forall. intros x Hx. unfold Frame.is_byte.
    simpl in Hx. intuition subst; lia. }
  assert (Hl : Z.of_nat (length [1; 2; 3]) < 2 ^ 32) by (simpl; lia).
  split; [exact Hf | split; [exact Hp | split; [exact Hl |]]].
  exact (encodeFrame_layout 128 [1; 2; 3] Hf Hp Hl).
Defined.

Example retrier_abandons_after_three :
  let o := {| Backoff.exponentialBackoffBase := 2; Backoff.constantBackoffMs := 500;
              Backoff.maxBackoffMs := 3000; Backoff.maxRetries := 3;
              Backoff.statusCodesToIgnore := [] |} in
  let e := PlainError "__error__" in
  Retrier.emitted (Retrier.start (Message := unit) o (fun _ => [Retrier.UError e]) 10)
  = [Retrier.ERetryingError e 0 false; Retrier.ERetryingError e 1 false;
     Retrier.ERetryingError e 2 false; Retrier.ERetryingError e 3 true;
     Retrier.EError e].
Proof. reflexivity. Qed.

(* ------------------------------------------------------------------ *)
(** ** Retrying stream *)

Module RetrierFacts.
Import Backoff Retrier.

Section Facts.
Variable M : Type.
Variable o : BackoffOptions.

Definition retry_trace (errs : nat -> ClientErr) (k i d : nat)
  : list (RetryEvent M) :=
  map (fun j => ERetryingError (errs j) (Z.of_nat j) (Nat.eqb j k))
    (seq i d).

Lemma attempt_skips_messages (rs : RS M) (ms : list M) rest :
  state rs <> ready ->
  attempt o rs (map UMessage ms ++ rest) = attempt o rs rest.
Proof.
  intros Hs. induction ms as [|m ms IH]; simpl; [reflexivity|].
  destruct (state rs) eqn:E; simpl; try exact IH. congruence.
Qed.

Lemma loop_final (gs : nat -> list (UpstreamEvent M)) fuel (rs : RS M) :
  is_final (state rs) = true -> loop o gs fuel rs = rs.
Proof. destruct fuel; simpl; [reflexivity|]. now intros ->. Qed.

Lemma not_ignored (e : ClientErr) :
  match e with
  | ClientRpcError _ _ => includes_number (statusCodesToIgnore o) (err_status e)
  | _ => false
  end = false.
Proof. destruct e; reflexivity. Qed.

(** The loop from the [i]-th attempt on, when every attempt errors and
    [maxRetries = k]. *)
Lemma loop_all_errors (k : nat) (gs : nat -> list (UpstreamEvent M))
  (errs : nat -> ClientErr) :
  maxRetries o = Z.of_nat k ->
  (forall i, exists ms, gs i = map UMessage ms ++ [UError (errs i)]) ->
  forall d i fuel (rs : RS M),
    (i + d = k)%nat -> (d < fuel)%nat ->
    state rs = started -> retriesSinceLastReady rs = i ->
    factoryCalls rs = i ->
    emitted (loop o gs fuel rs)
      = emitted rs ++ retry_trace errs k i (S d) ++ [EError (errs k)] /\
    factoryCalls (loop o gs fuel rs) = S k.
Proof.
  intros Hmax Hgs d. induction d as [|d IH]; intros i fuel rs Hk Hfuel Hst Hr Hc;
    (destruct fuel as [|fuel]; [lia|]); simpl loop; rewrite Hst; simpl is_final;
    cbv iota;
    destruct (Hgs (factoryCalls rs)) as [ms Hms]; rewrite Hms;
    rewrite attempt_skips_messages by (simpl; discriminate);
    simpl attempt; rewrite not_ignored, Hmax, Hr, Hc.
  - assert (Hcond : (0 <=? Z.of_nat k) && (Z.of_nat k <=? Z.of_nat i) = true).
    { apply andb_true_intro; split; apply Z.leb_le; lia. }
    rewrite Hcond. simpl orb. cbv iota.
    rewrite loop_final by reflexivity. simpl.
    unfold retry_trace. simpl. replace (Nat.eqb i k) with true
      by (symmetry; apply Nat.eqb_eq; lia).
    replace i with k by lia. rewrite <- app_assoc. split; reflexivity.
  - assert (Hcond : (0 <=? Z.of_nat k) && (Z.of_nat k <=? Z.of_nat i) = false).
    { apply andb_false_intro2. apply Z.leb_gt. lia. }
    rewrite Hcond. simpl orb. cbv iota.
    match goal with |- context [loop o gs fuel ?r] =>
      destruct (IH (S i) fuel r) as [He Hf];
      [lia | lia | reflexivity | reflexivity | simpl; try rewrite Hc; reflexivity |] end.
    simpl in He, Hf |- *. rewrite He, Hf. split; [|reflexivity].
    unfold retry_trace. cbn [seq map].
    replace (Nat.eqb i k) with false by (symmetry; apply Nat.eqb_neq; lia).
    rewrite <- !app_assoc. reflexivity.
Qed.

(** With a negative [maxRetries] every error is retried. *)
Lemma loop_unbounded (gs : nat -> list (UpstreamEvent M))
  (errs : nat -> ClientErr) :
  maxRetries o < 0 ->
  (forall i, exists ms, gs i = map UMessage ms ++ [UError (errs i)]) ->
  forall fuel i (rs : RS M),
    state rs = started -> retriesSinceLastReady rs = i ->
    factoryCalls rs = i ->
    emitted (loop o gs fuel rs)
      = emitted rs ++ map (fun j => ERetryingError (errs j) (Z.of_nat j) false)
                        (seq i fuel) /\
    factoryCalls (loop o gs fuel rs) = (i + fuel)%nat /\
    state (loop o gs fuel rs) = started.
Proof.
  intros Hmax Hgs fuel. induction fuel as [|fuel IH]; intros i rs Hst Hr Hc.
  - simpl. rewrite app_nil_r. repeat split; [lia | exact Hst].
  - simpl loop. rewrite Hst. simpl is_final. cbv iota.
    destruct (Hgs (factoryCalls rs)) as [ms Hms]. rewrite Hms.
    rewrite attempt_skips_messages by (simpl; discriminate).
    simpl attempt. rewrite not_ignored, Hr, Hc.
    assert (Hcond : (0 <=? maxRetries o) = false) by (apply Z.leb_gt; lia).
    rewrite Hcond. simpl andb. simpl orb. cbv iota.
    match goal with |- context [loop o gs fuel ?r] =>
      destruct (IH (S i) r) as [He [Hf Hs]];
      [reflexivity | reflexivity | simpl; try rewrite Hc; reflexivity |] end.
    rewrite He, Hf, Hs. simpl. rewrite <- app_assoc.
    repeat split; lia.
Qed.

End Facts.
End RetrierFacts.

(** C5: with [maxRetries = m >= 0], when every attempt errors without
    emitting [ready] (it may emit messages, which are dropped), the retrying
    stream emits [m+1] [retryingError] events carrying 0, 1, ..., m, with
    [abandoned] true exactly on the last, then exactly one [error]; the
    stream factory is called [m+1] times; and an upstream [ready] resets the
    counter to zero. *)
Theorem retrier_abandons_after_max_retries :
  forall (M : Type) (o : Backoff.BackoffOptions) (m : nat)
         (getStream : nat -> list (Retrier.UpstreamEvent M))
         (errs : nat -> ClientErr) (fuel : nat),
    Backoff.maxRetries o = Z.of_nat m ->
    (forall i, exists ms,
        getStream i = map Retrier.UMessage ms ++ [Retrier.UError (errs i)]) ->
    (m < fuel)%nat ->
    Retrier.emitted (Retrier.start o getStream fuel)
      = map (fun j => Retrier.ERetryingError (errs j) (Z.of_nat j) (Nat.eqb j m))
            (seq 0 (S m))
        ++ [Retrier.EError (errs m)] /\
    Retrier.factoryCalls (Retrier.start o getStream fuel) = S m /\
    (forall rs : Retrier.RS M,
        Retrier.retriesSinceLastReady
          (fst (Retrier.on_upstream o rs Retrier.UReady)) = 0%nat).
Proof.
  intros M o m gs errs fuel Hmax Hgs Hfuel.
  destruct (RetrierFacts.loop_all_errors M o m gs errs Hmax Hgs m 0 fuel
              (Retrier.set_state M (Retrier.initialRS M) Retrier.started))
    as [He Hf]; try reflexivity; try lia.
  unfold Retrier.start. split; [exact He | split; [exact Hf |]].
  intros rs. reflexivity.
Qed.

Lemma retrier_abandons_after_max_retries_witness :
  let o := {| Backoff.exponentialBackoffBase := 2; Backoff.constantBackoffMs := 500;
              Backoff.maxBackoffMs := 3000; Backoff.maxRetries := 3;
              Backoff.statusCodesToIgnore := [] |} in
  let errs := fun _ : nat => PlainError "__error__" in
  let gs := fun i : nat => [Retrier.UError (Message := unit) (errs i)] in
  Backoff.maxRetries o = Z.of_nat 3 /\
  (forall i, exists ms, gs i = map Retrier.UMessage ms ++ [Retrier.UError (errs i)]) /\
  (3 < 10)%nat /\
  Retrier.emitted (Retrier.start o gs 10)
    = map (fun j => Retrier.ERetryingError (errs j) (Z.of_nat j) (Nat.eqb j 3))
          (seq 0 4) ++ [Retrier.EError (errs 3%nat)] /\
  Retrier.factoryCalls (Retrier.start o gs 10) = 4%nat /\
  (forall rs : Retrier.RS unit,
      Retrier.retriesSinceLastReady
        (fst (Retrier.on_upstream o rs Retrier.UReady)) = 0%nat).
Proof.
  intros o errs gs.
  assert (Hmax : Backoff.maxRetries o = Z.of_nat 3) by reflexivity.
  assert (Hgs : forall i, exists ms,
             gs i = map Retrier.UMessage ms ++ [Retrier.UError (errs i)])
    by (intros i; exists []; reflexivity).
  assert (Hf : (3 < 10)%nat) by lia.
  split; [exact Hmax | split; [exact Hgs | split; [exact Hf |]]].
  exact (retrier_abandons_after_max_retries unit o 3 gs errs 10 Hmax Hgs Hf).
Defined.


(* ------------------------------------------------------------------ *)
(** ** Unary adapter *)

(** C2 (code bug): when the stream emits [canceled] before any terminal
    event (after at most one message), [Service.call] rejects with a
    [ClientRpcError] whose [errorType] field is the number 0 (and whose
    [msg] is the string 'canceled'), not [RpcErrorType.canceled];
    [streamAsPromise], in the same situation, does store
    [RpcErrorType.canceled] as [errorType]. *)
Theorem service_call_canceled_errorType_is_zero :
  forall (Msg : Type) (method : string) (first : option Msg),
    let events := match first with
                  | Some m => [UnaryCall.SMessage m]
                  | None => []
                  end ++ [UnaryCall.SCanceled] in
    UnaryCall.call method events
      = UnaryCall.Rejected (ClientRpcError (JsNumber 0) (kind_value canceled)) /\
    UnaryCall.rejection_errorType (UnaryCall.call method events)
      <> Some (kind_value canceled) /\
    UnaryCall.rejection_errorType (UnaryCall.streamAsPromise events)
      = Some (kind_value canceled).
Proof.
  intros Msg method [m|]; simpl; repeat split; discriminate.
Qed.

(* ------------------------------------------------------------------ *)
(** ** Server-stream dispatch *)

(** C3 (code bug): when the handler calls [onReady] twice and then
    fulfills, no [HandlerProtocolError] is raised: the call ends with the
    success trailer and no error trailer.  By contrast, calling [onMessage]
    before [onReady], or rejecting, ends with an [internal] error trailer. *)
Theorem onReady_twice_not_detected :
  let run := ServerStream.processServerStream json_like_encode "streamNumbers" in
  run [ServerStream.HOnReady; ServerStream.HOnReady; ServerStream.HFulfill]
    = ServerStream.mkCallSt ServerStream.ready ServerStream.OResolved
        (ServerStream.mkResp (Some 200) [ServerStream.FTrailerOk] true true) [] /\
  ServerStream.has_error_trailer
    (run [ServerStream.HOnReady; ServerStream.HOnReady; ServerStream.HFulfill]) = false /\
  ServerStream.has_error_trailer
    (run [ServerStream.HOnMessage 1; ServerStream.HFulfill]) = true /\
  ServerStream.has_error_trailer
    (run [ServerStream.HOnReady; ServerStream.HReject (ServerStream.OtherServerError "boom")])
    = true.
Proof. repeat split; reflexivity. Qed.

(* ------------------------------------------------------------------ *)
(** ** gRPC-Web client stream: cancellation *)

(** C1 (counterexample): a stream that has completed (ready, one message,
    trailers, end) still emits [canceled] when [cancel()] is called
    afterwards, and so does a stream that has errored. *)
Lemma cancel_after_complete_emits_canceled :
  GrpcWebClient.events (GrpcWebClient.run (fun x : Z => x) c1_trace)
    = [GrpcWebClient.EReady; GrpcWebClient.EMessage 7 (Some tt);
       GrpcWebClient.EComplete] /\
  GrpcWebClient.events
    (GrpcWebClient.run (fun x : Z => x) (c1_trace ++ [GrpcWebClient.ICancel]))
    = [GrpcWebClient.EReady; GrpcWebClient.EMessage 7 (Some tt);
       GrpcWebClient.EComplete; GrpcWebClient.ECanceled] /\
  GrpcWebClient.events
    (GrpcWebClient.run (fun x : Z => x)
       [GrpcWebClient.IStart (Ctx := unit) true; GrpcWebClient.IRequestContext true;
        GrpcWebClient.IEnd (Some (GrpcWebClient.ECONNREFUSED "connect ECONNREFUSED"));
        GrpcWebClient.ICancel])
    = [GrpcWebClient.EError (ClientRpcError (kind_value unavailable)
                                (JsString "connect ECONNREFUSED"));
       GrpcWebClient.ECanceled].
Proof. repeat split; reflexivity. Qed.

(** C1 (amended): [cancel()] is not guarded by the stream state.  After
    any sequence of inputs, a call of [cancel()] sets the state to
    [canceled] and emits one more [canceled] event, also when a terminal
    event has already been emitted; it aborts the transport only when a
    transport exists and the state is [started]. *)
Theorem cancel_always_emits_canceled :
  forall (Payload Response Ctx : Type) (decodeMessage : Payload -> Response)
         (inputs : list (GrpcWebClient.Input Payload Ctx)),
    let g := GrpcWebClient.run decodeMessage inputs in
    let g' := GrpcWebClient.run decodeMessage (inputs ++ [GrpcWebClient.ICancel]) in
    GrpcWebClient.events g' = GrpcWebClient.events g ++ [GrpcWebClient.ECanceled] /\
    GrpcWebClient.state g' = GrpcWebClient.canceled_ /\
    GrpcWebClient.transportCancels g'
      = (GrpcWebClient.transportCancels g
         + (if GrpcWebClient.hasTransport g
               && GrpcWebClient.state_eqb (GrpcWebClient.state g) GrpcWebClient.started
            then 1 else 0))%nat.
Proof.
  intros Payload Response Ctx dec inputs g g'.
  subst g g'. unfold GrpcWebClient.run. rewrite fold_left_app. simpl.
  set (g := fold_left (GrpcWebClient.step dec) inputs (GrpcWebClient.initialGS Payload Response Ctx)).
  unfold GrpcWebClient.cancel.
  destruct (GrpcWebClient.hasTransport g
            && GrpcWebClient.state_eqb (GrpcWebClient.state g) GrpcWebClient.started);
    simpl; repeat split; lia.
Qed.

(* ------------------------------------------------------------------ *)
(** ** JSON codec: root values *)

Example decodeUtf8_multibyte :
  JsonCodec.decodeUtf8 [34; 195; 169; 34] = [34; 233; 34] /\
  JsonCodec.decodeUtf8 [240; 159; 152; 128] = [55357; 56832] /\
  JsonCodec.decodeUtf8 [239; 187; 191; 49] = [49] /\
  JsonCodec.decodeUtf8 [195; 49] = [65533; 49].
Proof. repeat split; reflexivity. Qed.

(** C7 (counterexample): the texts [[1]], [1], [true], ["a"] and [null]
    are decoded without an exception, as an array, a number, a boolean, a
    string and null; an object decodes too, and only a text that is not
    JSON, such as [{] or the empty text, makes decoding throw. *)
Lemma decode_non_object_roots :
  JsonCodec.decodeRequest "Echo" [91; 49; 93]
    = Some (JsonCodec.JArr [JsonCodec.JNum [49]]) /\
  JsonCodec.decodeMessage "Echo" [49] = Some (JsonCodec.JNum [49]) /\
  JsonCodec.decodeRequest "Echo" [116; 114; 117; 101] = Some (JsonCodec.JBool true) /\
  JsonCodec.decodeMessage "Echo" [34; 97; 34] = Some (JsonCodec.JStr [97]) /\
  JsonCodec.decodeRequest "Echo" [110; 117; 108; 108] = Some JsonCodec.JNull /\
  JsonCodec.decodeRequest "Echo" [123; 34; 97; 34; 58; 49; 125]
    = Some (JsonCodec.JObj [([97], JsonCodec.JNum [49])]) /\
  JsonCodec.decodeRequest "Echo" [123] = None /\
  JsonCodec.decodeMessage "Echo" [] = None.
Proof. repeat split; reflexivity. Qed.

(* ------------------------------------------------------------------ *)
(** ** The JSON codec decodes exactly the JSON texts *)

Module JsonGrammarFacts.
Import JsonCodec JsonGrammar JsonNumberStages.

Ltac len_in H := repeat (first [rewrite length_app in H | progress (cbn [length] in H)]).

Ltac app_norm := repeat (first [rewrite <- app_assoc | progress (cbn [app])]).

Lemma is_ws_ws (c : Z) : is_ws c = true <-> (c = 9 \/ c = 10 \/ c = 13 \/ c = 32).
Proof. unfold is_ws. rewrite !orb_true_iff, !Z.eqb_eq. tauto. Qed.

Lemma is_digit_digit (c : Z) : is_digit c = true <-> digit c.
Proof. unfold is_digit, digit. rewrite andb_true_iff, !Z.leb_le. tauto. Qed.

Lemma skip_ws_ws_app (w s : list Z) : ws w -> skip_ws (w ++ s) = skip_ws s.
Proof.
  unfold ws. induction 1 as [|c w Hc _ IH]; [reflexivity|].
  cbn [app skip_ws]. apply is_ws_ws in Hc. rewrite Hc. exact IH.
Qed.

Lemma skip_ws_stop (c : Z) (s : list Z) : is_ws c = false -> skip_ws (c :: s) = c :: s.
Proof. intros H. cbn. rewrite H. reflexivity. Qed.

Lemma skip_ws_split (s : list Z) : exists w, s = w ++ skip_ws s /\ ws w.
Proof.
  induction s as [|c s IH]; [exists []; split; [reflexivity | constructor]|].
  cbn [skip_ws]. destruct (is_ws c) eqn:E.
  - destruct IH as [w [Hw Hws]]. exists (c :: w). split.
    + cbn [app]. f_equal. exact Hw.
    + constructor; [apply is_ws_ws; exact E | exact Hws].
  - exists []. split; [reflexivity | constructor].
Qed.

Lemma skip_ws_head (s : list Z) (c : Z) (r : list Z) : skip_ws s = c :: r -> is_ws c = false.
Proof.
  induction s as [|c' s IH]; cbn [skip_ws]; [discriminate|].
  destruct (is_ws c') eqn:E; [exact IH|]. intros H. injection H as -> ->. exact E.
Qed.

Lemma skip_ws_cons (s : list Z) (c : Z) (r : list Z) :
  skip_ws s = c :: r -> exists w, s = w ++ c :: r /\ ws w.
Proof.
  intros H. destruct (skip_ws_split s) as [w [Hw Hws]]. rewrite H in Hw. eauto.
Qed.

Lemma skip_ws_nil (s : list Z) : skip_ws s = [] -> ws s.
Proof.
  intros H. destruct (skip_ws_split s) as [w [Hw Hws]].
  rewrite H, app_nil_r in Hw. subst. exact Hws.
Qed.

Lemma skip_ws_after_element (r : list Z) : after_element r = true -> skip_ws r = r.
Proof.
  destruct r as [|c r]; [reflexivity|]. cbn [after_element]. intros H.
  apply skip_ws_stop. rewrite !orb_true_iff, !Z.eqb_eq in H.
  destruct H as [[-> | ->] | ->]; reflexivity.
Qed.

Lemma after_value_ws (w r : list Z) :
  ws w -> after_element r = true -> after_value (w ++ r) = true.
Proof.
  intros Hw Hr. destruct Hw as [|c w Hc _]; cbn [app after_value].
  - destruct r as [|c r]; [reflexivity|]. revert Hr. cbn [after_element after_value].
    destruct (is_ws c), (c =? 44), (c =? 93), (c =? 125); cbn; intros H; exact H || reflexivity.
  - apply is_ws_ws in Hc. rewrite Hc. reflexivity.
Qed.

Lemma strip_prefix_some (p s r : list Z) : strip_prefix p s = Some r -> s = p ++ r.
Proof.
  revert s. induction p as [|x p IH]; intros [|y s] H; cbn in H; try discriminate.
  - injection H as <-. reflexivity.
  - injection H as <-. reflexivity.
  - destruct (Z.eqb_spec x y); [subst; cbn [app]; f_equal; apply IH; exact H | discriminate].
Qed.

Lemma strip_prefix_head (x c : Z) (p s : list Z) : x <> c -> strip_prefix (x :: p) (c :: s) = None.
Proof. intros H. cbn [strip_prefix]. rewrite (proj2 (Z.eqb_neq x c) H). reflexivity. Qed.

(** *** Digits and numbers *)

Lemma span_digits_sound (s d r : list Z) :
  span_digits s = (d, r) ->
  s = d ++ r /\ Forall digit d /\ (forall c r', r = c :: r' -> is_digit c = false).
Proof.
  revert d r. induction s as [|c s IH]; intros d r H; cbn [span_digits] in H.
  - injection H as <- <-. split; [reflexivity|]. split; [constructor | intros; discriminate].
  - destruct (is_digit c) eqn:E.
    + destruct (span_digits s) as [d' r'] eqn:E'. injection H as <- <-.
      destruct (IH d' r' eq_refl) as (H1 & H2 & H3).
      split; [cbn [app]; f_equal; exact H1|].
      split; [constructor; [apply is_digit_digit; exact E | exact H2] | exact H3].
    + injection H as <- <-. split; [reflexivity|]. split; [constructor|].
      intros c' r' Hc. injection Hc as <- <-. exact E.
Qed.

Lemma span_digits_app (d r : list Z) :
  Forall digit d -> (forall c r', r = c :: r' -> is_digit c = false) ->
  span_digits (d ++ r) = (d, r).
Proof.
  intros Hd Hr. induction Hd as [|c d Hc Hd IH].
  - destruct r as [|c r']; [reflexivity|]. cbn [app span_digits].
    rewrite (Hr c r' eq_refl). reflexivity.
  - cbn [app span_digits]. apply is_digit_digit in Hc. rewrite Hc, IH. reflexivity.
Qed.

Lemma parse_number_stages (s : list Z) :
  parse_number s =
  let '(sign, s1) := number_sign s in
  match number_int s1 with
  | None => None
  | Some (ip, s2) =>
      match number_frac s2 with
      | None => None
      | Some (fp, s3) =>
          match number_exp s3 with
          | None => None
          | Some (ep, s4) => Some (sign ++ ip ++ fp ++ ep, s4)
          end
      end
  end.
Proof. reflexivity. Qed.

Lemma number_sign_sound (s sg s1 : list Z) :
  number_sign s = (sg, s1) -> s = sg ++ s1 /\ (sg = [] \/ sg = [45]).
Proof.
  unfold number_sign. destruct s as [|c s'].
  - intros H. injection H as <- <-. auto.
  - destruct (Z.eqb_spec c 45); intros H; injection H as <- <-; subst; auto.
Qed.

Lemma number_int_sound (s1 ip s2 : list Z) :
  number_int s1 = Some (ip, s2) -> s1 = ip ++ s2 /\ int_part ip.
Proof.
  unfold number_int. destruct s1 as [|c r]; [discriminate|].
  destruct (Z.eqb_spec c 48).
  - intros H. injection H as <- <-. subst. split; [reflexivity | constructor].
  - destruct ((49 <=? c) && (c <=? 57)) eqn:E; [|discriminate].
    destruct (span_digits r) as [d r'] eqn:Ed. intros H. injection H as <- <-.
    destruct (span_digits_sound _ _ _ Ed) as (H1 & H2 & _). subst r.
    split; [reflexivity|]. apply andb_true_iff in E. rewrite !Z.leb_le in E.
    constructor; [lia | exact H2].
Qed.

Lemma number_frac_sound (s2 fp s3 : list Z) :
  number_frac s2 = Some (fp, s3) -> s2 = fp ++ s3 /\ frac_part fp.
Proof.
  unfold number_frac. destruct s2 as [|c r].
  - intros H. injection H as <- <-. split; [reflexivity | constructor].
  - destruct (Z.eqb_spec c 46).
    + destruct (span_digits r) as [[|x d] r'] eqn:Ed; [discriminate|].
      intros H. injection H as <- <-.
      destruct (span_digits_sound _ _ _ Ed) as (H1 & H2 & _). subst.
      split; [reflexivity|]. constructor. split; [discriminate | exact H2].
    + intros H. injection H as <- <-. split; [reflexivity | constructor].
Qed.

Lemma number_exp_sound (s3 ep s4 : list Z) :
  number_exp s3 = Some (ep, s4) -> s3 = ep ++ s4 /\ exp_part ep.
Proof.
  unfold number_exp. destruct s3 as [|e r].
  - intros H. injection H as <- <-. split; [reflexivity | constructor].
  - destruct ((e =? 101) || (e =? 69)) eqn:Ee.
    + assert (He : e = 101 \/ e = 69) by (rewrite orb_true_iff, !Z.eqb_eq in Ee; exact Ee).
      destruct r as [|c r'].
      * cbv beta iota. cbn [span_digits]. discriminate.
      * destruct ((c =? 43) || (c =? 45)) eqn:Ec; cbv beta iota.
        -- destruct (span_digits r') as [[|x d] r2] eqn:Ed; [discriminate|].
           intros H. injection H as <- <-.
           destruct (span_digits_sound _ _ _ Ed) as (H1 & H2 & _). subst.
           split; [reflexivity|]. apply (exp_some e [c] (x :: d)); [exact He | |split; [discriminate | exact H2]].
           rewrite orb_true_iff, !Z.eqb_eq in Ec. destruct Ec as [-> | ->]; auto.
        -- destruct (span_digits (c :: r')) as [[|x d] r2] eqn:Ed; [discriminate|].
           intros H. injection H as <- <-.
           destruct (span_digits_sound _ _ _ Ed) as (H1 & H2 & _). rewrite H1.
           split; [reflexivity|]. apply (exp_some e [] (x :: d)); [exact He | auto | split; [discriminate | exact H2]].
    + intros H. injection H as <- <-. split; [reflexivity | constructor].
Qed.

Lemma parse_number_sound (s lx r : list Z) :
  parse_number s = Some (lx, r) -> s = lx ++ r /\ number lx.
Proof.
  rewrite parse_number_stages.
  destruct (number_sign s) as [sg s1] eqn:E0. cbv beta iota.
  destruct (number_int s1) as [[ip s2]|] eqn:E1; [|discriminate].
  destruct (number_frac s2) as [[fp s3]|] eqn:E2; [|discriminate].
  destruct (number_exp s3) as [[ep s4]|] eqn:E3; [|discriminate].
  intros H. injection H as <- <-.
  destruct (number_sign_sound _ _ _ E0) as [-> Hsg].
  destruct (number_int_sound _ _ _ E1) as [-> Hi].
  destruct (number_frac_sound _ _ _ E2) as [-> Hf].
  destruct (number_exp_sound _ _ _ E3) as [-> He].
  split; [app_norm; reflexivity | constructor; assumption].
Qed.

Lemma number_int_complete (ip s2 : list Z) :
  int_part ip -> (forall c r, s2 = c :: r -> is_digit c = false) ->
  number_int (ip ++ s2) = Some (ip, s2).
Proof.
  intros Hi Hs. destruct Hi as [|d ds Hd Hds]; [reflexivity|].
  cbn [app]. unfold number_int. rewrite span_digits_app by assumption.
  rewrite (proj2 (Z.eqb_neq d 48)) by lia.
  replace ((49 <=? d) && (d <=? 57)) with true
    by (symmetry; apply andb_true_iff; rewrite !Z.leb_le; lia).
  reflexivity.
Qed.

Lemma number_frac_complete (fp s3 : list Z) :
  frac_part fp -> (fp = [] -> forall r, s3 <> 46 :: r) ->
  (forall c r, s3 = c :: r -> is_digit c = false) ->
  number_frac (fp ++ s3) = Some (fp, s3).
Proof.
  intros Hf H1 H2. destruct Hf as [|ds [Hne Hds]].
  - cbn [app]. destruct s3 as [|c r]; [reflexivity|]. unfold number_frac.
    rewrite (proj2 (Z.eqb_neq c 46)); [reflexivity|].
    intros ->. exact (H1 eq_refl r eq_refl).
  - unfold number_frac. cbn [app]. cbv beta iota.
    rewrite span_digits_app by assumption.
    destruct ds; [congruence | reflexivity].
Qed.

Lemma number_exp_complete (ep s4 : list Z) :
  exp_part ep -> (ep = [] -> forall c r, s4 = c :: r -> c <> 101 /\ c <> 69) ->
  (forall c r, s4 = c :: r -> is_digit c = false) ->
  number_exp (ep ++ s4) = Some (ep, s4).
Proof.
  intros He H1 H2. destruct He as [|e sg ds He Hsg [Hne Hds]].
  - cbn [app]. destruct s4 as [|c r]; [reflexivity|].
    destruct (H1 eq_refl c r eq_refl) as [Hc1 Hc2]. unfold number_exp.
    rewrite (proj2 (Z.eqb_neq c 101) Hc1), (proj2 (Z.eqb_neq c 69) Hc2). reflexivity.
  - unfold number_exp. cbn [app].
    replace ((e =? 101) || (e =? 69)) with true by (destruct He as [-> | ->]; reflexivity).
    destruct ds as [|x ds']; [congruence|].
    assert (Hx : digit x) by (inversion Hds; assumption).
    destruct Hsg as [-> | [-> | ->]]; cbn [app]; cbv beta iota.
    + replace ((x =? 43) || (x =? 45)) with false
        by (unfold digit in Hx; symmetry; rewrite orb_false_iff, !Z.eqb_neq; lia).
      change (x :: ds' ++ s4) with ((x :: ds') ++ s4).
      rewrite span_digits_app by assumption. reflexivity.
    + cbn -[span_digits app]. change (x :: ds' ++ s4) with ((x :: ds') ++ s4).
      rewrite span_digits_app by assumption. reflexivity.
    + cbn -[span_digits app]. change (x :: ds' ++ s4) with ((x :: ds') ++ s4).
      rewrite span_digits_app by assumption. reflexivity.
Qed.

Lemma after_value_head (r : list Z) (c : Z) (r' : list Z) :
  after_value r = true -> r = c :: r' ->
  is_digit c = false /\ c <> 45 /\ c <> 46 /\ c <> 101 /\ c <> 69.
Proof.
  intros H ->. cbn [after_value] in H. rewrite !orb_true_iff, !Z.eqb_eq in H.
  destruct H as [[[Hw | ->] | ->] | ->].
  - apply is_ws_ws in Hw. unfold is_digit.
    destruct Hw as [-> | [-> | [-> | ->]]]; repeat split; discriminate.
  - repeat split; discriminate.
  - repeat split; discriminate.
  - repeat split; discriminate.
Qed.

Lemma parse_number_complete (lx r : list Z) :
  number lx -> after_value r = true -> parse_number (lx ++ r) = Some (lx, r).
Proof.
  intros Hn Hr. destruct Hn as [sg i fr ex Hsg Hi Hf He].
  assert (Hex : forall c r', ex ++ r = c :: r' -> is_digit c = false /\ c <> 46).
  { intros c r' E. destruct He as [|e sg' ds He' _ _].
    - destruct (after_value_head r c r' Hr E) as (? & _ & ? & _). auto.
    - cbn [app] in E. injection E as <- _.
      destruct He' as [-> | ->]; split; (reflexivity || discriminate). }
  assert (Hfr : forall c r', fr ++ ex ++ r = c :: r' -> is_digit c = false).
  { intros c r' E. destruct Hf as [|ds _].
    - exact (proj1 (Hex c r' E)).
    - cbn [app] in E. injection E as <- _. reflexivity. }
  rewrite parse_number_stages.
  replace (number_sign ((sg ++ i ++ fr ++ ex) ++ r)) with (sg, i ++ fr ++ ex ++ r).
  2:{ destruct Hsg as [-> | ->].
      - destruct Hi as [|d ds Hd _]; cbn [app]; unfold number_sign.
        + app_norm. reflexivity.
        + rewrite (proj2 (Z.eqb_neq d 45)) by lia. app_norm. reflexivity.
      - app_norm. reflexivity. }
  cbv beta iota.
  rewrite number_int_complete by assumption.
  rewrite number_frac_complete; [|assumption| |].
  3:{ intros c r' E. exact (proj1 (Hex c r' E)). }
  2:{ intros -> r' E. destruct (Hex 46 r' E) as [_ H]. exact (H eq_refl). }
  rewrite number_exp_complete; [app_norm; reflexivity | assumption | |].
  - intros -> c r' E. destruct (after_value_head r c r' Hr E) as (_ & _ & _ & ? & ?). auto.
  - intros c r' E. exact (proj1 (after_value_head r c r' Hr E)).
Qed.

Lemma number_head (lx : list Z) :
  number lx -> exists c t, lx = c :: t /\ (c = 45 \/ 48 <= c <= 57).
Proof.
  intros [sg i fr ex Hsg Hi _ _]. destruct Hsg as [-> | ->].
  - destruct Hi as [|d ds Hd _]; cbn [app]; eexists; eexists; split; [reflexivity | lia | reflexivity | lia].
  - cbn [app]. eexists; eexists; split; [reflexivity | lia].
Qed.

(** *** Strings *)

Lemma hex_value_digit (h n : Z) : hex_value h = Some n <-> hex_digit h n.
Proof.
  unfold hex_value, hex_digit.
  destruct ((48 <=? h) && (h <=? 57)) eqn:E1;
    [|destruct ((65 <=? h) && (h <=? 70)) eqn:E2;
      [|destruct ((97 <=? h) && (h <=? 102)) eqn:E3]];
    rewrite ?andb_true_iff, ?andb_false_iff, ?Z.leb_le, ?Z.leb_gt in *;
    split; intros H; try discriminate;
    try (injection H as <-); try (destruct H as [[? ?] | [[? ?] | [? ?]]]);
    try (f_equal; lia); try lia.
Qed.

Lemma simple_escape_escapes (e x : Z) : simple_escape e = Some x <-> In (e, x) escapes.
Proof.
  unfold simple_escape. cbn [In escapes].
  repeat match goal with |- context [if ?c =? ?k then _ else _] =>
    destruct (Z.eqb_spec c k) as [->|] end;
  split; intros H;
  repeat match goal with
         | H : Some _ = Some _ |- _ => injection H as <-
         | H : _ \/ _ |- _ => destruct H as [H|H]
         | H : (_, _) = (_, _) |- _ => injection H as ? ?
         | H : False |- _ => destruct H
         end;
  subst; try discriminate; auto 10; try congruence.
Qed.

Lemma escapes_not_u (e x : Z) : In (e, x) escapes -> e <> 117.
Proof.
  cbn [In escapes]. intros H.
  repeat match goal with
         | H : _ \/ _ |- _ => destruct H as [H|H]
         | H : (_, _) = (_, _) |- _ => injection H as <- <-
         | H : False |- _ => destruct H
         end; discriminate.
Qed.

Lemma parse_string_sound (n : nat) : forall (s u r : list Z),
  (length s <= n)%nat -> parse_string s = Some (u, r) ->
  exists t, s = t ++ 34 :: r /\ chars t u.
Proof.
  induction n as [|n IH]; intros [|c s] u r Hl H; cbn [length] in Hl;
    try (cbn in H; discriminate); try lia.
  cbn [parse_string] in H.
  destruct (Z.eqb_spec c 34) as [->|Hc34].
  { injection H as <- <-. exists []. split; [reflexivity | constructor]. }
  destruct (Z.eqb_spec c 92) as [->|Hc92].
  - destruct s as [|e r1]; [discriminate|].
    destruct (Z.eqb_spec e 117) as [->|He].
    + destruct r1 as [|h1 [|h2 [|h3 [|h4 r2]]]]; try discriminate.
      destruct (hex_value h1) as [n1|] eqn:E1; [|discriminate].
      destruct (hex_value h2) as [n2|] eqn:E2; [|discriminate].
      destruct (hex_value h3) as [n3|] eqn:E3; [|discriminate].
      destruct (hex_value h4) as [n4|] eqn:E4; [|discriminate].
      destruct (parse_string r2) as [[u' rest]|] eqn:Er; [|discriminate].
      injection H as <- <-.
      destruct (IH r2 u' rest ltac:(cbn [length] in Hl; lia) Er) as (t & -> & Ht).
      exists (92 :: 117 :: h1 :: h2 :: h3 :: h4 :: t). split; [reflexivity|].
      apply hex_value_digit in E1, E2, E3, E4. constructor; assumption.
    + destruct (simple_escape e) as [x|] eqn:Ex; [|discriminate].
      destruct (parse_string r1) as [[u' rest]|] eqn:Er; [|discriminate].
      injection H as <- <-.
      destruct (IH r1 u' rest ltac:(cbn [length] in Hl; lia) Er) as (t & -> & Ht).
      exists (92 :: e :: t). split; [reflexivity|].
      apply simple_escape_escapes in Ex. constructor; assumption.
  - destruct (Z.ltb_spec c 32); [discriminate|].
    destruct (parse_string s) as [[u' rest]|] eqn:Er; [|discriminate].
    injection H as <- <-.
    destruct (IH s u' rest ltac:(lia) Er) as (t & -> & Ht).
    exists (c :: t). split; [reflexivity|]. constructor; assumption.
Qed.

Lemma parse_string_complete (t u r : list Z) :
  chars t u -> parse_string (t ++ 34 :: r) = Some (u, r).
Proof.
  induction 1 as [|c t u Hc H34 H92 _ IH|e x t u Hx _ IH|h1 h2 h3 h4 n1 n2 n3 n4 t u H1 H2 H3 H4 _ IH].
  - reflexivity.
  - cbn [app parse_string].
    rewrite (proj2 (Z.eqb_neq c 34) H34), (proj2 (Z.eqb_neq c 92) H92).
    destruct (Z.ltb_spec c 32); [lia|]. rewrite IH. reflexivity.
  - cbn [app parse_string].
    rewrite (proj2 (Z.eqb_neq e 117) (escapes_not_u e x Hx)).
    rewrite (proj2 (simple_escape_escapes e x) Hx), IH. reflexivity.
  - cbn [app parse_string].
    apply hex_value_digit in H1, H2, H3, H4. rewrite H1, H2, H3, H4, IH. reflexivity.
Qed.

(** *** The recursive descent *)

Lemma parser_sound (f : nat) :
  (forall s v r, parse_value f s = Some (v, r) ->
     exists w t, s = w ++ t ++ r /\ ws w /\ value t v) /\
  (forall acc s vs r, parse_elements f acc s = Some (vs, r) ->
     exists t vs', s = t ++ 93 :: r /\ elements t vs' /\ vs = acc ++ vs') /\
  (forall acc s ps r, parse_members f acc s = Some (ps, r) ->
     exists t kvs, s = t ++ 125 :: r /\ members t kvs /\ ps = add_members kvs acc).
Proof.
  induction f as [|f (IHV & IHE & IHM)].
  { split; [|split]; intros; discriminate. }
  split; [|split].
  - intros s v r H. cbn [parse_value] in H.
    destruct (skip_ws s) as [|c r0] eqn:Es; [discriminate|].
    destruct (skip_ws_cons _ _ _ Es) as [w [-> Hw]].
    exists w.
    destruct (Z.eqb_spec c 123) as [->|Hc123].
    { destruct (skip_ws r0) as [|d r1] eqn:Er; [discriminate|].
      destruct (Z.eqb_spec d 125) as [->|Hd].
      - injection H as <- <-. destruct (skip_ws_cons _ _ _ Er) as [w' [-> Hw']].
        exists (123 :: w' ++ [125]). split; [app_norm; reflexivity|].
        split; [exact Hw | constructor; exact Hw'].
      - destruct (parse_members f [] r0) as [[ps r2]|] eqn:Em; [|discriminate].
        injection H as <- <-. destruct (IHM _ _ _ _ Em) as (t & kvs & -> & Hm & ->).
        exists (123 :: t ++ [125]). split; [app_norm; reflexivity|].
        split; [exact Hw | exact (value_object t kvs Hm)]. }
    destruct (Z.eqb_spec c 91) as [->|Hc91].
    { destruct (skip_ws r0) as [|d r1] eqn:Er; [discriminate|].
      destruct (Z.eqb_spec d 93) as [->|Hd].
      - injection H as <- <-. destruct (skip_ws_cons _ _ _ Er) as [w' [-> Hw']].
        exists (91 :: w' ++ [93]). split; [app_norm; reflexivity|].
        split; [exact Hw | constructor; exact Hw'].
      - destruct (parse_elements f [] r0) as [[vs r2]|] eqn:Em; [|discriminate].
        injection H as <- <-. destruct (IHE _ _ _ _ Em) as (t & vs' & -> & Hm & ->).
        exists (91 :: t ++ [93]). split; [app_norm; reflexivity|].
        split; [exact Hw | constructor; exact Hm]. }
    destruct (Z.eqb_spec c 34) as [->|Hc34].
    { destruct (parse_string r0) as [[u r1]|] eqn:Er; [|discriminate].
      injection H as <- <-.
      destruct (parse_string_sound (length r0) r0 u r1 (le_n _) Er) as (t & -> & Ht).
      exists (34 :: t ++ [34]). split; [app_norm; reflexivity|].
      split; [exact Hw | constructor; exact Ht]. }
    destruct (strip_prefix [116; 114; 117; 101] (c :: r0)) as [r1|] eqn:Et.
    { injection H as <- <-. apply strip_prefix_some in Et. rewrite Et.
      exists [116; 114; 117; 101]. split; [reflexivity|]. split; [exact Hw | constructor]. }
    destruct (strip_prefix [102; 97; 108; 115; 101] (c :: r0)) as [r1|] eqn:Ef.
    { injection H as <- <-. apply strip_prefix_some in Ef. rewrite Ef.
      exists [102; 97; 108; 115; 101]. split; [reflexivity|]. split; [exact Hw | constructor]. }
    destruct (strip_prefix [110; 117; 108; 108] (c :: r0)) as [r1|] eqn:En.
    { injection H as <- <-. apply strip_prefix_some in En. rewrite En.
      exists [110; 117; 108; 108]. split; [reflexivity|]. split; [exact Hw | constructor]. }
    destruct (parse_number (c :: r0)) as [[lx r1]|] eqn:Enum; [|discriminate].
    injection H as <- <-. apply parse_number_sound in Enum. destruct Enum as [E Hn].
    rewrite E. exists lx. split; [reflexivity|]. split; [exact Hw | constructor; exact Hn].
  - intros acc s vs r H. cbn [parse_elements] in H.
    destruct (parse_value f s) as [[v r1]|] eqn:Ev; [|discriminate].
    destruct (IHV _ _ _ Ev) as (w & t & -> & Hw & Hv).
    destruct (skip_ws r1) as [|d r2] eqn:Er; [discriminate|].
    destruct (skip_ws_cons _ _ _ Er) as [w2 [-> Hw2]].
    destruct (Z.eqb_spec d 44) as [->|Hd44].
    + destruct (IHE _ _ _ _ H) as (t' & vs' & -> & Hes & ->).
      exists ((w ++ t ++ w2) ++ 44 :: t'), (v :: vs').
      split; [app_norm; reflexivity|].
      split; [constructor; [constructor; assumption | exact Hes] | app_norm; reflexivity].
    + destruct (Z.eqb_spec d 93) as [->|Hd93]; [|discriminate].
      injection H as <- <-.
      exists (w ++ t ++ w2), [v]. split; [app_norm; reflexivity|].
      split; [constructor; constructor; assumption | reflexivity].
  - intros acc s ps r H. cbn [parse_members] in H.
    destruct (skip_ws s) as [|d r0] eqn:Es; [discriminate|].
    destruct (skip_ws_cons _ _ _ Es) as [w1 [-> Hw1]].
    destruct (Z.eqb_spec d 34) as [->|Hd]; [|discriminate].
    destruct (parse_string r0) as [[k r1]|] eqn:Ek; [|discriminate].
    destruct (parse_string_sound (length r0) r0 k r1 (le_n _) Ek) as (sk & -> & Hk).
    destruct (skip_ws r1) as [|e r2] eqn:Er1; [discriminate|].
    destruct (skip_ws_cons _ _ _ Er1) as [w2 [-> Hw2]].
    destruct (Z.eqb_spec e 58) as [->|He]; [|discriminate].
    destruct (parse_value f r2) as [[v r3]|] eqn:Ev; [|discriminate].
    destruct (IHV _ _ _ Ev) as (w & t & -> & Hw & Hv).
    destruct (skip_ws r3) as [|g r4] eqn:Er3; [discriminate|].
    destruct (skip_ws_cons _ _ _ Er3) as [w3 [-> Hw3]].
    destruct (Z.eqb_spec g 44) as [->|Hg44].
    + destruct (IHM _ _ _ _ H) as (t' & kvs & -> & Hm & ->).
      exists (w1 ++ 34 :: sk ++ 34 :: w2 ++ 58 :: (w ++ t ++ w3) ++ 44 :: t'), ((k, v) :: kvs).
      split; [app_norm; reflexivity|].
      split; [constructor; [assumption | assumption | assumption | constructor; assumption | exact Hm]
             | reflexivity].
    + destruct (Z.eqb_spec g 125) as [->|Hg125]; [|discriminate].
      injection H as <- <-.
      exists (w1 ++ 34 :: sk ++ 34 :: w2 ++ 58 :: (w ++ t ++ w3)), [(k, v)].
      split; [app_norm; reflexivity|].
      split; [constructor; [assumption | assumption | assumption | constructor; assumption]
             | reflexivity].
Qed.

Scheme element_mut := Induction for element Sort Prop
with value_mut := Induction for value Sort Prop
with elements_mut := Induction for elements Sort Prop
with members_mut := Induction for members Sort Prop.

Combined Scheme grammar_mut from element_mut, value_mut, elements_mut, members_mut.

Lemma value_head (t : list Z) (v : json) :
  value t v -> exists c t', t = c :: t' /\ is_ws c = false /\ c <> 93 /\ c <> 125.
Proof.
  intros H. destruct H; try (eexists; eexists; split; [reflexivity | split; [reflexivity | split; discriminate]]).
  destruct (number_head t H) as (c & t' & -> & Hc). exists c, t'.
  split; [reflexivity|]. split; [|lia].
  destruct (is_ws c) eqn:E; [|reflexivity]. apply is_ws_ws in E. lia.
Qed.

Lemma elements_head (t : list Z) (vs : list json) :
  elements t vs -> exists c t', skip_ws t = c :: t' /\ c <> 93 /\
                   forall r, skip_ws (t ++ r) = c :: t' ++ r.
Proof.
  assert (Hel : forall t v, element t v -> exists c t', skip_ws t = c :: t' /\ c <> 93 /\
                  forall r, skip_ws (t ++ r) = c :: t' ++ r).
  { intros t0 v [w1 t1 v1 w2 Hw1 Hv Hw2].
    destruct (value_head t1 v1 Hv) as (c & t' & -> & Hc & H93 & _).
    exists c, (t' ++ w2). split; [|split; [exact H93|]].
    - rewrite skip_ws_ws_app by exact Hw1. apply skip_ws_stop. exact Hc.
    - intros r. app_norm. rewrite skip_ws_ws_app by exact Hw1.
      rewrite skip_ws_stop by exact Hc. app_norm. reflexivity. }
  intros [t0 v He | t0 v t' vs' He _].
  - exact (Hel t0 v He).
  - destruct (Hel t0 v He) as (c & t1 & H1 & H2 & H3). exists c, (t1 ++ 44 :: t').
    split; [rewrite H3; reflexivity | split; [exact H2|]].
    intros r. app_norm. rewrite H3. app_norm. reflexivity.
Qed.

Lemma members_head (t : list Z) (kvs : list (list Z * json)) :
  members t kvs -> exists w t', t = w ++ 34 :: t' /\ ws w.
Proof.
  intros [w1 s k w2 t0 v Hw1 _ _ _ | w1 s k w2 t0 v t' kvs' Hw1 _ _ _ _]; eauto.
Qed.

Lemma parser_complete :
  (forall t v, element t v -> forall r f, after_element r = true -> (length t <= f)%nat ->
     exists r1, parse_value f (t ++ r) = Some (v, r1) /\ skip_ws r1 = r) /\
  (forall t v, value t v -> forall w r f, ws w -> after_value r = true ->
     (length (w ++ t) <= f)%nat -> parse_value f (w ++ t ++ r) = Some (v, r)) /\
  (forall t vs, elements t vs -> forall acc r f, (length t < f)%nat ->
     parse_elements f acc (t ++ 93 :: r) = Some (acc ++ vs, r)) /\
  (forall t kvs, members t kvs -> forall acc r f, (length t < f)%nat ->
     parse_members f acc (t ++ 125 :: r) = Some (add_members kvs acc, r)).
Proof.
  apply grammar_mut.
  - (* element *)
    intros w1 t v w2 Hw1 Hv IHv Hw2 r f Hr Hl. exists (w2 ++ r). split.
    + app_norm. apply IHv; [exact Hw1 | apply after_value_ws; assumption |].
      repeat rewrite length_app in *. lia.
    + rewrite skip_ws_ws_app by exact Hw2. apply skip_ws_after_element. exact Hr.
  - (* null *)
    intros w r [|f] Hw Hr Hl; [rewrite length_app in Hl; cbn in Hl; lia|].
    cbn [parse_value]. rewrite skip_ws_ws_app by exact Hw. reflexivity.
  - (* true *)
    intros w r [|f] Hw Hr Hl; [rewrite length_app in Hl; cbn in Hl; lia|].
    cbn [parse_value]. rewrite skip_ws_ws_app by exact Hw. reflexivity.
  - (* false *)
    intros w r [|f] Hw Hr Hl; [rewrite length_app in Hl; cbn in Hl; lia|].
    cbn [parse_value]. rewrite skip_ws_ws_app by exact Hw. reflexivity.
  - (* number *)
    intros t Hn w r f Hw Hr Hl.
    destruct (number_head t Hn) as (c & t' & Et & Hc).
    destruct f as [|f]; [subst t; rewrite length_app in Hl; cbn in Hl; lia|].
    cbn [parse_value]. rewrite skip_ws_ws_app by exact Hw.
    rewrite Et. cbn [app]. rewrite skip_ws_stop
      by (destruct (is_ws c) eqn:E; [apply is_ws_ws in E; lia | reflexivity]).
    rewrite (proj2 (Z.eqb_neq c 123)), (proj2 (Z.eqb_neq c 91)), (proj2 (Z.eqb_neq c 34))
      by lia.
    rewrite !strip_prefix_head by lia.
    change (c :: t' ++ r) with ((c :: t') ++ r). rewrite <- Et.
    rewrite parse_number_complete by assumption. reflexivity.
  - (* string *)
    intros t u Hc w r [|f] Hw Hr Hl; [rewrite length_app in Hl; cbn in Hl; lia|].
    cbn [parse_value]. rewrite skip_ws_ws_app by exact Hw. app_norm.
    rewrite skip_ws_stop by reflexivity. cbv beta iota.
    rewrite (parse_string_complete _ _ _ Hc). reflexivity.
  - (* empty array *)
    intros w0 Hw0 w r [|f] Hw Hr Hl; [rewrite length_app in Hl; cbn in Hl; lia|].
    cbn [parse_value]. rewrite skip_ws_ws_app by exact Hw. app_norm.
    rewrite skip_ws_stop by reflexivity. cbv beta iota.
    rewrite skip_ws_ws_app by exact Hw0. reflexivity.
  - (* array *)
    intros t vs He IHe w r [|f] Hw Hr Hl; [rewrite length_app in Hl; cbn in Hl; lia|].
    cbn [parse_value]. rewrite skip_ws_ws_app by exact Hw. app_norm.
    rewrite skip_ws_stop by reflexivity. cbv beta iota.
    destruct (elements_head t vs He) as (c & t' & _ & H93 & Hsk).
    rewrite Hsk. cbv beta iota.
    rewrite IHe by (len_in Hl; lia).
    replace (c =? 93) with false by (symmetry; apply Z.eqb_neq; exact H93).
    reflexivity.
  - (* empty object *)
    intros w0 Hw0 w r [|f] Hw Hr Hl; [rewrite length_app in Hl; cbn in Hl; lia|].
    cbn [parse_value]. rewrite skip_ws_ws_app by exact Hw. app_norm.
    rewrite skip_ws_stop by reflexivity. cbv beta iota.
    rewrite skip_ws_ws_app by exact Hw0. reflexivity.
  - (* object *)
    intros t kvs Hm IHm w r [|f] Hw Hr Hl; [rewrite length_app in Hl; cbn in Hl; lia|].
    cbn [parse_value]. rewrite skip_ws_ws_app by exact Hw. app_norm.
    rewrite skip_ws_stop by reflexivity. cbv beta iota.
    destruct (members_head t kvs Hm) as (w0 & t' & Et & Hw0).
    replace (skip_ws (t ++ 125 :: r)) with (34 :: t' ++ 125 :: r)
      by (rewrite Et; app_norm; rewrite skip_ws_ws_app by exact Hw0; reflexivity).
    cbv beta iota.
    rewrite IHm by (len_in Hl; lia).
    reflexivity.
  - (* one element *)
    intros t v He IHe acc r [|f] Hl; [lia|].
    cbn [parse_elements].
    destruct (IHe (93 :: r) f eq_refl ltac:(lia)) as (r1 & Hp & Hs).
    rewrite Hp. cbv beta iota. rewrite Hs. reflexivity.
  - (* more elements *)
    intros t v t' vs He IHe Hes IHes acc r [|f] Hl; [lia|].
    cbn [parse_elements]. app_norm.
    len_in Hl.
    destruct (IHe (44 :: t' ++ 93 :: r) f eq_refl ltac:(lia)) as (r1 & Hp & Hs).
    rewrite Hp. cbv beta iota. rewrite Hs.
    rewrite IHes by lia. app_norm. reflexivity.
  - (* one member *)
    intros w1 s k w2 t v Hw1 Hs Hw2 He IHe acc r [|f] Hl; [lia|].
    cbn [parse_members]. app_norm.
    len_in Hl.
    rewrite skip_ws_ws_app by exact Hw1. rewrite skip_ws_stop by reflexivity. cbv beta iota.
    rewrite (parse_string_complete _ _ _ Hs). cbv beta iota.
    rewrite skip_ws_ws_app by exact Hw2. rewrite skip_ws_stop by reflexivity. cbv beta iota.
    destruct (IHe (125 :: r) f eq_refl ltac:(lia)) as (r1 & Hp & Hr1).
    rewrite Hp. cbv beta iota. rewrite Hr1. reflexivity.
  - (* more members *)
    intros w1 s k w2 t v t' kvs Hw1 Hs Hw2 He IHe Hm IHm acc r [|f] Hl; [lia|].
    cbn [parse_members]. app_norm.
    len_in Hl.
    rewrite skip_ws_ws_app by exact Hw1. rewrite skip_ws_stop by reflexivity. cbv beta iota.
    rewrite (parse_string_complete _ _ _ Hs). cbv beta iota.
    rewrite skip_ws_ws_app by exact Hw2. rewrite skip_ws_stop by reflexivity. cbv beta iota.
    destruct (IHe (44 :: t' ++ 125 :: r) f eq_refl ltac:(lia)) as (r1 & Hp & Hr1).
    rewrite Hp. cbv beta iota. rewrite Hr1.
    rewrite IHm by lia. reflexivity.
Qed.

Lemma JSON_parse_json_text (t : list Z) (v : json) :
  JSON_parse t = Some v <-> json_text t v.
Proof.
  unfold JSON_parse, json_text. split.
  - destruct (parse_value _ t) as [[v' rest]|] eqn:E; [|discriminate].
    destruct (skip_ws rest) eqn:Er; [|discriminate]. intros H. injection H as <-.
    destruct (proj1 (parser_sound _) _ _ _ E) as (w & t' & -> & Hw & Hv).
    constructor; [exact Hw | exact Hv | apply skip_ws_nil; exact Er].
  - intros H.
    destruct (proj1 parser_complete t v H [] (2 * length t + 2)%nat eq_refl ltac:(lia))
      as (r1 & Hp & Hs).
    rewrite app_nil_r in Hp. rewrite Hp. cbv beta iota. rewrite Hs. reflexivity.
Qed.

End JsonGrammarFacts.

(** C7 (amended): [decodeRequest] and [decodeMessage] do not check the
    root of the value: for any bytes, they return [v] exactly when the
    bytes decode (UTF-8) to a JSON text whose value is [v], whatever the
    kind of [v] (object, array, string, number, boolean or null), and they
    throw exactly when the decoded text is not a JSON text. *)
Theorem decode_accepts_any_json_text (method : string) (bs : list Z) :
  (forall v, JsonCodec.decodeRequest method bs = Some v <->
             JsonGrammar.json_text (JsonCodec.decodeUtf8 bs) v) /\
  (forall v, JsonCodec.decodeMessage method bs = Some v <->
             JsonGrammar.json_text (JsonCodec.decodeUtf8 bs) v) /\
  (JsonCodec.decodeRequest method bs = None <->
     ~ exists v, JsonGrammar.json_text (JsonCodec.decodeUtf8 bs) v) /\
  (JsonCodec.decodeMessage method bs = None <->
     ~ exists v, JsonGrammar.json_text (JsonCodec.decodeUtf8 bs) v).
Proof.
  unfold JsonCodec.decodeRequest, JsonCodec.decodeMessage.
  assert (Hn : JsonCodec.JSON_parse (JsonCodec.decodeUtf8 bs) = None <->
               ~ exists v, JsonGrammar.json_text (JsonCodec.decodeUtf8 bs) v).
  { split.
    - intros H [v Hv]. apply JsonGrammarFacts.JSON_parse_json_text in Hv. congruence.
    - intros H. destruct (JsonCodec.JSON_parse (JsonCodec.decodeUtf8 bs)) as [v|] eqn:E;
        [|reflexivity].
      exfalso. apply H. exists v. apply JsonGrammarFacts.JSON_parse_json_text. exact E. }
  split; [|split; [|split]]; try exact Hn; intros v; apply JsonGrammarFacts.JSON_parse_json_text.
Qed.

(* ------------------------------------------------------------------ *)
(** ** gRPC status metadata *)

Module GrpcFacts.
Import HttpStatusTables GrpcWebErrors.

(** Case on one comparison of the goal, with its meaning as a hypothesis. *)
Ltac zsplit :=
  match goal with
  | |- context [?x <=? ?y] => destruct (Z.leb_spec x y)
  | |- context [?x <? ?y] => destruct (Z.ltb_spec x y)
  | |- context [?x =? ?y] => destruct (Z.eqb_spec x y)
  end.

Ltac zbool := repeat zsplit; cbn [andb orb negb] in *; try lia.

Lemma hex_upper_value (d : Z) :
  0 <= d < 16 -> JsonCodec.hex_value (hex_upper d) = Some d.
Proof.
  intros Hd. unfold hex_upper, JsonCodec.hex_value.
  destruct (Z.ltb_spec d 10); zbool; f_equal; lia.
Qed.

Lemma byte_hex (b : Z) :
  0 <= b < 256 ->
  JsonCodec.hex_value (hex_upper (Z.shiftr b 4)) = Some (b / 16) /\
  JsonCodec.hex_value (hex_upper (Z.land b 15)) = Some (b mod 16).
Proof.
  intros Hb. change 15 with (Z.ones 4).
  rewrite Z.land_ones, Z.shiftr_div_pow2 by lia. change (2 ^ 4) with 16.
  split; apply hex_upper_value.
  - split; [apply Z.div_pos; lia | apply Z.div_lt_upper_bound; lia].
  - apply Z.mod_pos_bound; lia.
Qed.

Lemma hex_join (b : Z) : b / 16 * 16 + b mod 16 = b.
Proof. pose proof (Z.div_mod b 16). lia. Qed.

(** [Z.lor] of a multiple of [2^k] and a number below [2^k] is their sum. *)
Lemma lor_low (x y k : Z) :
  0 <= k -> 0 <= x -> 0 <= y < 2 ^ k -> Z.lor (x * 2 ^ k) y = x * 2 ^ k + y.
Proof.
  intros Hk Hx Hy.
  rewrite <- Z.add_lor_land.
  enough (Z.land (x * 2 ^ k) y = 0) as -> by lia.
  apply Z.bits_inj'. intros i Hi. rewrite Z.land_spec, Z.bits_0.
  destruct (Z.lt_ge_cases i k).
  - rewrite Z.mul_pow2_bits_low by lia. reflexivity.
  - destruct (Z.eq_dec y 0) as [->|Hy0].
    + rewrite Z.testbit_0_l. apply andb_false_r.
    + assert (Z.log2 y < k) by (apply Z.log2_lt_pow2; lia).
      rewrite (Z.bits_above_log2 y i) by lia. apply andb_false_r.
Qed.

(** The decoding of the escapes of one encoded code point. *)
Lemma decode_one_percent_1 (c : Z) (rest : list Z) :
  0 <= c < 128 ->
  decode_one (percent_byte c ++ rest) = Some ([c], rest).
Proof.
  intros Hc. destruct (byte_hex c) as [H1 H2]; [lia|].
  unfold percent_byte. cbn [app decode_one]. rewrite Z.eqb_refl. cbn [negb].
  rewrite H1, H2, hex_join. unfold leading_ones. zbool. reflexivity.
Qed.

Lemma take_escapes_cont (b : Z) (k : nat) (rest : list Z) :
  128 <= b < 192 ->
  take_escapes (S k) (percent_byte b ++ rest)
  = match take_escapes k rest with
    | Some (bs, r) => Some (b :: bs, r)
    | None => None
    end.
Proof.
  intros Hb. destruct (byte_hex b) as [H1 H2]; [lia|].
  unfold percent_byte. cbn [app take_escapes]. rewrite Z.eqb_refl.
  rewrite H1, H2, hex_join.
  rewrite Z.shiftr_div_pow2 by lia. change (2 ^ 6) with 64.
  replace (b / 64) with 2.
  - reflexivity.
  - apply Z.div_unique with (b - 128); lia.
Qed.

Lemma to_utf16_bmp (c : Z) : c < 65536 -> JsonCodec.to_utf16 c = [c].
Proof. intros Hc. unfold JsonCodec.to_utf16. zbool. reflexivity. Qed.

(** Bit operations with constant masks and shifts, as arithmetic. *)
Lemma land_63 (x : Z) : Z.land x 63 = x mod 64.
Proof. exact (Z.land_ones x 6 ltac:(lia)). Qed.
Lemma land_31 (x : Z) : Z.land x 31 = x mod 32.
Proof. exact (Z.land_ones x 5 ltac:(lia)). Qed.
Lemma land_15 (x : Z) : Z.land x 15 = x mod 16.
Proof. exact (Z.land_ones x 4 ltac:(lia)). Qed.
Lemma land_7 (x : Z) : Z.land x 7 = x mod 8.
Proof. exact (Z.land_ones x 3 ltac:(lia)). Qed.
Lemma land_1023 (x : Z) : Z.land x 1023 = x mod 1024.
Proof. exact (Z.land_ones x 10 ltac:(lia)). Qed.
Lemma shr_4 (x : Z) : Z.shiftr x 4 = x / 16.
Proof. exact (Z.shiftr_div_pow2 x 4 ltac:(lia)). Qed.
Lemma shr_6 (x : Z) : Z.shiftr x 6 = x / 64.
Proof. exact (Z.shiftr_div_pow2 x 6 ltac:(lia)). Qed.
Lemma shr_10 (x : Z) : Z.shiftr x 10 = x / 1024.
Proof. exact (Z.shiftr_div_pow2 x 10 ltac:(lia)). Qed.
Lemma shr_12 (x : Z) : Z.shiftr x 12 = x / 4096.
Proof. exact (Z.shiftr_div_pow2 x 12 ltac:(lia)). Qed.
Lemma shr_18 (x : Z) : Z.shiftr x 18 = x / 262144.
Proof. exact (Z.shiftr_div_pow2 x 18 ltac:(lia)). Qed.
Lemma shl_6 (x : Z) : Z.shiftl x 6 = x * 64.
Proof. exact (Z.shiftl_mul_pow2 x 6 ltac:(lia)). Qed.
Lemma shl_12 (x : Z) : Z.shiftl x 12 = x * 4096.
Proof. exact (Z.shiftl_mul_pow2 x 12 ltac:(lia)). Qed.
Lemma shl_18 (x : Z) : Z.shiftl x 18 = x * 262144.
Proof. exact (Z.shiftl_mul_pow2 x 18 ltac:(lia)). Qed.

(** [Z.lor] of a multiple of [2^k] and a number below [2^k] is their sum. *)
Lemma lor_add (x y m k : Z) :
  0 <= k -> m = 2 ^ k -> 0 <= x -> x mod m = 0 -> 0 <= y < m -> Z.lor x y = x + y.
Proof.
  intros Hk -> Hx Hm Hy.
  assert (Hp : 0 < 2 ^ k) by (apply Z.pow_pos_nonneg; lia).
  rewrite (Z.div_mod x (2 ^ k)) by lia. rewrite Hm, Z.add_0_r, Z.mul_comm.
  apply lor_low; try lia. apply Z.div_pos; lia.
Qed.

Ltac dm := first [lia | Z.div_mod_to_equations; lia].

Ltac bits :=
  rewrite ?shr_4, ?shr_6, ?shr_10, ?shr_12, ?shr_18, ?shl_6, ?shl_12, ?shl_18,
          ?land_63, ?land_31, ?land_15, ?land_7, ?land_1023;
  repeat match goal with
  | |- context [Z.lor ?a ?b] =>
      first [ rewrite (lor_add a b 64 6) by (first [reflexivity | dm])
            | rewrite (lor_add a b 16 4) by (first [reflexivity | dm])
            | rewrite (lor_add a b 32 5) by (first [reflexivity | dm])
            | rewrite (lor_add a b 8 3) by (first [reflexivity | dm])
            | rewrite (lor_add a b 4096 12) by (first [reflexivity | dm])
            | rewrite (lor_add a b 262144 18) by (first [reflexivity | dm]) ]
  end.

Ltac zbool' := repeat zsplit; cbn [andb orb negb] in *; try dm.

(** The UTF-8 bytes of a code point, by length. *)
Lemma enc_1 (c : Z) : c < 128 -> utf8_encode_cp c = [c].
Proof. intros Hc. unfold utf8_encode_cp. zbool. reflexivity. Qed.

Lemma enc_2 (c : Z) :
  128 <= c < 2048 -> utf8_encode_cp c = [192 + c / 64; 128 + c mod 64].
Proof. intros Hc. unfold utf8_encode_cp. zbool. bits. reflexivity. Qed.

Lemma enc_3 (c : Z) :
  2048 <= c < 65536 ->
  utf8_encode_cp c = [224 + c / 4096; 128 + c / 64 mod 64; 128 + c mod 64].
Proof. intros Hc. unfold utf8_encode_cp. zbool. bits. reflexivity. Qed.

Lemma enc_4 (c : Z) :
  65536 <= c <= 1114111 ->
  utf8_encode_cp c =
  [240 + c / 262144; 128 + c / 4096 mod 64; 128 + c / 64 mod 64; 128 + c mod 64].
Proof. intros Hc. unfold utf8_encode_cp. zbool. bits. reflexivity. Qed.

(** ... and their decoding. *)
Lemma dec_2 (c : Z) :
  128 <= c < 2048 -> utf8_decode_octets [192 + c / 64; 128 + c mod 64] = Some c.
Proof.
  intros Hc. unfold utf8_decode_octets. cbv beta iota zeta. bits.
  match goal with |- context [Z.leb _ ?E] => replace E with c by dm end.
  zbool. reflexivity.
Qed.

Lemma dec_3 (c : Z) :
  2048 <= c < 65536 -> ~ (55296 <= c <= 57343) ->
  utf8_decode_octets [224 + c / 4096; 128 + c / 64 mod 64; 128 + c mod 64] = Some c.
Proof.
  intros Hc Hs. unfold utf8_decode_octets. cbv beta iota zeta. bits.
  match goal with |- context [Z.leb 2048 ?E] => replace E with c by dm end.
  zbool; reflexivity.
Qed.

Lemma dec_4 (c : Z) :
  65536 <= c <= 1114111 ->
  utf8_decode_octets
    [240 + c / 262144; 128 + c / 4096 mod 64; 128 + c / 64 mod 64; 128 + c mod 64]
  = Some c.
Proof.
  intros Hc. unfold utf8_decode_octets. cbv beta iota zeta. bits.
  match goal with |- context [Z.leb 65536 ?E] => replace E with c by dm end.
  zbool. reflexivity.
Qed.

Lemma take_escapes_conts (bs rest : list Z) :
  Forall (fun b => 128 <= b < 192) bs ->
  take_escapes (length bs) (flat_map percent_byte bs ++ rest) = Some (bs, rest).
Proof.
  induction 1 as [|b bs Hb Hbs IH]; [reflexivity|].
  cbn [length flat_map]. rewrite <- app_assoc, take_escapes_cont, IH by assumption.
  reflexivity.
Qed.

(** The escapes of a leading byte and its continuation bytes decode to the
    code point of the octets. *)
Lemma decode_one_multi (b0 : Z) (bs rest : list Z) (cp : Z) :
  0 <= b0 < 256 -> leading_ones b0 = S (length bs) -> (1 <= length bs <= 3)%nat ->
  Forall (fun b => 128 <= b < 192) bs ->
  utf8_decode_octets (b0 :: bs) = Some cp ->
  decode_one (flat_map percent_byte (b0 :: bs) ++ rest)
  = Some (JsonCodec.to_utf16 cp, rest).
Proof.
  intros Hb Hl Hlen Hbs Hd.
  destruct (byte_hex b0) as [H1 H2]; [lia|].
  cbn [flat_map]. rewrite <- app_assoc. unfold percent_byte at 1.
  cbn [app decode_one]. rewrite Z.eqb_refl. cbn [negb].
  rewrite H1, H2, hex_join, Hl. cbv beta iota.
  replace (Nat.eqb (S (length bs)) 1 || Nat.ltb 4 (S (length bs)))%bool with false
    by (symmetry; apply orb_false_iff; split; [apply Nat.eqb_neq | apply Nat.ltb_ge]; lia).
  replace (S (length bs) - 1)%nat with (length bs) by lia.
  rewrite take_escapes_conts, Hd by assumption. reflexivity.
Qed.

(** The escapes of the UTF-8 bytes of a code point decode to its UTF-16
    code units. *)
Lemma decode_one_cp (c : Z) (rest : list Z) :
  0 <= c <= 1114111 -> ~ (55296 <= c <= 57343) ->
  decode_one (flat_map percent_byte (utf8_encode_cp c) ++ rest)
  = Some (JsonCodec.to_utf16 c, rest).
Proof.
  intros Hc Hs.
  destruct (Z.ltb_spec c 128).
  { rewrite enc_1, to_utf16_bmp by lia. cbn [flat_map]. rewrite app_nil_r.
    apply decode_one_percent_1; lia. }
  destruct (Z.ltb_spec c 2048).
  { rewrite enc_2 by lia. apply decode_one_multi; cbn [length].
    - dm.
    - unfold leading_ones. zbool'; reflexivity.
    - lia.
    - repeat constructor; dm.
    - apply dec_2; lia. }
  destruct (Z.ltb_spec c 65536).
  { rewrite enc_3 by lia. apply decode_one_multi; cbn [length].
    - dm.
    - unfold leading_ones. zbool'; reflexivity.
    - lia.
    - repeat constructor; dm.
    - apply dec_3; lia. }
  rewrite enc_4 by lia. apply decode_one_multi; cbn [length].
  - dm.
  - unfold leading_ones. zbool'; reflexivity.
  - lia.
  - repeat constructor; dm.
  - apply dec_4; lia.
Qed.

(** A surrogate pair is the UTF-16 form of the code point it encodes. *)
Lemma to_utf16_pair (c d : Z) :
  55296 <= c <= 56319 -> 56320 <= d <= 57343 ->
  JsonCodec.to_utf16 ((c - 55296) * 1024 + (d - 56320) + 65536) = [c; d].
Proof.
  intros Hc Hd. unfold JsonCodec.to_utf16. zbool. cbv zeta. bits.
  f_equal; [|f_equal]; dm.
Qed.

Lemma encode_head (c : Z) : exists t, flat_map percent_byte (utf8_encode_cp c) = 37 :: t.
Proof.
  unfold utf8_encode_cp.
  destruct (c <? 128), (c <? 2048), (c <? 65536); eexists; reflexivity.
Qed.

Lemma unreserved_not_percent (c : Z) : uri_unreserved c = true -> c <> 37.
Proof. intros H ->. discriminate H. Qed.

Lemma decode_aux_step (f : nat) (s u r : list Z) :
  s <> [] -> decode_one s = Some (u, r) ->
  decode_aux (S f) s = match decode_aux f r with Some d => Some (u ++ d) | None => None end.
Proof. intros Hs Hd. destruct s; [congruence|]. cbn [decode_aux]. rewrite Hd. reflexivity. Qed.

Lemma decode_aux_encode (n : nat) : forall (s e : list Z) (f : nat),
  (length s <= n)%nat -> Forall (fun c => 0 <= c < 65536) s ->
  encodeURIComponent s = Some e -> (length e <= f)%nat -> decode_aux f e = Some s.
Proof.
  induction n as [|n IH]; intros s e f Hn Hs He Hf.
  { destruct s; [|cbn in Hn; lia]. cbn in He. injection He as <-. destruct f; reflexivity. }
  destruct s as [|c r].
  { cbn in He. injection He as <-. destruct f; reflexivity. }
  inversion Hs as [|? ? Hc Hr]; subst. cbn [length] in Hn.
  cbn [encodeURIComponent] in He.
  destruct (uri_unreserved c) eqn:Hu.
  { destruct (encodeURIComponent r) as [e0|] eqn:E0; [|discriminate].
    injection He as <-. destruct f as [|f]; [cbn in Hf; lia|].
    rewrite (decode_aux_step f (c :: e0) [c] e0).
    - rewrite (IH r e0 f) by (cbn in Hf; lia || assumption). reflexivity.
    - discriminate.
    - cbn [decode_one]. apply unreserved_not_percent, Z.eqb_neq in Hu.
      rewrite Hu. reflexivity. }
  destruct (is_high_surrogate c) eqn:Hh.
  { destruct r as [|d r']; [discriminate|].
    destruct (is_low_surrogate d) eqn:Hl; [|discriminate].
    destruct (encodeURIComponent r') as [e0|] eqn:E0; [|discriminate].
    injection He as <-.
    inversion Hr as [|? ? Hd Hr']; subst. cbn [length] in Hn.
    unfold is_high_surrogate, is_low_surrogate in *.
    apply andb_true_iff in Hh, Hl. destruct Hh as [Hh1 Hh2], Hl as [Hl1 Hl2].
    apply Z.leb_le in Hh1, Hh2, Hl1, Hl2.
    set (cp := (c - 55296) * 1024 + (d - 56320) + 65536) in *.
    destruct (encode_head cp) as [t Ht].
    destruct f as [|f]; [rewrite length_app, Ht in Hf; cbn in Hf; lia|].
    rewrite (decode_aux_step f _ [c; d] e0).
    - rewrite (IH r' e0 f); [reflexivity|lia|assumption|assumption|].
      rewrite length_app, Ht in Hf. cbn in Hf. lia.
    - rewrite Ht. discriminate.
    - rewrite decode_one_cp by (unfold cp; lia). unfold cp. rewrite to_utf16_pair by lia.
      reflexivity. }
  destruct (is_low_surrogate c) eqn:Hl; [discriminate|].
  destruct (encodeURIComponent r) as [e0|] eqn:E0; [|discriminate].
  injection He as <-.
  assert (Hns : ~ (55296 <= c <= 57343)).
  { unfold is_high_surrogate, is_low_surrogate in Hh, Hl.
    apply andb_false_iff in Hh, Hl.
    destruct Hh as [Hh|Hh], Hl as [Hl|Hl]; apply Z.leb_gt in Hh, Hl; lia. }
  destruct (encode_head c) as [t Ht].
  destruct f as [|f]; [rewrite length_app, Ht in Hf; cbn in Hf; lia|].
  rewrite (decode_aux_step f _ [c] e0).
  - rewrite (IH r e0 f); [reflexivity|lia|assumption|assumption|].
    rewrite length_app, Ht in Hf. cbn in Hf. lia.
  - rewrite Ht. discriminate.
  - rewrite decode_one_cp, to_utf16_bmp by lia. reflexivity.
Qed.


(** Every UTF-8 byte of a code point is a byte. *)
Lemma utf8_bytes (c : Z) :
  0 <= c <= 1114111 -> Forall (fun b => 0 <= b < 256) (utf8_encode_cp c).
Proof.
  intros Hc.
  destruct (Z.ltb_spec c 128); [rewrite enc_1 by lia; repeat constructor; lia|].
  destruct (Z.ltb_spec c 2048); [rewrite enc_2 by lia; repeat constructor; dm|].
  destruct (Z.ltb_spec c 65536); [rewrite enc_3 by lia; repeat constructor; dm|].
  rewrite enc_4 by lia; repeat constructor; dm.
Qed.

Lemma unreserved_digit (u : Z) : 48 <= u <= 57 -> uri_unreserved u = true.
Proof.
  intros Hu. unfold uri_unreserved.
  rewrite (proj2 (Z.leb_le 48 u)), (proj2 (Z.leb_le u 57)) by lia.
  rewrite orb_true_r. reflexivity.
Qed.

Lemma unreserved_ascii (u : Z) : uri_unreserved u = true -> 33 <= u <= 126.
Proof.
  unfold uri_unreserved. intros H.
  repeat rewrite orb_true_iff in H. repeat rewrite andb_true_iff in H.
  repeat rewrite Z.leb_le in H. repeat rewrite Z.eqb_eq in H. lia.
Qed.

Lemma hex_upper_unit (d : Z) : 0 <= d < 16 -> (let u := hex_upper d in uri_unreserved u = true \/ u = 37 \/ 65 <= u <= 70).
Proof.
  intros Hd. cbv zeta. unfold hex_upper.
  destruct (Z.ltb_spec d 10); [left; apply unreserved_digit; lia | right; right; lia].
Qed.

Lemma escapes_units (bs : list Z) :
  Forall (fun b => 0 <= b < 256) bs -> Forall (fun u => uri_unreserved u = true \/ u = 37 \/ 65 <= u <= 70) (flat_map percent_byte bs).
Proof.
  induction 1 as [|b bs Hb _ IH]; [constructor|].
  cbn [flat_map]. apply Forall_app. split; [|exact IH].
  unfold percent_byte. rewrite shr_4, land_15.
  constructor; [right; left; reflexivity|].
  constructor; [apply hex_upper_unit; dm|].
  constructor; [apply hex_upper_unit; dm|constructor].
Qed.

Lemma encode_units (n : nat) : forall (s e : list Z),
  (length s <= n)%nat -> Forall (fun c => 0 <= c < 65536) s ->
  encodeURIComponent s = Some e -> Forall (fun u => uri_unreserved u = true \/ u = 37 \/ 65 <= u <= 70) e.
Proof.
  induction n as [|n IH]; intros s e Hn Hs He.
  { destruct s; [|cbn in Hn; lia]. cbn in He. injection He as <-. constructor. }
  destruct s as [|c r].
  { cbn in He. injection He as <-. constructor. }
  inversion Hs as [|? ? Hc Hr]; subst. cbn [length] in Hn.
  cbn [encodeURIComponent] in He.
  destruct (uri_unreserved c) eqn:Hu.
  { destruct (encodeURIComponent r) as [e0|] eqn:E0; [|discriminate].
    injection He as <-. constructor; [left; exact Hu|]. apply (IH r); auto; lia. }
  destruct (is_high_surrogate c) eqn:Hh.
  { destruct r as [|d r']; [discriminate|].
    destruct (is_low_surrogate d) eqn:Hl; [|discriminate].
    destruct (encodeURIComponent r') as [e0|] eqn:E0; [|discriminate].
    injection He as <-.
    inversion Hr as [|? ? Hd Hr']; subst. cbn [length] in Hn.
    unfold is_high_surrogate, is_low_surrogate in *.
    apply andb_true_iff in Hh, Hl. destruct Hh as [Hh1 Hh2], Hl as [Hl1 Hl2].
    apply Z.leb_le in Hh1, Hh2, Hl1, Hl2.
    apply Forall_app. split; [apply escapes_units, utf8_bytes; lia|].
    apply (IH r'); auto; lia. }
  destruct (is_low_surrogate c) eqn:Hl; [discriminate|].
  destruct (encodeURIComponent r) as [e0|] eqn:E0; [|discriminate].
  injection He as <-.
  apply Forall_app. split; [apply escapes_units, utf8_bytes; lia|].
  apply (IH r); auto; lia.
Qed.

Lemma encode_no_surrogates (s : list Z) :
  Forall (fun c => ~ (55296 <= c <= 57343)) s -> exists e, encodeURIComponent s = Some e.
Proof.
  induction 1 as [|c r Hc _ [e0 IH]]; [exists []; reflexivity|].
  cbn [encodeURIComponent]. rewrite IH.
  destruct (uri_unreserved c); [eexists; reflexivity|].
  unfold is_high_surrogate, is_low_surrogate.
  destruct (Z.leb_spec 55296 c), (Z.leb_spec c 56319), (Z.leb_spec 56320 c),
    (Z.leb_spec c 57343); cbn [andb]; try lia; eexists; reflexivity.
Qed.

Lemma units_bytes (s : string) : Forall (fun c => 0 <= c < 256) (units s).
Proof.
  induction s as [|a s IH]; constructor; [|exact IH].
  pose proof (Ascii.nat_ascii_bounded a). lia.
Qed.

(** The gRPC status sent for each error kind reads back as that kind. *)
Lemma grpc_code_ok (k : RpcErrorType) :
  let code := match lookup_kind errorTypesToGrpcStatuses k with
              | Some c => c | None => GrpcErrorCode_Unknown end in
  parseInt (number_toString code) = JsInt code /\ (code =? 0) = false /\
  grpcStatus_lookup (JsInt code) = Some k.
Proof. destruct k; repeat split; reflexivity. Qed.

Lemma metadata_round_trip_aux (e : GrpcWebError) (md : Metadata) :
  Forall (fun c => 0 <= c < 65536) (match message e with Some m => m | None => [] end) ->
  getMetadataFromGrpcWebError e = Some md ->
  getGrpcWebErrorFromMetadata md =
  Some (Some (mkGrpcWebError (errorType e)
                (Some (match message e with Some m => m | None => [] end)))).
Proof.
  intros Hm H. destruct e as [k msg]. unfold getMetadataFromGrpcWebError in H.
  cbn [errorType message] in *.
  destruct (grpc_code_ok k) as (Hp & Hz & Hl).
  set (code := match lookup_kind errorTypesToGrpcStatuses k with
               | Some c => c | None => GrpcErrorCode_Unknown end) in *.
  unfold getGrpcWebErrorFromMetadata, getStatusFromMetadata.
  destruct msg as [[|c m]|].
  - injection H as <-.
    replace (md_get [(grpcHeaders_status, number_toString code)] grpcHeaders_status)
      with [number_toString code] by reflexivity.
    rewrite Hp. cbv beta iota. rewrite Hz, Hl. reflexivity.
  - destruct (encodeHeaderValue (c :: m)) as [em|] eqn:E; [|discriminate].
    injection H as <-.
    replace (md_get [(grpcHeaders_status, number_toString code); (grpcHeaders_message, em)]
               grpcHeaders_status) with [number_toString code] by reflexivity.
    replace (md_get [(grpcHeaders_status, number_toString code); (grpcHeaders_message, em)]
               grpcHeaders_message) with [em] by reflexivity.
    rewrite Hp. cbv beta iota. rewrite Hz, Hl. cbn [map_throwing].
    unfold decodeHeaderValue, decodeURIComponent.
    rewrite (decode_aux_encode (length (c :: m)) (c :: m) em) by (auto; lia).
    cbn [join_comma flat_map]. rewrite app_nil_r. reflexivity.
  - injection H as <-.
    replace (md_get [(grpcHeaders_status, number_toString code)] grpcHeaders_status)
      with [number_toString code] by reflexivity.
    rewrite Hp. cbv beta iota. rewrite Hz, Hl. reflexivity.
Qed.

Lemma decode_aux_no_percent (s : list Z) :
  ~ In 37 s -> forall f, (length s <= f)%nat -> decode_aux f s = Some s.
Proof.
  induction s as [|c r IH]; intros Hs f Hf; [destruct f; reflexivity|].
  destruct f as [|f]; [cbn in Hf; lia|].
  rewrite (decode_aux_step f (c :: r) [c] r).
  - rewrite IH; [reflexivity | intro; apply Hs; right; assumption | cbn in Hf; lia].
  - discriminate.
  - cbn [decode_one]. destruct (Z.eqb_spec c 37); [subst; exfalso; apply Hs; left; reflexivity|].
    reflexivity.
Qed.

Lemma encode_ends_high (n : nat) : forall (s : list Z) (c : Z),
  (length s <= n)%nat -> 55296 <= c <= 56319 -> encodeURIComponent (s ++ [c]) = None.
Proof.
  assert (Hc0 : forall c, 55296 <= c <= 56319 ->
            uri_unreserved c = false /\ is_high_surrogate c = true /\ is_low_surrogate c = false).
  { intros c Hc. repeat split.
    - destruct (uri_unreserved c) eqn:Hu; [apply unreserved_ascii in Hu; lia | reflexivity].
    - unfold is_high_surrogate. zbool; reflexivity.
    - unfold is_low_surrogate. zbool; reflexivity. }
  induction n as [|n IH]; intros s c Hn Hc.
  - destruct s; [|cbn in Hn; lia]. cbn [app encodeURIComponent].
    destruct (Hc0 c Hc) as (-> & -> & _). reflexivity.
  - destruct s as [|x s'].
    { cbn [app encodeURIComponent]. destruct (Hc0 c Hc) as (-> & -> & _). reflexivity. }
    cbn [length] in Hn. cbn [app encodeURIComponent].
    destruct (uri_unreserved x); [rewrite IH by lia; reflexivity|].
    destruct (is_high_surrogate x).
    + destruct s' as [|d s''].
      * cbn [app]. destruct (Hc0 c Hc) as (_ & _ & ->). reflexivity.
      * cbn [app length] in *. destruct (is_low_surrogate d); [|reflexivity].
        rewrite IH by lia. reflexivity.
    + destruct (is_low_surrogate x); [reflexivity|]. rewrite IH by lia. reflexivity.
Qed.

Lemma grpcStatus_lookup_unmapped (z : Z) :
  ~ In z [0; 1; 2; 3; 5; 6; 7; 8; 9; 12; 13; 14; 16] ->
  grpcStatus_lookup (JsInt z) = None.
Proof.
  intros Hz. cbn [grpcStatus_lookup].
  change grpcStatusesToErrorTypes with
    [(1, canceled); (2, unknown); (3, invalidArgument); (5, notFound);
     (6, alreadyExists); (7, permissionDenied); (8, resourceExhausted);
     (9, failedPrecondition); (12, unimplemented); (13, internal);
     (14, unavailable); (16, unauthenticated)].
  cbn [obj_get].
  repeat match goal with |- context [Z.eqb ?a ?b] => destruct (Z.eqb_spec a b) end;
    try reflexivity; subst; exfalso; apply Hz; cbn; tauto.
Qed.

Lemma getMetadata_some (e : GrpcWebError) :
  Forall (fun c => 0 <= c < 55296) (match message e with Some m => m | None => [] end) ->
  exists md, getMetadataFromGrpcWebError e = Some md.
Proof.
  intros Hm. unfold getMetadataFromGrpcWebError.
  destruct (message e) as [[|c m]|]; [eexists; reflexivity| |eexists; reflexivity].
  destruct (encode_no_surrogates (c :: m)) as [em Hem].
  { eapply Forall_impl; [|exact Hm]. cbn beta. lia. }
  unfold encodeHeaderValue. rewrite Hem. eexists; reflexivity.
Qed.

End GrpcFacts.

(** Whenever [encodeHeaderValue] accepts a string (a sequence of UTF-16 code
    units), [decodeHeaderValue] gives the string back. *)
Theorem header_value_round_trip (s e : list Z) :
  Forall (fun c => 0 <= c < 65536) s ->
  GrpcWebErrors.encodeHeaderValue s = Some e ->
  GrpcWebErrors.decodeHeaderValue e = Some s.
Proof.
  intros Hs He. unfold GrpcWebErrors.decodeHeaderValue, GrpcWebErrors.decodeURIComponent.
  apply (GrpcFacts.decode_aux_encode (length s)); auto.
Qed.

Lemma header_value_round_trip_witness :
  let s := [104; 233; 8364; 55357; 56832] in
  let e := GrpcWebErrors.units "h%C3%A9%E2%82%AC%F0%9F%98%80" in
  GrpcWebErrors.encodeHeaderValue s = Some e /\ GrpcWebErrors.decodeHeaderValue e = Some s.
Proof.
  intros s e. split; [vm_compute; reflexivity|].
  apply header_value_round_trip; [repeat constructor; lia | vm_compute; reflexivity].
Defined.

(** An encoded header value holds only unreserved characters, '%' and
    upper-case hexadecimal digits; in particular never a ',' (the separator
    the client joins repeated values with). *)
Theorem encode_header_value_charset (s e : list Z) :
  Forall (fun c => 0 <= c < 65536) s ->
  GrpcWebErrors.encodeHeaderValue s = Some e ->
  Forall (fun u => GrpcWebErrors.uri_unreserved u = true \/ u = 37 \/ 65 <= u <= 70) e.
Proof.
  intros Hs He. apply (GrpcFacts.encode_units (length s) s); auto.
Qed.

Lemma encode_header_value_charset_witness :
  Forall (fun u => GrpcWebErrors.uri_unreserved u = true \/ u = 37 \/ 65 <= u <= 70)
    (GrpcWebErrors.units "a%2Cb%20%C3%A9").
Proof.
  apply (encode_header_value_charset (GrpcWebErrors.units "a,b " ++ [233])%list);
    [repeat constructor; lia | vm_compute; reflexivity].
Defined.

(** A string that ends in a high surrogate (a truncated surrogate pair)
    always makes [encodeHeaderValue] throw, whatever precedes it. *)
Theorem encode_header_trailing_high_surrogate (s : list Z) (c : Z) :
  55296 <= c <= 56319 -> GrpcWebErrors.encodeHeaderValue (s ++ [c]) = None.
Proof.
  intros Hc. apply (GrpcFacts.encode_ends_high (length s)); auto.
Qed.

Lemma encode_header_trailing_high_surrogate_witness :
  GrpcWebErrors.encodeHeaderValue (GrpcWebErrors.units "ok" ++ [55357]) = None.
Proof. apply encode_header_trailing_high_surrogate. lia. Defined.

(** A header value without '%' decodes to itself. *)
Theorem decode_header_without_percent (s : list Z) :
  ~ In 37 s -> GrpcWebErrors.decodeHeaderValue s = Some s.
Proof.
  intros Hs. apply GrpcFacts.decode_aux_no_percent; auto.
Qed.

Lemma decode_header_without_percent_witness :
  GrpcWebErrors.decodeHeaderValue (GrpcWebErrors.units "a,b") = Some (GrpcWebErrors.units "a,b").
Proof. apply decode_header_without_percent. cbn. lia. Defined.

(** The metadata the server builds from an error reads back on the client
    as the same error kind and message; an absent message reads back as the
    empty string. *)
Theorem grpc_metadata_round_trip (e : GrpcWebErrors.GrpcWebError)
  (md : GrpcWebErrors.Metadata) :
  Forall (fun c => 0 <= c < 65536)
    (match GrpcWebErrors.message e with Some m => m | None => [] end) ->
  GrpcWebErrors.getMetadataFromGrpcWebError e = Some md ->
  GrpcWebErrors.getGrpcWebErrorFromMetadata md =
  Some (Some (GrpcWebErrors.mkGrpcWebError (GrpcWebErrors.errorType e)
                (Some (match GrpcWebErrors.message e with Some m => m | None => [] end)))).
Proof. apply GrpcFacts.metadata_round_trip_aux. Qed.

Lemma grpc_metadata_round_trip_witness :
  let e := GrpcWebErrors.mkGrpcWebError notFound (Some (GrpcWebErrors.units "no user, 100%")) in
  exists md, GrpcWebErrors.getMetadataFromGrpcWebError e = Some md /\
  GrpcWebErrors.getGrpcWebErrorFromMetadata md = Some (Some e).
Proof.
  intros e. eexists. split; [vm_compute; reflexivity|].
  apply (grpc_metadata_round_trip e); [repeat constructor; lia | vm_compute; reflexivity].
Defined.

(** The client reports success ([null]) exactly when there is no
    grpc-status value or the first one parses to 0; any other status,
    unparsable ones included, is reported as an error (or throws on a
    malformed message). *)
Theorem grpc_metadata_success_iff (md : GrpcWebErrors.Metadata) :
  GrpcWebErrors.getGrpcWebErrorFromMetadata md = Some None <->
  match GrpcWebErrors.md_get md GrpcWebErrors.grpcHeaders_status with
  | [] => True
  | v :: _ => GrpcWebErrors.parseInt v = GrpcWebErrors.JsInt 0
  end.
Proof.
  unfold GrpcWebErrors.getGrpcWebErrorFromMetadata, GrpcWebErrors.getStatusFromMetadata.
  destruct (GrpcWebErrors.md_get md GrpcWebErrors.grpcHeaders_status) as [|v vs];
    [tauto|].
  destruct (GrpcWebErrors.parseInt v) as [|z]; cbv beta iota.
  - split; [|discriminate].
    destruct (GrpcWebErrors.map_throwing _ _); discriminate.
  - destruct (Z.eqb_spec z 0) as [->|Hz]; [tauto|].
    split; [destruct (GrpcWebErrors.map_throwing _ _); discriminate|].
    intros H. injection H as H. contradiction.
Qed.

(** A grpc-status the table does not map (not a number, or a number other
    than 0, 1, 2, 3, 5, 6, 7, 8, 9, 12, 13, 14, 16: DeadlineExceeded, Aborted,
    OutOfRange and DataLoss among them) reaches the client as an error of
    kind [unknown]. *)
Theorem grpc_unmapped_status_unknown (md : GrpcWebErrors.Metadata) (v : list Z)
  (rest : list (list Z)) (r : option GrpcWebErrors.GrpcWebError) :
  GrpcWebErrors.md_get md GrpcWebErrors.grpcHeaders_status = v :: rest ->
  (GrpcWebErrors.parseInt v = GrpcWebErrors.JsNaN \/
   exists z, GrpcWebErrors.parseInt v = GrpcWebErrors.JsInt z /\
             ~ In z [0; 1; 2; 3; 5; 6; 7; 8; 9; 12; 13; 14; 16]) ->
  GrpcWebErrors.getGrpcWebErrorFromMetadata md = Some r ->
  exists m, r = Some (GrpcWebErrors.mkGrpcWebError unknown m).
Proof.
  intros Hv Hp Hr.
  unfold GrpcWebErrors.getGrpcWebErrorFromMetadata, GrpcWebErrors.getStatusFromMetadata in Hr.
  rewrite Hv in Hr.
  destruct Hp as [Hp | (z & Hp & Hz)]; rewrite Hp in Hr; cbv beta iota in Hr.
  - destruct (GrpcWebErrors.map_throwing _ _); [|discriminate].
    injection Hr as <-. eexists; reflexivity.
  - assert (Hz0 : (z =? 0) = false) by (apply Z.eqb_neq; intros ->; apply Hz; left; reflexivity).
    rewrite Hz0, GrpcFacts.grpcStatus_lookup_unmapped in Hr by exact Hz.
    destruct (GrpcWebErrors.map_throwing _ _); [|discriminate].
    injection Hr as <-. eexists; reflexivity.
Qed.

Lemma grpc_unmapped_status_unknown_witness :
  GrpcWebErrors.getGrpcWebErrorFromMetadata
    [(GrpcWebErrors.grpcHeaders_status, GrpcWebErrors.units "4")]
  = Some (Some (GrpcWebErrors.mkGrpcWebError unknown (Some []))).
Proof.
  destruct (grpc_unmapped_status_unknown
              [(GrpcWebErrors.grpcHeaders_status, GrpcWebErrors.units "4")]
              (GrpcWebErrors.units "4") []
              (Some (GrpcWebErrors.mkGrpcWebError unknown (Some []))))
    as [m Hm]; [reflexivity | right; exists 4; split; [reflexivity | cbn; lia] | reflexivity |].
  injection Hm as <-. reflexivity.
Defined.

(** What the client reads from the error metadata the server sends for a
    failed call, for handler errors whose [unsafeTransmittedMessage] is made
    of characters U+0000..U+00FF (the strings [ServerErr] carries here): the
    metadata exists, and the client reads back the kind and the
    [unsafeTransmittedMessage] of a [ServerRpcError] (the empty string when
    it has none), and [internal] with an empty message for any other error.
    Messages with other characters are not covered: one with a lone
    surrogate makes [encodeHeaderValue] throw. *)
Theorem server_error_client_view (err : ServerStream.ServerErr) :
  exists md,
    GrpcWebErrors.getMetadataFromGrpcWebError (snd (GrpcWebErrors.getGrpcWebErrorFromError err))
    = Some md /\
    GrpcWebErrors.getGrpcWebErrorFromMetadata md =
    Some (Some (match err with
                | ServerStream.ServerRpcError k unsafe =>
                    GrpcWebErrors.mkGrpcWebError k
                      (Some (match unsafe with
                             | Some s => GrpcWebErrors.units s
                             | None => []
                             end))
                | _ => GrpcWebErrors.mkGrpcWebError internal (Some [])
                end)).
Proof.
  set (e := snd (GrpcWebErrors.getGrpcWebErrorFromError err)).
  assert (Hb : Forall (fun c => 0 <= c < 256)
                 (match GrpcWebErrors.message e with Some m => m | None => [] end)).
  { subst e. destruct err as [k [s|]| | |]; cbn; try constructor.
    destruct (String.eqb s ""); [constructor | apply GrpcFacts.units_bytes]. }
  destruct (GrpcFacts.getMetadata_some e) as [md Hmd].
  { eapply Forall_impl; [|exact Hb]. cbn beta. lia. }
  exists md. split; [exact Hmd|].
  rewrite (GrpcFacts.metadata_round_trip_aux e md);
    [|eapply Forall_impl; [|exact Hb]; cbn beta; lia | exact Hmd].
  subst e. destruct err as [k [s|]| | |]; cbn; try reflexivity.
  destruct (String.eqb_spec s "") as [->|]; reflexivity.
Qed.

(* ------------------------------------------------------------------ *)
(** ** Unary calls, backoff, HTTP statuses and frames *)

Module UnaryFacts.
Import UnaryCall.

Lemma settle_done {A : Type} (p q : PromiseState A) : p <> Pending -> settle p q = p.
Proof. destruct p; [congruence | reflexivity | reflexivity]. Qed.

Lemma fold_call_settled (Msg : Type) (method : string) (evs : list (StreamEvent Msg))
  (cs : CallState Msg) :
  promise _ cs <> Pending ->
  promise _ (fold_left (call_on _ method) evs cs) = promise _ cs.
Proof.
  revert cs. induction evs as [|ev evs IH]; intros cs H; [reflexivity|].
  cbn [fold_left].
  assert (E : promise _ (call_on _ method cs ev) = promise _ cs).
  { destruct ev; cbn [call_on]; destruct (message _ cs); cbn [promise];
      rewrite ?settle_done by exact H; reflexivity. }
  rewrite IH; [exact E | rewrite E; exact H].
Qed.

Lemma fold_stream_messages (Msg : Type) (ms acc : list Msg) :
  fold_left (streamAsPromise_on _) (map SMessage ms) (acc, Pending) = (acc ++ ms, Pending).
Proof.
  revert acc. induction ms as [|m ms IH]; intros acc; [rewrite app_nil_r; reflexivity|].
  cbn [map fold_left streamAsPromise_on]. rewrite IH, <- app_assoc. reflexivity.
Qed.

End UnaryFacts.

Module FrameFacts2.
Import Frame.

Lemma list_set_length (l : list Z) (i : nat) (v : Z) : length (list_set l i v) = length l.
Proof.
  revert i. induction l as [|x l IH]; intros [|i]; cbn; auto.
Qed.

Lemma write_payload_none (p : list Z) : forall (buf : list Z) (off : nat),
  (off + length p <= length buf)%nat ->
  (write_payload buf p off = None <-> Exists (fun b => ~ is_byte b) p).
Proof.
  induction p as [|b p IH]; intros buf off Hl.
  - split; [discriminate | intros H; inversion H].
  - cbn [write_payload length] in *. unfold writeUInt8.
    rewrite (proj2 (Nat.ltb_lt off (length buf))) by lia.
    destruct (Z.leb_spec 0 b), (Z.leb_spec b 255); cbn [andb].
    + rewrite IH by (rewrite list_set_length; lia). split.
      * intros Hx. apply Exists_cons_tl. exact Hx.
      * intros Hx. inversion Hx as [? ? Hb|]; subst; [|assumption].
        exfalso. apply Hb. unfold is_byte. lia.
    + split; [intros _; apply Exists_cons_hd; unfold is_byte; lia | reflexivity].
    + split; [intros _; apply Exists_cons_hd; unfold is_byte; lia | reflexivity].
    + split; [intros _; apply Exists_cons_hd; unfold is_byte; lia | reflexivity].
Qed.

End FrameFacts2.

(** [Service.call] on a stream that sends some messages, then completes:
    it resolves with the message when there is exactly one, and rejects
    with a [ClientProtocolError] when there is none or more than one. *)
Theorem unary_call_complete_outcome (Msg : Type) (method : string) (ms : list Msg) :
  UnaryCall.call method (map UnaryCall.SMessage ms ++ [UnaryCall.SComplete]) =
  match ms with
  | [] => UnaryCall.Rejected (ClientProtocolError method
            "expected unary method, but got no message from server")
  | [m] => UnaryCall.Fulfilled m
  | _ :: _ :: _ => UnaryCall.Rejected (ClientProtocolError method
            "expected unary method, but got more than one message from server")
  end.
Proof.
  unfold UnaryCall.call. destruct ms as [|m1 [|m2 rest]]; [reflexivity | reflexivity |].
  cbn [map app fold_left UnaryCall.call_on UnaryCall.message UnaryCall.promise
       UnaryCall.settle].
  rewrite UnaryFacts.fold_call_settled; [reflexivity | discriminate].
Qed.

(** [streamAsPromise] on messages followed by a terminal event: it
    resolves with all the messages in order on [complete], rejects with
    the error on [error], and with a [canceled] [ClientRpcError] on
    [canceled]. *)
Theorem stream_as_promise_outcome (Msg : Type) (ms : list Msg) (e : ClientErr) :
  UnaryCall.streamAsPromise (map UnaryCall.SMessage ms ++ [UnaryCall.SComplete])
    = UnaryCall.Fulfilled ms /\
  UnaryCall.streamAsPromise (map UnaryCall.SMessage ms ++ [UnaryCall.SError e])
    = UnaryCall.Rejected e /\
  UnaryCall.streamAsPromise (map UnaryCall.SMessage ms ++ [UnaryCall.SCanceled])
    = UnaryCall.Rejected (ClientRpcError (kind_value canceled) JsUndefined).
Proof.
  unfold UnaryCall.streamAsPromise.
  rewrite !fold_left_app, !UnaryFacts.fold_stream_messages. cbn. auto.
Qed.

(** The error kind the client guesses from the HTTP status of a failed
    response is the kind the server failed with, except that [unknown] and
    [canceled] read as [internal] and [invalidArgument] as
    [failedPrecondition]. *)
Theorem http_status_kind_round_trip (k : RpcErrorType) :
  HttpStatusTables.guessErrorTypeFromHttpStatus (HttpStatusTables.serverHttpStatus k) =
  match k with
  | unknown | canceled => internal
  | invalidArgument => failedPrecondition
  | _ => k
  end.
Proof. destruct k; reflexivity. Qed.

(** [encodeFrame] throws exactly when the flag is not a byte, the payload
    is 2^32 bytes or longer, or a payload element is not a byte. *)
Theorem encodeFrame_throws_iff (f : Z) (p : list Z) :
  Frame.encodeFrame f p = None <->
  ~ (0 <= f <= 255) \/ 4294967296 <= Z.of_nat (length p) \/
  Exists (fun b => ~ Frame.is_byte b) p.
Proof.
  unfold Frame.encodeFrame, Frame.writeUInt8.
  rewrite repeat_length.
  rewrite (proj2 (Nat.ltb_lt 0 (Frame.HEADER_SIZE + length p))) by (cbn; lia).
  destruct (Z.leb_spec 0 f), (Z.leb_spec f 255); cbn [andb];
    [| split; [intros _; left; lia | reflexivity] ..].
  unfold Frame.writeUInt32BE. rewrite !FrameFacts2.list_set_length, repeat_length.
  rewrite (proj2 (Nat.leb_le (1 + 4) (Frame.HEADER_SIZE + length p))) by (cbn; lia).
  destruct (Z.leb_spec (Z.of_nat (length p)) 4294967295); cbn [andb];
    rewrite (proj2 (Z.leb_le 0 (Z.of_nat (length p)))) by lia; cbn [andb];
    [| split; [intros _; right; left; lia | reflexivity]].
  rewrite FrameFacts2.write_payload_none
    by (rewrite !FrameFacts2.list_set_length, repeat_length; cbn; lia).
  split; [intros Hx; right; right; exact Hx | intros [Hx|[Hx|Hx]]; [lia | lia | exact Hx]].
Qed.

(* ------------------------------------------------------------------ *)
(** ** Retrying stream: sleeps, ignored options and message gating *)

Module RetrierFacts2.
Import Backoff Retrier.

Section Facts.
Variable M : Type.
Variable o : BackoffOptions.

Lemma attempt_ready_messages (rs : RS M) (ms : list M) rest :
  state rs = ready ->
  attempt o rs (map UMessage ms ++ rest) =
  attempt o (mkRS M (state rs) (retriesSinceLastReady rs)
               (emitted rs ++ map EMessage ms) (sleeps rs) (factoryCalls rs)) rest.
Proof.
  revert rs. induction ms as [|m ms IH]; intros rs Hs; cbn [map app].
  - rewrite app_nil_r. destruct rs; reflexivity.
  - cbn [attempt on_upstream]. rewrite Hs. cbn [state_eqb].
    rewrite IH by exact Hs. unfold emit. cbn. rewrite Hs, <- app_assoc. reflexivity.
Qed.

Lemma retry_cond (n : nat) (e : ClientErr) :
  ((0 <=? maxRetries o) && (maxRetries o <=? Z.of_nat n)
   || match e with
      | ClientRpcError _ _ => includes_number (statusCodesToIgnore o) (err_status e)
      | _ => false
      end)%bool
  = ((0 <=? maxRetries o) && (maxRetries o <=? Z.of_nat n))%bool.
Proof. rewrite RetrierFacts.not_ignored, orb_false_r. reflexivity. Qed.

(** The sleeps of the loop from the [i]-th attempt on, when every attempt
    errors and [maxRetries = k]. *)
Lemma loop_errors_sleeps (k : nat) (gs : nat -> list (UpstreamEvent M))
  (errs : nat -> ClientErr) :
  maxRetries o = Z.of_nat k ->
  (forall i, exists ms, gs i = map UMessage ms ++ [UError (errs i)]) ->
  forall d i fuel (rs : RS M),
    (i + d = k)%nat -> (d < fuel)%nat ->
    state rs = started -> retriesSinceLastReady rs = i ->
    sleeps (loop o gs fuel rs) = sleeps rs ++ map (getBackoffMs o) (seq i d).
Proof.
  intros Hmax Hgs d. induction d as [|d IH]; intros i fuel rs Hk Hfuel Hst Hr;
    (destruct fuel as [|fuel]; [lia|]); cbn [loop]; rewrite Hst; cbn [is_final];
    destruct (Hgs (factoryCalls rs)) as [ms Hms]; rewrite Hms;
    rewrite RetrierFacts.attempt_skips_messages by (cbn; discriminate);
    cbn [attempt on_upstream retriesSinceLastReady]; rewrite retry_cond, Hmax, Hr.
  - rewrite (proj2 (Z.leb_le 0 (Z.of_nat k))), (proj2 (Z.leb_le (Z.of_nat k) (Z.of_nat i)))
      by lia. cbn [andb].
    rewrite RetrierFacts.loop_final by reflexivity. cbn. rewrite app_nil_r. reflexivity.
  - rewrite (proj2 (Z.leb_gt (Z.of_nat k) (Z.of_nat i))) by lia. rewrite andb_false_r.
    rewrite IH with (i := S i); [| lia | lia | reflexivity | reflexivity].
    cbn. rewrite <- app_assoc. reflexivity.
Qed.

Lemma loop_errors_sleeps_unbounded (gs : nat -> list (UpstreamEvent M))
  (errs : nat -> ClientErr) :
  maxRetries o < 0 ->
  (forall i, exists ms, gs i = map UMessage ms ++ [UError (errs i)]) ->
  forall fuel i (rs : RS M),
    state rs = started -> retriesSinceLastReady rs = i ->
    sleeps (loop o gs fuel rs) = sleeps rs ++ map (getBackoffMs o) (seq i fuel).
Proof.
  intros Hmax Hgs fuel. induction fuel as [|fuel IH]; intros i rs Hst Hr.
  - cbn. rewrite app_nil_r. reflexivity.
  - cbn [loop]. rewrite Hst. cbn [is_final].
    destruct (Hgs (factoryCalls rs)) as [ms Hms]. rewrite Hms.
    rewrite RetrierFacts.attempt_skips_messages by (cbn; discriminate).
    cbn [attempt on_upstream retriesSinceLastReady]. rewrite retry_cond, Hr.
    rewrite (proj2 (Z.leb_gt 0 (maxRetries o))) by lia. cbn [andb].
    rewrite IH with (i := S i); [| reflexivity | reflexivity].
    cbn. rewrite <- app_assoc. reflexivity.
Qed.

(** An upstream that always becomes ready, sends messages, then fails. *)
Lemma loop_flapping (ms : nat -> list M) (errs : nat -> ClientErr)
  (gs : nat -> list (UpstreamEvent M)) :
  maxRetries o <> 0 ->
  (forall i, gs i = UReady :: map UMessage (ms i) ++ [UError (errs i)]) ->
  forall fuel (rs : RS M), state rs = started ->
    emitted (loop o gs fuel rs) =
      emitted rs ++ flat_map (fun i => EReady :: map EMessage (ms i)
                                       ++ [ERetryingError (errs i) 0 false])
                             (seq (factoryCalls rs) fuel) /\
    sleeps (loop o gs fuel rs) = sleeps rs ++ repeat (getBackoffMs o 0) fuel /\
    state (loop o gs fuel rs) = started.
Proof.
  intros Hmax Hgs fuel. induction fuel as [|fuel IH]; intros rs Hst.
  - cbn. rewrite !app_nil_r. auto.
  - cbn [loop]. rewrite Hst. cbn [is_final]. rewrite Hgs.
    cbn [attempt on_upstream].
    rewrite attempt_ready_messages by reflexivity.
    cbn [attempt on_upstream retriesSinceLastReady set_retries emit set_state].
    rewrite retry_cond.
    replace ((0 <=? maxRetries o) && (maxRetries o <=? Z.of_nat 0))%bool with false
      by (destruct (Z.leb_spec 0 (maxRetries o)), (Z.leb_spec (maxRetries o) (Z.of_nat 0));
          cbn; lia || reflexivity).
    cbv beta iota.
    match goal with |- context [loop o gs fuel ?r] =>
      destruct (IH r) as (He & Hs & Ht); [reflexivity|] end.
    rewrite He, Hs, Ht. cbn. rewrite <- !app_assoc. auto.
Qed.

(** [on_upstream] never reads [statusCodesToIgnore]. *)
Lemma on_upstream_codes (codes : list Z) (rs : RS M) (ev : UpstreamEvent M) :
  on_upstream o rs ev =
  on_upstream (Build_BackoffOptions (exponentialBackoffBase o) (constantBackoffMs o)
                 (maxBackoffMs o) (maxRetries o) codes) rs ev.
Proof.
  destruct ev; reflexivity.
Qed.

Lemma loop_codes (codes : list Z) (gs : nat -> list (UpstreamEvent M)) :
  forall fuel (rs : RS M),
  loop o gs fuel rs =
  loop (Build_BackoffOptions (exponentialBackoffBase o) (constantBackoffMs o)
          (maxBackoffMs o) (maxRetries o) codes) gs fuel rs.
Proof.
  assert (Ha : forall script (rs : RS M),
    attempt o rs script =
    attempt (Build_BackoffOptions (exponentialBackoffBase o) (constantBackoffMs o)
               (maxBackoffMs o) (maxRetries o) codes) rs script).
  { induction script as [|ev script IH]; intros rs; [reflexivity|].
    cbn [attempt]. rewrite <- on_upstream_codes.
    destruct (on_upstream o rs ev) as [rs' []]; [reflexivity | apply IH]. }
  induction fuel as [|fuel IH]; intros rs; [reflexivity|].
  cbn [loop]. destruct (is_final (state rs)); [reflexivity|].
  rewrite <- Ha. destruct (attempt o _ _) as [rs2 []]; [apply IH | reflexivity].
Qed.

(** Messages flow only while the last control event is [ready]. *)
Definition after_ready (l : list (RetryEvent M)) : Prop :=
  exists l1a l1b, l = l1a ++ EReady :: l1b /\ Forall (fun ev => exists x, ev = EMessage x) l1b.

Definition gated (rs : RS M) : Prop :=
  (forall l1 m l2, emitted rs = l1 ++ EMessage m :: l2 -> after_ready l1) /\
  (state rs = ready -> after_ready (emitted rs)).

Lemma snoc_decomp {A : Type} (l1 l2 old : list A) (x y : A) :
  l1 ++ x :: l2 = old ++ [y] ->
  (l2 = [] /\ x = y /\ l1 = old) \/ (exists l2', l2 = l2' ++ [y] /\ old = l1 ++ x :: l2').
Proof.
  intros H. induction l2 as [|z l2' _] using rev_ind.
  - left. apply app_inj_tail in H. destruct H as [-> ->]. auto.
  - right. replace (l1 ++ x :: l2' ++ [z]) with ((l1 ++ x :: l2') ++ [z]) in H
      by (rewrite <- app_assoc; reflexivity).
    apply app_inj_tail in H. destruct H as [Ho Hz]. subst. exists l2'. auto.
Qed.

Lemma messages_snoc_other (l : list (RetryEvent M)) (y : RetryEvent M) :
  (forall x, y <> EMessage x) ->
  (forall l1 m l2, l = l1 ++ EMessage m :: l2 -> after_ready l1) ->
  forall l1 m l2, l ++ [y] = l1 ++ EMessage m :: l2 -> after_ready l1.
Proof.
  intros Hy Hl l1 m l2 H. symmetry in H. apply snoc_decomp in H.
  destruct H as [(_ & Hx & _) | (l2' & _ & Hold)]; [exfalso; apply (Hy m); auto|].
  exact (Hl l1 m l2' Hold).
Qed.

Lemma gated_emit_other (rs : RS M) (y : RetryEvent M) (s : RetryingStreamState) :
  (forall x, y <> EMessage x) -> s <> ready -> gated rs ->
  gated (emit M (set_state M rs s) y).
Proof.
  intros Hy Hs [H1 H2]. split; [|cbn; intros E; congruence].
  apply messages_snoc_other; [exact Hy | exact H1].
Qed.

Lemma gated_on_upstream (rs : RS M) (ev : UpstreamEvent M) :
  gated rs -> gated (fst (on_upstream o rs ev)).
Proof.
  intros [H1 H2]. destruct ev as [|m| |e|]; cbn [on_upstream fst].
  - split.
    + apply messages_snoc_other; [discriminate | exact H1].
    + intros _. exists (emitted rs), []. split; [reflexivity | constructor].
  - destruct (state rs) eqn:Es; cbn [state_eqb]; try (split; [exact H1 | rewrite Es; exact H2]).
    destruct (H2 eq_refl) as (l1a & l1b & El & Hb). split.
    + intros l1 m' l2 H. cbn in H. symmetry in H. apply snoc_decomp in H.
      destruct H as [(_ & _ & ->) | (l2' & _ & Hold)].
      * exists l1a, l1b. auto.
      * exact (H1 l1 m' l2' Hold).
    + intros _. cbn. exists l1a, (l1b ++ [EMessage m]). split.
      * rewrite El, <- app_assoc. reflexivity.
      * apply Forall_app. split; [exact Hb | repeat constructor; eauto].
  - apply gated_emit_other; [discriminate | discriminate | split; assumption].
  - destruct (_ || _)%bool; cbn [fst].
    + assert (G : gated (emit M (set_state M rs abandoned)
                           (ERetryingError e (Z.of_nat (retriesSinceLastReady rs)) true)))
        by (apply gated_emit_other; [discriminate | discriminate | split; assumption]).
      destruct G as [G1 _]. split; [|cbn; discriminate].
      apply messages_snoc_other; [discriminate | exact G1].
    + assert (G : gated (emit M (set_state M rs started)
                           (ERetryingError e (Z.of_nat (retriesSinceLastReady rs)) false)))
        by (apply gated_emit_other; [discriminate | discriminate | split; assumption]).
      destruct G as [G1 _]. split; [exact G1 | cbn; discriminate].
  - apply gated_emit_other; [discriminate | discriminate | split; assumption].
Qed.

Lemma gated_attempt (script : list (UpstreamEvent M)) : forall (rs : RS M),
  gated rs -> gated (fst (attempt o rs script)).
Proof.
  induction script as [|ev script IH]; intros rs H; [exact H|].
  cbn [attempt]. pose proof (gated_on_upstream rs ev H) as G.
  destruct (on_upstream o rs ev) as [rs' []]; [exact G | apply IH; exact G].
Qed.

Lemma gated_loop (gs : nat -> list (UpstreamEvent M)) :
  forall fuel (rs : RS M), gated rs -> gated (loop o gs fuel rs).
Proof.
  induction fuel as [|fuel IH]; intros rs H; [exact H|].
  cbn [loop]. destruct (is_final (state rs)); [exact H|].
  match goal with |- context [attempt o ?r ?s] =>
    assert (G : gated (fst (attempt o r s)))
      by (apply gated_attempt; destruct H as [H1 H2]; split; assumption) end.
  destruct (attempt o _ _) as [rs2 []]; [apply IH |]; exact G.
Qed.

End Facts.
End RetrierFacts2.

(** When every attempt fails, the retrying stream sleeps
    [getBackoffMs(options, 0)], [getBackoffMs(options, 1)], ... before the
    successive retries: [m] sleeps in all when [maxRetries = m >= 0] (none
    after the abandoning error), one per attempt when [maxRetries < 0]. *)
Theorem retrier_backoff_sleeps (M : Type) (o : Backoff.BackoffOptions)
  (getStream : nat -> list (Retrier.UpstreamEvent M)) (errs : nat -> ClientErr)
  (fuel : nat) :
  (forall i, exists ms,
      getStream i = map Retrier.UMessage ms ++ [Retrier.UError (errs i)]) ->
  (forall m : nat, Backoff.maxRetries o = Z.of_nat m -> (m < fuel)%nat ->
     Retrier.sleeps (Retrier.start o getStream fuel)
     = map (Backoff.getBackoffMs o) (seq 0 m)) /\
  (Backoff.maxRetries o < 0 ->
     Retrier.sleeps (Retrier.start o getStream fuel)
     = map (Backoff.getBackoffMs o) (seq 0 fuel)).
Proof.
  intros Hgs. unfold Retrier.start. split.
  - intros m Hmax Hf.
    rewrite (RetrierFacts2.loop_errors_sleeps M o m getStream errs Hmax Hgs m 0);
      [reflexivity | lia | exact Hf | reflexivity | reflexivity].
  - intros Hmax.
    rewrite (RetrierFacts2.loop_errors_sleeps_unbounded M o getStream errs Hmax Hgs fuel 0);
      reflexivity.
Qed.

Lemma retrier_backoff_sleeps_witness :
  let o := {| Backoff.exponentialBackoffBase := 2; Backoff.constantBackoffMs := 500;
              Backoff.maxBackoffMs := 3000; Backoff.maxRetries := 4;
              Backoff.statusCodesToIgnore := [] |} in
  let e := PlainError "down" in
  Retrier.sleeps (Retrier.start (Message := unit) o (fun _ => [Retrier.UError e]) 10)
  = [500; 1000; 2000; 3000].
Proof.
  intros o e.
  destruct (retrier_backoff_sleeps unit o (fun _ => [Retrier.UError e]) (fun _ => e) 10)
    as [Hb _]; [intros i; exists []; reflexivity|].
  rewrite (Hb 4%nat); [reflexivity | reflexivity | lia].
Defined.

(** [statusCodesToIgnore] has no effect: client errors carry no [status],
    so [includes(err.status)] is always false and the retrying stream
    behaves the same whatever codes are listed. *)
Theorem retrier_ignores_statusCodesToIgnore (M : Type) (o : Backoff.BackoffOptions)
  (codes : list Z) (getStream : nat -> list (Retrier.UpstreamEvent M)) (fuel : nat) :
  Retrier.start o getStream fuel =
  Retrier.start
    (Backoff.Build_BackoffOptions (Backoff.exponentialBackoffBase o)
       (Backoff.constantBackoffMs o) (Backoff.maxBackoffMs o) (Backoff.maxRetries o) codes)
    getStream fuel.
Proof. unfold Retrier.start. apply RetrierFacts2.loop_codes. Qed.

(** The retrying stream forwards a message only while the last control
    event it emitted is [ready]: never before the first [ready], and never
    between a [retryingError] (or a terminal event) and the next [ready]. *)
Theorem retrier_messages_only_while_ready (M : Type) (o : Backoff.BackoffOptions)
  (getStream : nat -> list (Retrier.UpstreamEvent M)) (fuel : nat)
  (l1 l2 : list (Retrier.RetryEvent M)) (m : M) :
  Retrier.emitted (Retrier.start o getStream fuel) = l1 ++ Retrier.EMessage m :: l2 ->
  exists l1a l1b, l1 = l1a ++ Retrier.EReady :: l1b /\
    Forall (fun ev => exists x, ev = Retrier.EMessage x) l1b.
Proof.
  intros H. unfold Retrier.start in H.
  assert (G : RetrierFacts2.gated M
                (Retrier.loop o getStream fuel
                   (Retrier.set_state M (Retrier.initialRS M) Retrier.started))).
  { apply RetrierFacts2.gated_loop. split.
    - intros l1' m' l2' E. cbn in E. destruct l1'; discriminate.
    - cbn. discriminate. }
  destruct G as [G _]. exact (G l1 m l2 H).
Qed.

Lemma retrier_messages_only_while_ready_witness :
  exists l1a l1b,
    [Retrier.EReady (Message := nat); Retrier.EMessage 2%nat;
     Retrier.ERetryingError (PlainError "lost") 0 false; Retrier.EReady]
    = l1a ++ Retrier.EReady :: l1b /\
    Forall (fun ev => exists x, ev = Retrier.EMessage x) l1b.
Proof.
  apply (retrier_messages_only_while_ready nat Backoff.DEFAULT_BACKOFF_OPTIONS
           (fun i => if Nat.eqb i 0
                     then [Retrier.UMessage 1%nat; Retrier.UReady; Retrier.UMessage 2%nat;
                           Retrier.UError (PlainError "lost")]
                     else [Retrier.UReady; Retrier.UMessage 3%nat; Retrier.UComplete])
           5 _ [Retrier.EComplete] 3%nat).
  reflexivity.
Defined.

(** An upstream that keeps becoming ready and then failing is retried
    forever, even with a retry limit (other than 0): each [ready] resets
    the retry counter, so every [retryingError] carries 0 and not
    abandoned, every sleep is [getBackoffMs(options, 0)], and the
    messages of every attempt are forwarded. *)
Theorem retrier_flapping_upstream (M : Type) (o : Backoff.BackoffOptions)
  (ms : nat -> list M) (errs : nat -> ClientErr)
  (getStream : nat -> list (Retrier.UpstreamEvent M)) (fuel : nat) :
  Backoff.maxRetries o <> 0 ->
  (forall i, getStream i =
     Retrier.UReady :: map Retrier.UMessage (ms i) ++ [Retrier.UError (errs i)]) ->
  Retrier.emitted (Retrier.start o getStream fuel) =
    flat_map (fun i => Retrier.EReady :: map Retrier.EMessage (ms i)
                       ++ [Retrier.ERetryingError (errs i) 0 false]) (seq 0 fuel) /\
  Retrier.sleeps (Retrier.start o getStream fuel) = repeat (Backoff.getBackoffMs o 0) fuel /\
  Retrier.state (Retrier.start o getStream fuel) = Retrier.started.
Proof.
  intros Hmax Hgs. unfold Retrier.start.
  destruct (RetrierFacts2.loop_flapping M o ms errs getStream Hmax Hgs fuel
              (Retrier.set_state M (Retrier.initialRS M) Retrier.started) eq_refl)
    as (He & Hs & Ht).
  rewrite He, Hs, Ht. auto.
Qed.

Lemma retrier_flapping_upstream_witness :
  let o := {| Backoff.exponentialBackoffBase := 2; Backoff.constantBackoffMs := 500;
              Backoff.maxBackoffMs := 3000; Backoff.maxRetries := 1;
              Backoff.statusCodesToIgnore := [] |} in
  let e := PlainError "reset" in
  Retrier.sleeps (Retrier.start o
    (fun _ => [Retrier.UReady; Retrier.UMessage tt; Retrier.UError e]) 3) = [500; 500; 500].
Proof.
  intros o e.
  destruct (retrier_flapping_upstream unit o (fun _ => [tt]) (fun _ => e)
              (fun _ => [Retrier.UReady; Retrier.UMessage tt; Retrier.UError e]) 3)
    as (_ & Hs & _); [cbn; lia | reflexivity |].
  exact Hs.
Defined.

(* ------------------------------------------------------------------ *)
(** ** gRPC-Web client stream: message delivery and buffering *)

Module ClientFacts.
Import GrpcWebClient.

Section Facts.
Variables P R C : Type.
Variable dm : P -> R.

Definition msgs_ok (l : list (StreamEvent R C)) : Prop :=
  forall l1 r c l2, l = l1 ++ EMessage r c :: l2 -> In EReady l1 /\ c <> None.

Definition inv (g : GS P R C) : Prop :=
  msgs_ok (events g) /\
  (state g = ready -> In EReady (events g) /\ responseContext P R C g <> None).

Lemma msgs_ok_other (l : list (StreamEvent R C)) (e : StreamEvent R C) :
  (forall r c, e <> EMessage r c) -> msgs_ok l -> msgs_ok (l ++ [e]).
Proof.
  intros He Hl l1 r c l2 H. symmetry in H. apply RetrierFacts2.snoc_decomp in H.
  destruct H as [(_ & Hx & _) | (l2' & _ & Hold)].
  - exfalso. exact (He r c (eq_sym Hx)).
  - exact (Hl l1 r c l2' Hold).
Qed.

Lemma msgs_ok_msg (l : list (StreamEvent R C)) r c :
  msgs_ok l -> In EReady l -> c <> None -> msgs_ok (l ++ [EMessage r c]).
Proof.
  intros Hl Hr Hc l1 r' c' l2 H. symmetry in H. apply RetrierFacts2.snoc_decomp in H.
  destruct H as [(_ & Hx & ->) | (l2' & _ & Hold)].
  - injection Hx as _ <-. auto.
  - exact (Hl l1 r' c' l2' Hold).
Qed.

Lemma inv_emit_other (g : GS P R C) e :
  (forall r c, e <> EMessage r c) -> inv g -> inv (emit P R C g e).
Proof.
  intros He [H1 H2]. split; [apply msgs_ok_other; assumption|].
  cbn. intros Hs. destruct (H2 Hs) as [Hr Hc]. split; [apply in_or_app; auto | exact Hc].
Qed.

Lemma inv_set_state (g : GS P R C) s :
  s <> ready -> msgs_ok (events g) -> inv (set_state P R C g s).
Proof. intros Hs H. split; [exact H | cbn; intros E; congruence]. Qed.

Lemma inv_process (cs : list (Chunk P)) : forall g : GS P R C,
  msgs_ok (events g) -> In EReady (events g) -> responseContext P R C g <> None ->
  let g' := process_chunks P R C dm g cs in
  msgs_ok (events g') /\ In EReady (events g') /\
  responseContext P R C g' = responseContext P R C g.
Proof.
  induction cs as [|ch cs IH]; intros g H1 Hr Hc; cbn zeta; [auto|].
  destruct ch as [[d|]|[[k msg]|]]; cbn [process_chunks].
  - destruct (IH (emit P R C g (EMessage (dm d) (responseContext P R C g)))) as (A & B & D).
    + apply msgs_ok_msg; assumption.
    + cbn. apply in_or_app. auto.
    + exact Hc.
    + auto.
  - apply IH; assumption.
  - destruct (IH (emit P R C (set_state P R C g error)
                    (EError (ClientRpcError (kind_value k) (JsString msg))))) as (A & B & D).
    + apply msgs_ok_other; [discriminate | exact H1].
    + cbn. apply in_or_app. auto.
    + exact Hc.
    + auto.
  - destruct (IH (set_state P R C g trailersReceived) H1 Hr Hc) as (A & B & D). auto.
Qed.

Lemma inv_process' (g : GS P R C) cs :
  inv g -> state g = ready -> inv (process_chunks P R C dm g cs).
Proof.
  intros [H1 H2] Hs. destruct (H2 Hs) as [Hr Hc].
  destruct (inv_process cs g H1 Hr Hc) as (A & B & D).
  split; [exact A|]. intros _. rewrite D. auto.
Qed.

Lemma inv_fold_process (css : list (list (Chunk P))) : forall g : GS P R C,
  msgs_ok (events g) -> In EReady (events g) -> responseContext P R C g <> None ->
  let g' := fold_left (process_chunks P R C dm) css g in
  msgs_ok (events g') /\ In EReady (events g') /\
  responseContext P R C g' = responseContext P R C g.
Proof.
  induction css as [|cs css IH]; intros g H1 Hr Hc; cbn zeta; [auto|].
  cbn [fold_left].
  destruct (inv_process cs g H1 Hr Hc) as (A & B & D).
  rewrite <- D in Hc.
  destruct (IH _ A B Hc) as (A2 & B2 & D2).
  rewrite D2, D. auto.
Qed.

Lemma inv_end (g : GS P R C) : inv g -> inv (end_ P R C g).
Proof.
  intros H. unfold end_.
  destruct (state_eqb (state g) trailersReceived).
  - apply inv_emit_other; [discriminate|].
    apply inv_set_state; [discriminate | exact (proj1 H)].
  - destruct (state_eqb (state g) error); [exact H|].
    apply inv_emit_other; [discriminate | exact H].
Qed.

Lemma inv_ready (g : GS P R C) :
  msgs_ok (events g) -> responseContext P R C g <> None -> inv (ready_ P R C dm g).
Proof.
  intros H1 Hc. unfold ready_. cbv zeta.
  set (g1 := emit P R C (set_state P R C g ready) EReady).
  assert (A : msgs_ok (events g1)) by (apply msgs_ok_other; [discriminate | exact H1]).
  assert (B : In EReady (events g1)) by (cbn; apply in_or_app; right; left; reflexivity).
  destruct (inv_fold_process (pendingChunks P R C g1) g1 A B Hc) as (A2 & B2 & D2).
  assert (G : inv (fold_left (process_chunks P R C dm) (pendingChunks P R C g1) g1))
    by (split; [exact A2 | intros _; rewrite D2; auto]).
  destruct (state_eqb (state g) endedBeforeReady); [apply inv_end|]; exact G.
Qed.

Lemma inv_step (g : GS P R C) (i : Input P C) : inv g -> inv (step dm g i).
Proof.
  intros H. destruct i as [created|provided|[ctx|] [[k msg]|] st|cs|[[stack|e]|]|];
    cbn [step].
  - destruct (negb (state_eqb (state g) initial)); [apply inv_emit_other; [discriminate | exact H]|].
    destruct created.
    + split; [exact (proj1 H) | cbn; discriminate].
    + apply inv_emit_other; [discriminate|].
      apply inv_set_state; [discriminate | exact (proj1 H)].
  - destruct provided.
    + apply inv_set_state; [discriminate | exact (proj1 H)].
    + apply inv_emit_other; [discriminate|].
      apply inv_set_state; [discriminate | exact (proj1 H)].
  - apply inv_emit_other; [discriminate | exact H].
  - destruct (negb (st =? 200)); [apply inv_emit_other; [discriminate | exact H]|].
    assert (G : inv (mkGS P R C (state g) (hasTransport g) (pendingChunks P R C g) (Some ctx)
                       (events g) (transportCancels g))).
    { split; [exact (proj1 H)|]. cbn. intros Hs. destruct (proj2 H Hs) as [Hr _].
      split; [exact Hr | discriminate]. }
    cbn [state]. destruct (state g) eqn:Es;
      match goal with
      | |- inv (emit _ _ _ _ _) => apply inv_emit_other; [discriminate | exact G]
      | |- inv (ready_ _ _ _ _ _) => apply inv_ready; [exact (proj1 H) | discriminate]
      | _ => exact G
      end.
  - apply inv_emit_other; [discriminate | exact H].
  - apply inv_emit_other; [discriminate | exact H].
  - destruct (state g) eqn:Es;
      match goal with
      | |- inv (emit _ _ _ _ _) => apply inv_emit_other; [discriminate | exact H]
      | |- inv (process_chunks _ _ _ _ _ _) => apply inv_process'; assumption
      | |- inv (mkGS _ _ _ _ _ _ _ _ _) => split; [exact (proj1 H) | cbn; discriminate]
      | _ => exact H
      end.
  - destruct (state_eqb (state g) error); [exact H|].
    apply inv_emit_other; [discriminate|].
    apply inv_set_state; [discriminate | exact (proj1 H)].
  - destruct (state_eqb (state g) error); [exact H|].
    apply inv_emit_other; [discriminate|].
    apply inv_set_state; [discriminate | exact (proj1 H)].
  - destruct (state_eqb (state g) error); [exact H|].
    destruct (state_eqb (state g) started).
    + apply inv_set_state; [discriminate | exact (proj1 H)].
    + apply inv_end. exact H.
  - unfold cancel. apply inv_emit_other; [discriminate|].
    apply inv_set_state; [discriminate|].
    destruct (hasTransport g && state_eqb (state g) started)%bool; exact (proj1 H).
Qed.

Lemma inv_run (inputs : list (Input P C)) : inv (run dm inputs).
Proof.
  unfold run.
  assert (H0 : inv (initialGS P R C)).
  { split; [|cbn; discriminate].
    intros l1 r c l2 E. cbn in E. destruct l1; discriminate. }
  revert H0. generalize (initialGS P R C).
  induction inputs as [|i inputs IH]; intros g H; [exact H|].
  cbn [fold_left]. apply IH, inv_step, H.
Qed.

(** Events of the message frames of one chunk. *)
Definition chunk_events (ctx : option C) (ds : list (option P)) : list (StreamEvent R C) :=
  flat_map (fun od => match od with Some d => [EMessage (dm d) ctx] | None => [] end) ds.

Lemma process_msgs (ds : list (option P)) : forall g : GS P R C,
  process_chunks P R C dm g (map CMessage ds) =
  mkGS P R C (state g) (hasTransport g) (pendingChunks P R C g) (responseContext P R C g)
    (events g ++ chunk_events (responseContext P R C g) ds) (transportCancels g).
Proof.
  induction ds as [|[d|] ds IH]; intros g; cbn [map process_chunks].
  - rewrite app_nil_r. destruct g; reflexivity.
  - rewrite IH. cbn. rewrite <- app_assoc. reflexivity.
  - rewrite IH. reflexivity.
Qed.

Lemma fold_process_msgs (dss : list (list (option P))) : forall g : GS P R C,
  fold_left (process_chunks P R C dm) (map (map CMessage) dss) g =
  mkGS P R C (state g) (hasTransport g) (pendingChunks P R C g) (responseContext P R C g)
    (events g ++ flat_map (chunk_events (responseContext P R C g)) dss)
    (transportCancels g).
Proof.
  induction dss as [|ds dss IH]; intros g; cbn [map fold_left flat_map].
  - rewrite app_nil_r. destruct g; reflexivity.
  - rewrite process_msgs, IH. cbn. rewrite <- app_assoc. reflexivity.
Qed.

Lemma fold_chunks_started (css : list (list (Chunk P))) : forall g : GS P R C,
  state g = started ->
  fold_left (step dm) (map IChunk css) g =
  mkGS P R C started (hasTransport g) (pendingChunks P R C g ++ css) (responseContext P R C g)
    (events g) (transportCancels g).
Proof.
  induction css as [|cs css IH]; intros g Hs; cbn [map fold_left].
  - rewrite app_nil_r, <- Hs. destruct g; reflexivity.
  - cbn [step]. rewrite Hs. rewrite IH by reflexivity. cbn. rewrite <- app_assoc.
    reflexivity.
Qed.

Lemma fold_chunks_ready (dss : list (list (option P))) : forall g : GS P R C,
  state g = ready ->
  fold_left (step dm) (map IChunk (map (map CMessage) dss)) g =
  mkGS P R C ready (hasTransport g) (pendingChunks P R C g) (responseContext P R C g)
    (events g ++ flat_map (chunk_events (responseContext P R C g)) dss)
    (transportCancels g).
Proof.
  induction dss as [|ds dss IH]; intros g Hs; cbn [map fold_left flat_map].
  - rewrite app_nil_r, <- Hs. destruct g; reflexivity.
  - cbn [step]. rewrite Hs, process_msgs, IH by exact Hs. cbn.
    rewrite <- app_assoc. reflexivity.
Qed.

End Facts.
End ClientFacts.

(** Every [message] event of a gRPC-Web client stream comes after a
    [ready] event and carries a response context: messages are only
    decoded once the headers have been accepted, whether their chunks
    arrived before or after. *)
Theorem client_messages_after_ready (Payload Response Ctx : Type)
  (decodeMessage : Payload -> Response) (inputs : list (GrpcWebClient.Input Payload Ctx))
  (l1 l2 : list (GrpcWebClient.StreamEvent Response Ctx)) (r : Response) (c : option Ctx) :
  GrpcWebClient.events (GrpcWebClient.run decodeMessage inputs)
    = l1 ++ GrpcWebClient.EMessage r c :: l2 ->
  In GrpcWebClient.EReady l1 /\ c <> None.
Proof.
  intros H. exact (proj1 (ClientFacts.inv_run Payload Response Ctx decodeMessage inputs)
                     l1 r c l2 H).
Qed.

Lemma client_messages_after_ready_witness :
  In GrpcWebClient.EReady [GrpcWebClient.EReady (Response := Z) (Ctx := unit)] /\
  Some tt <> None.
Proof.
  apply (client_messages_after_ready Z Z unit (fun x => x)
           [GrpcWebClient.IStart true; GrpcWebClient.IRequestContext true;
            GrpcWebClient.IChunk [GrpcWebClient.CMessage (Some 7)];
            GrpcWebClient.IHeaders (Some tt) None 200; GrpcWebClient.IEnd None]
           _ [GrpcWebClient.EError (ClientRpcError (kind_value unavailable) JsUndefined)] 7).
  reflexivity.
Defined.

(** Chunks received before the headers are accepted are buffered and
    replayed by [ready()], and an end of the transport before the headers
    is deferred until then: whether the message chunks and the final
    trailers arrive after the headers, before them, or before them together
    with the end, the stream emits [ready], the messages in order with the
    response context, and [complete]. *)
Theorem client_buffered_chunks_replayed (Payload Response Ctx : Type)
  (decodeMessage : Payload -> Response) (ctx : Ctx) (dss : list (list (option Payload))) :
  let pre := [GrpcWebClient.IStart true; GrpcWebClient.IRequestContext true] in
  let h := GrpcWebClient.IHeaders (Some ctx) None 200 in
  let body := map (fun ds => GrpcWebClient.IChunk (map GrpcWebClient.CMessage ds)) dss
              ++ [GrpcWebClient.IChunk [GrpcWebClient.CTrailers None]] in
  let expected :=
    GrpcWebClient.EReady
    :: flat_map (flat_map (fun od => match od with
                                     | Some d => [GrpcWebClient.EMessage (decodeMessage d) (Some ctx)]
                                     | None => []
                                     end)) dss
    ++ [GrpcWebClient.EComplete] in
  GrpcWebClient.events (GrpcWebClient.run decodeMessage (pre ++ h :: body ++ [GrpcWebClient.IEnd None]))
    = expected /\
  GrpcWebClient.events (GrpcWebClient.run decodeMessage (pre ++ body ++ [h; GrpcWebClient.IEnd None]))
    = expected /\
  GrpcWebClient.events (GrpcWebClient.run decodeMessage (pre ++ body ++ [GrpcWebClient.IEnd None; h]))
    = expected.
Proof.
  intros pre h body expected. unfold GrpcWebClient.run, body.
  rewrite <- (map_map (map GrpcWebClient.CMessage) GrpcWebClient.IChunk).
  repeat split.
  - rewrite fold_left_app. cbn [fold_left]. rewrite !fold_left_app.
    rewrite ClientFacts.fold_chunks_ready by reflexivity. reflexivity.
  - rewrite !fold_left_app. cbn [fold_left].
    rewrite ClientFacts.fold_chunks_started by reflexivity.
    cbn. rewrite fold_left_app, ClientFacts.fold_process_msgs. reflexivity.
  - rewrite !fold_left_app. cbn [fold_left].
    rewrite ClientFacts.fold_chunks_started by reflexivity.
    cbn. rewrite fold_left_app, ClientFacts.fold_process_msgs. reflexivity.
Qed.

(* ------------------------------------------------------------------ *)
(** ** Retrying stream with the default options *)

Module RetrierDefaults.
Import Backoff Retrier RetrierCounts.

Section Facts.
Variable M : Type.

Definition retry_ok (l : list (RetryEvent M)) : Prop :=
  forall l1 e n b l2, l = l1 ++ ERetryingError e n b :: l2 ->
    b = false /\ n = Z.of_nat (retries_since_ready l1).

Definition inv (rs : RS M) : Prop :=
  state rs <> abandoned /\ (forall e, ~ In (EError e) (emitted rs)) /\
  retry_ok (emitted rs) /\ retriesSinceLastReady rs = retries_since_ready (emitted rs).






Ltac other := intros ? ? ? ?; discriminate || (intros ? ?; discriminate).




End Facts.
End RetrierDefaults.

